(** * BusTrackerr: the adaptive network layer of [src/lib/network-optimizer.ts]

    A shallow embedding of the TypeScript module: connection classification,
    the bus payload codec, retry with backoff, the bounded TTL cache, the
    debounced batch manager and the offline queue.

    Conventions of the embedding:
    - [Date.now()] is an explicit argument [now] (milliseconds);
    - a JS [Map<string, V>] is an association list in insertion order;
    - an awaited callback whose body is not part of the module (the batch
      sink, the processor of a queued update, the retried [fn]) is a
      parameter giving the outcome of each call; where other handlers can
      run while a call is awaited, the function is split at the [await];
    - the bus codec [BusCodec] works on IEEE 754 doubles and on strings of
      UTF-16 code units, as the JS runtime does;
    - elsewhere integral JS numbers (timestamps, sizes, retry budgets) are
      [Z], and fractional ones (downlink, rtt, admin amounts, and the
      coordinates of the arithmetic model [Codec]) are exact rationals [Q]. *)

From Stdlib Require Import String Ascii.
From Stdlib Require Import ZArith QArith Qround Qabs List Bool Lia Lqa.
From Stdlib Require Import Floats.
From Stdlib Require DecimalString DecimalZ DecimalPos.
From Stdlib Require Import Permutation Sorted.
Import ListNotations.

Local Open Scope string_scope.
Local Open Scope Z_scope.
Local Open Scope list_scope.

(* ===================================================================== *)
(** * Part I: the program                                                 *)
(* ===================================================================== *)

(** ** JS [Map] with string keys: entries kept in insertion order *)

Module JsMap.
Section WithValue.
Context {V : Type}.

Definition t : Type := list (string * V).

Definition empty : t := [].

Definition size (m : t) : nat := length m.

Definition keys (m : t) : list string := map fst m.

Fixpoint get (k : string) (m : t) : option V :=
  match m with
  | [] => None
  | (k', v) :: rest => if String.eqb k k' then Some v else get k rest
  end.

Definition has (k : string) (m : t) : bool :=
  match get k m with Some _ => true | None => false end.

(** [Map.prototype.set]: an existing key keeps its position and gets the
    new value; a new key goes to the end. *)
Fixpoint set (k : string) (v : V) (m : t) : t :=
  match m with
  | [] => [(k, v)]
  | (k', v') :: rest =>
      if String.eqb k k' then (k, v) :: rest else (k', v') :: set k v rest
  end.

Definition delete (k : string) (m : t) : t :=
  filter (fun e => negb (String.eqb k (fst e))) m.

(** [m.keys().next().value]: the oldest key, [None] for [undefined]. *)
Definition first_key (m : t) : option string :=
  match m with
  | [] => None
  | (k, _) :: _ => Some k
  end.

(** Keys of a JS Map are unique. *)
Definition wf (m : t) : Prop := NoDup (keys m).

End WithValue.
Arguments t : clear implicits.
End JsMap.

(** ** DataCache *)

Module DataCache.

Record CacheEntry (T : Type) : Type := mkEntry {
  data : T;
  timestamp : Z;
  ttl : Z
}.
Arguments mkEntry {T}.
Arguments data {T}.
Arguments timestamp {T}.
Arguments ttl {T}.

Record t (T : Type) : Type := mk {
  cache : JsMap.t (CacheEntry T);
  maxSize : Z
}.
Arguments mk {T}.
Arguments cache {T}.
Arguments maxSize {T}.

Definition default_maxSize : Z := 100.
Definition default_ttl : Z := 300000.

Definition new {T : Type} (maxSize : Z) : t T :=
  {| cache := JsMap.empty; maxSize := maxSize |}.

(** The eviction step of [set]: [delete(keys().next().value)]; on an empty
    map the key is [undefined] and the delete removes nothing. *)
Definition evict_oldest {T : Type} (m : JsMap.t (CacheEntry T))
  : JsMap.t (CacheEntry T) :=
  match JsMap.first_key m with
  | Some oldestKey => JsMap.delete oldestKey m
  | None => m
  end.

Definition set {T : Type} (now : Z) (key : string) (d : T) (ttl : Z)
    (c : t T) : t T :=
  let m :=
    if Z.of_nat (JsMap.size (cache c)) >=? maxSize c
    then evict_oldest (cache c)
    else cache c in
  {| cache := JsMap.set key {| data := d; timestamp := now; ttl := ttl |} m;
     maxSize := maxSize c |}.

(** [get] returns the value ([None] for [null]) and the cache after it. *)
Definition get {T : Type} (now : Z) (key : string) (c : t T)
  : option T * t T :=
  match JsMap.get key (cache c) with
  | None => (None, c)
  | Some entry =>
      if now - timestamp entry >? ttl entry
      then (None, {| cache := JsMap.delete key (cache c);
                     maxSize := maxSize c |})
      else (Some (data entry), c)
  end.

Definition clear {T : Type} (c : t T) : t T :=
  {| cache := JsMap.empty; maxSize := maxSize c |}.

Definition size {T : Type} (c : t T) : nat := JsMap.size (cache c).

(** One call of [set], with the clock reading at the call. *)
Record SetCall (T : Type) : Type := mkCall {
  call_now : Z;
  call_key : string;
  call_data : T;
  call_ttl : Z
}.
Arguments mkCall {T}.
Arguments call_now {T}.
Arguments call_key {T}.
Arguments call_data {T}.
Arguments call_ttl {T}.

Definition apply_call {T : Type} (c : t T) (s : SetCall T) : t T :=
  set (call_now s) (call_key s) (call_data s) (call_ttl s) c.

Definition set_all {T : Type} (calls : list (SetCall T)) (c : t T) : t T :=
  fold_left apply_call calls c.

Definition absent {T : Type} (key : string) (c : t T) : Prop :=
  JsMap.get key (cache c) = None.

End DataCache.

(** ** getNetworkInfo and getOptimizationSettings *)

Module Network.

Inductive NetworkType : Type := slow_2g | net_2g | net_3g | net_4g | unknown.

Inductive ConnectionQuality : Type := poor | good | excellent.

Record NetworkInfo : Type := mkInfo {
  type : NetworkType;
  quality : ConnectionQuality;
  effectiveType : string;
  downlink : Q;
  rtt : Q
}.

Record OptimizationSettings : Type := mkSettings {
  updateInterval : Z;
  dataCompression : bool;
  reducedPayload : bool;
  batchUpdates : bool;
  maxRetries : Z
}.

(** [navigator.connection]; a field the browser does not report is
    [None] ([undefined]). *)
Record Connection : Type := mkConnection {
  conn_effectiveType : option string;
  conn_downlink : option Q;
  conn_rtt : option Q
}.

(** [x || d] on a string: [undefined] and the empty string are falsy. *)
Definition string_or (x : option string) (d : string) : string :=
  match x with
  | Some s => if String.eqb s "" then d else s
  | None => d
  end.

(** [x || d] on a number: [undefined] and [0] are falsy. *)
Definition number_or (x : option Q) (d : Q) : Q :=
  match x with
  | Some q => if Qeq_bool q 0 then d else q
  | None => d
  end.

Definition Qltb (x y : Q) : bool := negb (Qle_bool y x).

Definition is_poor (q : ConnectionQuality) : bool :=
  match q with poor => true | _ => false end.

(** The [switch (effectiveType)] block. *)
Definition base_class (effectiveType : string) (downlink : Q)
  : NetworkType * ConnectionQuality :=
  if String.eqb effectiveType "slow-2g" then (slow_2g, poor)
  else if String.eqb effectiveType "2g" then (net_2g, poor)
  else if String.eqb effectiveType "3g"
       then (net_3g, if Qltb downlink (3 # 2) then poor else good)
  else if String.eqb effectiveType "4g"
       then (net_4g, if Qltb downlink 5 then good else excellent)
  else (unknown, good).

(** The two-line adjustment of the quality by the round-trip time. *)
Definition adjust_by_rtt (rtt : Q) (quality : ConnectionQuality)
  : ConnectionQuality :=
  if Qltb 2000 rtt then poor
  else if Qltb 1000 rtt && negb (is_poor quality) then good
  else quality.

(** [nav] is [None] when [navigator] has no [connection]. *)
Definition getNetworkInfo (nav : option Connection) : NetworkInfo :=
  match nav with
  | None =>
      {| type := unknown; quality := good; effectiveType := "unknown";
         downlink := 10; rtt := 100 |}
  | Some connection =>
      let effectiveType :=
        string_or (conn_effectiveType connection) "unknown" in
      let downlink := number_or (conn_downlink connection) 10 in
      let rtt := number_or (conn_rtt connection) 100 in
      let (type, quality) := base_class effectiveType downlink in
      {| type := type; quality := adjust_by_rtt rtt quality;
         effectiveType := effectiveType; downlink := downlink; rtt := rtt |}
  end.

Definition getOptimizationSettings (networkInfo : NetworkInfo)
  : OptimizationSettings :=
  match quality networkInfo with
  | poor => {| updateInterval := 50000; dataCompression := true;
               reducedPayload := true; batchUpdates := true;
               maxRetries := 2 |}
  | good => {| updateInterval := 15000; dataCompression := true;
               reducedPayload := false; batchUpdates := false;
               maxRetries := 3 |}
  | excellent => {| updateInterval := 5000; dataCompression := false;
                    reducedPayload := false; batchUpdates := false;
                    maxRetries := 3 |}
  end.

End Network.

(** ** JS numbers and strings *)

Module JsNumber.
Local Open Scope float_scope.

(** A JS number is an IEEE 754 binary64 value; [*], [/], [+] and [-] are
    the correctly rounded operations. *)
Definition number : Type := float.

(** [x ? a : b] on a number: [0], [-0] and [NaN] are falsy. *)
Definition truthy (x : number) : bool := negb (is_zero x || is_nan x)%bool.

Definition two52 : number := 4503599627370496.

(** The integer part of [x] for [0 <= x < 2^52]: adding [2^52] rounds [x]
    to an integer, which is one too high when it was rounded up. *)
Definition floor_below_two52 (x : number) : number :=
  let t := (x + two52) - two52 in
  if x <? t then t - 1 else t.

(** [Math.round]: [NaN], the infinities and integral numbers (all numbers
    from [2^52] on are integral) are returned as they are; otherwise the
    closest integral number, the one closer to +infinity on a tie; the
    result keeps the sign of [x] when it is zero. *)
Definition Math_round (x : number) : number :=
  if (is_nan x || is_infinity x)%bool then x
  else if two52 <=? abs x then x
  else if 0 <? x then
    let f := floor_below_two52 x in
    if 0.5 <=? x - f then f + 1 else f
  else if x <? 0 then
    let f := floor_below_two52 (- x) in
    if 0.5 <? (- x) - f then - (f + 1) else - f
  else x.

End JsNumber.

Module JsString.

(** A JS string is a sequence of UTF-16 code units; [length] and
    [substring] count code units. *)
Definition t : Type := list N.

(** The string of an ASCII literal. *)
Definition of_ascii (s : string) : t :=
  map N_of_ascii (list_ascii_of_string s).

Definition length (s : t) : nat := List.length s.

(** [s.substring(0, n)] *)
Definition substring_from_0 (n : nat) (s : t) : t := firstn n s.

End JsString.

(** ** compressBusData and decompressBusData *)

Module BusCodec.
Section WithOther.

(** The values of the properties that the codec does not name. *)
Context {Other : Type}.

(** A bus record as the driver page writes it and the tracker reads it:
    [busId] a string, [lat] and [lon] numbers, and besides the seven
    properties that the codec names any further ones ([routeName],
    [driverId], ...) in [others]. An optional property that is [null] or
    missing is [None]: the codec reads the two alike, and writes [null]. *)
Record BusData : Type := mkBus {
  busId : JsString.t;
  lat : JsNumber.number;
  lon : JsNumber.number;
  speed : option JsNumber.number;
  heading : option JsNumber.number;
  status : option JsString.t;
  updatedAt : option JsNumber.number;
  others : list (string * Other)
}.

Record Compressed : Type := mkCompressed {
  id : JsString.t;
  c_lat : JsNumber.number;
  c_lon : JsNumber.number;
  spd : option JsNumber.number;
  hdg : option JsNumber.number;
  sts : JsString.t;
  upd : JsNumber.number
}.

(** [Math.round(x * 1000000) / 1000000] *)
Definition round_coordinate (x : JsNumber.number) : JsNumber.number :=
  PrimFloat.div (JsNumber.Math_round (PrimFloat.mul x 1000000%float))
                1000000%float.

(** [x ? Math.round(x) : null] *)
Definition round_if_truthy (x : option JsNumber.number)
  : option JsNumber.number :=
  match x with
  | Some v => if JsNumber.truthy v then Some (JsNumber.Math_round v) else None
  | None => None
  end.

Definition unknown : JsString.t := JsString.of_ascii "unknown".

(** [status?.substring(0, 10) || "unknown"]: the empty string is falsy. *)
Definition truncate_status (s : option JsString.t) : JsString.t :=
  match s with
  | Some s =>
      match JsString.substring_from_0 10 s with
      | [] => unknown
      | cut => cut
      end
  | None => unknown
  end.

(** [updatedAt || Date.now()] *)
Definition timestamp_or (t : option JsNumber.number) (now : JsNumber.number)
  : JsNumber.number :=
  match t with
  | Some u => if JsNumber.truthy u then u else now
  | None => now
  end.

Definition compressBusData (now : JsNumber.number) (busData : option BusData)
  : option Compressed :=
  match busData with
  | None => None
  | Some busData =>
      Some {| id := busId busData;
              c_lat := round_coordinate (lat busData);
              c_lon := round_coordinate (lon busData);
              spd := round_if_truthy (speed busData);
              hdg := round_if_truthy (heading busData);
              sts := truncate_status (status busData);
              upd := timestamp_or (updatedAt busData) now |}
  end.

(** The object literal that is returned has the seven properties only. *)
Definition decompressBusData (compressedData : option Compressed)
  : option BusData :=
  match compressedData with
  | None => None
  | Some compressedData =>
      Some {| busId := id compressedData;
              lat := c_lat compressedData;
              lon := c_lon compressedData;
              speed := spd compressedData;
              heading := hdg compressedData;
              status := Some (sts compressedData);
              updatedAt := Some (upd compressedData);
              others := [] |}
  end.

(** *** The reference side of the round-trip law, after the spec's words *)


(** The record reduced to the seven properties that the codec names. *)
Definition named_properties (r : BusData) : BusData :=
  {| busId := busId r; lat := lat r; lon := lon r; speed := speed r;
     heading := heading r; status := status r; updatedAt := updatedAt r;
     others := [] |}.


End WithOther.
Arguments BusData : clear implicits.
End BusCodec.

(** ** The bus codec in exact arithmetic *)

Module Codec.

(** The codec restricted to the seven properties it names, with numbers as
    exact rationals and strings of 8-bit characters (code units below 256):
    what [compressBusData] and [decompressBusData] compute when no
    floating-point rounding error occurs. [BusCodec] above is the codec on
    doubles, UTF-16 strings and records with further properties. *)
Record BusData : Type := mkBus {
  busId : string;
  lat : Q;
  lon : Q;
  speed : option Q;
  heading : option Q;
  status : option string;
  updatedAt : option Z
}.

Record Compressed : Type := mkCompressed {
  id : string;
  c_lat : Q;
  c_lon : Q;
  spd : option Q;
  hdg : option Q;
  sts : string;
  upd : Z
}.

(** [Math.round]: the nearest integer, halves going up. *)
Definition Math_round (x : Q) : Z := Qfloor (x + (1 # 2)).

(** [Math.round(x * 1000000) / 1000000] *)
Definition round_coordinate (x : Q) : Q :=
  inject_Z (Math_round (x * 1000000)) / 1000000.

(** [x ? Math.round(x) : null]: a missing value and [0] are falsy. *)
Definition round_if_truthy (x : option Q) : option Q :=
  match x with
  | Some v => if Qeq_bool v 0 then None else Some (inject_Z (Math_round v))
  | None => None
  end.

(** [status?.substring(0, 10) || "unknown"] *)
Definition truncate_status (s : option string) : string :=
  match s with
  | Some s =>
      let cut := String.substring 0 10 s in
      if String.eqb cut "" then "unknown" else cut
  | None => "unknown"
  end.

(** [updatedAt || Date.now()] *)
Definition timestamp_or (t : option Z) (now : Z) : Z :=
  match t with
  | Some u => if (u =? 0)%Z then now else u
  | None => now
  end.

Definition compressBusData (now : Z) (busData : option BusData)
  : option Compressed :=
  match busData with
  | None => None
  | Some busData =>
      Some {| id := busId busData;
              c_lat := round_coordinate (lat busData);
              c_lon := round_coordinate (lon busData);
              spd := round_if_truthy (speed busData);
              hdg := round_if_truthy (heading busData);
              sts := truncate_status (status busData);
              upd := timestamp_or (updatedAt busData) now |}
  end.

Definition decompressBusData (compressedData : option Compressed)
  : option BusData :=
  match compressedData with
  | None => None
  | Some compressedData =>
      Some {| busId := id compressedData;
              lat := c_lat compressedData;
              lon := c_lon compressedData;
              speed := spd compressedData;
              heading := hdg compressedData;
              status := Some (sts compressedData);
              updatedAt := Some (upd compressedData) |}
  end.

End Codec.

(** ** retryWithBackoff *)

Module Retry.

(** How a promise settles. *)
Inductive Settled (T E : Type) : Type :=
| Resolved (value : T)
| Rejected (error : E).
Arguments Resolved {T E}.
Arguments Rejected {T E}.

Section WithTypes.
Context {T E : Type}.

(** What one call of [retryWithBackoff] did: how it settled ([Rejected
    None] throws the never-assigned [lastError], i.e. [undefined]), how
    often [fn] was invoked and the delays slept in between. *)
Record Run : Type := mkRun {
  outcome : Settled T (option E);
  invocations : nat;
  delays : list Z
}.

(** The [for] loop. [fn k] is how the [k]-th invocation of [fn] settles
    (counting from 0); [jitter attempt] is the value of
    [Math.random() * 1000] drawn in that iteration. *)
Fixpoint attempt_loop (fuel : nat) (fn : nat -> Settled T E)
    (maxRetries baseDelay : Z) (jitter : Z -> Z)
    (attempt : Z) (lastError : option E) (calls : nat) (slept : list Z)
  : option Run :=
  if attempt <=? maxRetries then
    match fuel with
    | O => None
    | S fuel' =>
        match fn calls with
        | Resolved v =>
            Some {| outcome := Resolved v; invocations := S calls;
                    delays := slept |}
        | Rejected error =>
            let lastError := Some error in
            if (attempt =? maxRetries)%Z then
              Some {| outcome := Rejected lastError;
                      invocations := S calls; delays := slept |}
            else
              let delay := baseDelay * 2 ^ attempt + jitter attempt in
              attempt_loop fuel' fn maxRetries baseDelay jitter
                           (attempt + 1) lastError (S calls)
                           (slept ++ [delay])
        end
    end
  else
    Some {| outcome := Rejected lastError; invocations := calls;
            delays := slept |}.

Definition default_baseDelay : Z := 1000.

(** The delay slept after the failed attempt number [i]. *)
Definition backoff_delay (baseDelay : Z) (jitter : Z -> Z) (i : nat) : Z :=
  baseDelay * 2 ^ Z.of_nat i + jitter (Z.of_nat i).

(** The loop runs at most [maxRetries + 1] times. *)
Definition retryWithBackoff (fn : nat -> Settled T E)
    (maxRetries baseDelay : Z) (jitter : Z -> Z) : option Run :=
  attempt_loop (Z.to_nat (maxRetries + 1)) fn maxRetries baseDelay jitter
               0 None 0%nat [].

End WithTypes.
Arguments Run : clear implicits.

End Retry.

(** ** BatchUpdateManager *)

Module Batch.
Section WithPayload.
Context {D : Type}.

(** A timer handle as returned by [setTimeout]; handles are truthy. *)
Definition handle : Type := nat.

Record BatchUpdateManager : Type := mkManager {
  pendingUpdates : JsMap.t D;
  batchTimeout : option handle;
  batchDelay : Z
}.

(** The manager together with the runtime it runs in: the timers that are
    armed, the next fresh handle, and the batches handed to
    [sendBatchUpdate] so far (oldest first). *)
Record World : Type := mkWorld {
  mgr : BatchUpdateManager;
  timers : list handle;
  next_handle : handle;
  sent : list (list (string * D))
}.

Definition new (batchDelay : Z) : World :=
  {| mgr := {| pendingUpdates := JsMap.empty; batchTimeout := None;
               batchDelay := batchDelay |};
     timers := []; next_handle := 1%nat; sent := [] |}.

Definition with_mgr (w : World) (m : BatchUpdateManager) : World :=
  {| mgr := m; timers := timers w; next_handle := next_handle w;
     sent := sent w |}.

Definition setTimeout (w : World) : handle * World :=
  (next_handle w,
   {| mgr := mgr w; timers := timers w ++ [next_handle w];
      next_handle := S (next_handle w); sent := sent w |}).

Definition clearTimeout (h : handle) (w : World) : World :=
  {| mgr := mgr w; timers := List.remove Nat.eq_dec h (timers w);
     next_handle := next_handle w; sent := sent w |}.

Definition addUpdate (key : string) (d : D) (w : World) : World :=
  let w1 := with_mgr w
    {| pendingUpdates := JsMap.set key d (pendingUpdates (mgr w));
       batchTimeout := batchTimeout (mgr w);
       batchDelay := batchDelay (mgr w) |} in
  let w2 := match batchTimeout (mgr w1) with
            | Some h => clearTimeout h w1
            | None => w1
            end in
  let (h, w3) := setTimeout w2 in
  with_mgr w3
    {| pendingUpdates := pendingUpdates (mgr w3);
       batchTimeout := Some h;
       batchDelay := batchDelay (mgr w3) |}.

(** [sendBatchUpdate(updates)]: the batch reaches the sink; the promise
    that is returned settles later. *)
Definition sendBatchUpdate (updates : list (string * D)) (w : World)
  : World :=
  {| mgr := mgr w; timers := timers w; next_handle := next_handle w;
     sent := sent w ++ [updates] |}.

(** [processBatch] up to its [await]: nothing happens on an empty map;
    otherwise the entries are taken out, the map is cleared, [batchTimeout]
    is reset and the batch is handed to the sink. The result carries the
    batch that is now awaited, if any. *)
Definition processBatch_begin (w : World)
  : option (list (string * D)) * World :=
  if (JsMap.size (pendingUpdates (mgr w)) =? 0)%nat then (None, w)
  else
    let updates := pendingUpdates (mgr w) in
    let w1 := with_mgr w
      {| pendingUpdates := JsMap.empty; batchTimeout := None;
         batchDelay := batchDelay (mgr w) |} in
    (Some updates, sendBatchUpdate updates w1).

(** [updates.forEach(([key, data]) => this.pendingUpdates.set(key, data))] *)
Definition requeue (updates : list (string * D)) (pending : JsMap.t D)
  : JsMap.t D :=
  fold_left (fun m e => JsMap.set (fst e) (snd e) m) updates pending.

(** The [catch] block of [processBatch]: it runs when the sink rejects, on
    the manager as it is by then, which other events may have changed
    while the sink was awaited. *)
Definition processBatch_catch (updates : list (string * D)) (w : World)
  : World :=
  with_mgr w
    {| pendingUpdates := requeue updates (pendingUpdates (mgr w));
       batchTimeout := batchTimeout (mgr w);
       batchDelay := batchDelay (mgr w) |}.

(** [flush()] and the timer callback do not await [processBatch]: what
    they do before returning is its part up to the [await]. *)
Definition flush_begin (w : World) : option (list (string * D)) * World :=
  match batchTimeout (mgr w) with
  | Some h => processBatch_begin (clearTimeout h w)
  | None => (None, w)
  end.

(** The runtime fires timer [h]: only an armed timer runs its callback. *)
Definition fire_begin (h : handle) (w : World)
  : option (list (string * D)) * World :=
  if existsb (Nat.eqb h) (timers w)
  then processBatch_begin (clearTimeout h w)
  else (None, w).

(** [processBatch], [flush] and the timer callback in a run where the sink
    settles before any other event is handled: [sink updates] tells whether
    it resolves, and the [catch] block follows at once. *)
Definition processBatch (sink : list (string * D) -> bool) (w : World)
  : World :=
  match processBatch_begin w with
  | (None, w') => w'
  | (Some updates, w1) =>
      if sink updates then w1 else processBatch_catch updates w1
  end.

Definition flush (sink : list (string * D) -> bool) (w : World) : World :=
  match batchTimeout (mgr w) with
  | Some h => processBatch sink (clearTimeout h w)
  | None => w
  end.

Definition fire (sink : list (string * D) -> bool) (h : handle) (w : World)
  : World :=
  if existsb (Nat.eqb h) (timers w)
  then processBatch sink (clearTimeout h w)
  else w.

End WithPayload.
Arguments BatchUpdateManager : clear implicits.
Arguments World : clear implicits.
End Batch.

(** ** OfflineManager *)

Module Offline.
Section WithPayload.
Context {D : Type}.

Record Item : Type := mkItem {
  key : string;
  data : D;
  timestamp : Z
}.

Record OfflineManager : Type := mk {
  isOnline : bool;
  offlineQueue : list Item;
  maxQueueSize : Z
}.

Definition default_maxQueueSize : Z := 50.

(** The constructor reads [navigator.onLine]. *)
Definition new (navigator_onLine : bool) (maxQueueSize : Z)
  : OfflineManager :=
  {| isOnline := navigator_onLine; offlineQueue := [];
     maxQueueSize := maxQueueSize |}.

Definition with_queue (m : OfflineManager) (q : list Item) : OfflineManager :=
  {| isOnline := isOnline m; offlineQueue := q;
     maxQueueSize := maxQueueSize m |}.

(** [while (queue.length >= maxQueueSize) queue.shift()]; [shift] on an
    empty array leaves it empty. [None]: the loop is still running when
    the fuel is used up. *)
Fixpoint shift_while_full (fuel : nat) (maxQueueSize : Z) (q : list Item)
  : option (list Item) :=
  if Z.of_nat (length q) >=? maxQueueSize then
    match fuel with
    | O => None
    | S fuel' => shift_while_full fuel' maxQueueSize (tl q)
    end
  else Some q.

Definition queueUpdate (fuel : nat) (now : Z) (key : string) (d : D)
    (m : OfflineManager) : option OfflineManager :=
  if isOnline m then Some m
  else
    match shift_while_full fuel (maxQueueSize m) (offlineQueue m) with
    | None => None
    | Some q =>
        Some (with_queue m
                (q ++ [{| key := key; data := d; timestamp := now |}]))
    end.

(** The [for] loop of [processOfflineQueue]. [proc item] is how
    [processQueuedUpdate(item)] settles ([true]: resolves); [clock i] is
    [Date.now()] in iteration [i]. The result lists the items whose
    replay resolved and tells whether the loop ran to its end ([false]: a
    replay rejected and the loop was left). *)
Fixpoint replay (proc : Item -> bool) (clock : nat -> Z) (i : nat)
    (queue : list Item) : list Item * bool :=
  match queue with
  | [] => ([], true)
  | item :: rest =>
      if clock i - timestamp item >? 3600000
      then replay proc clock (S i) rest
      else if proc item
           then let (done, ok) := replay proc clock (S i) rest in
                (item :: done, ok)
           else ([], false)
  end.

(** [processOfflineQueue]. [meanwhile] is what other event handlers did to
    the manager while the replays were awaited. Returns the manager and
    the items replayed with success. *)
Definition processOfflineQueue (proc : Item -> bool) (clock : nat -> Z)
    (meanwhile : OfflineManager -> OfflineManager) (m : OfflineManager)
  : OfflineManager * list Item :=
  if (length (offlineQueue m) =? 0)%nat then (m, [])
  else
    let queue := offlineQueue m in
    let m1 := meanwhile (with_queue m []) in
    let (done, ok) := replay proc clock 0 queue in
    if ok then (m1, done)
    else (with_queue m1 (queue ++ offlineQueue m1), done).

(** The [online] and [offline] listeners. *)
Definition on_online (proc : Item -> bool) (clock : nat -> Z)
    (meanwhile : OfflineManager -> OfflineManager) (m : OfflineManager)
  : OfflineManager * list Item :=
  processOfflineQueue proc clock meanwhile
    {| isOnline := true; offlineQueue := offlineQueue m;
       maxQueueSize := maxQueueSize m |}.

Definition on_offline (m : OfflineManager) : OfflineManager :=
  {| isOnline := false; offlineQueue := offlineQueue m;
     maxQueueSize := maxQueueSize m |}.


Definition isOffline (m : OfflineManager) : bool := negb (isOnline m).

(** A run of [queueUpdate] calls, each with its clock reading. *)
Definition queue_all (fuel : nat) (calls : list Item) (m : OfflineManager)
  : option OfflineManager :=
  fold_left
    (fun acc c =>
       match acc with
       | Some m' => queueUpdate fuel (timestamp c) (key c) (data c) m'
       | None => None
       end)
    calls (Some m).

End WithPayload.
Arguments Item : clear implicits.
Arguments OfflineManager : clear implicits.
End Offline.

(** ** Sequences of DataCache calls *)

Module CacheOps.

Inductive Op (T : Type) : Type :=
| OpSet (now : Z) (key : string) (d : T) (ttl : Z)
| OpGet (now : Z) (key : string)
| OpClear.
Arguments OpSet {T}.
Arguments OpGet {T}.
Arguments OpClear {T}.

Definition step {T : Type} (c : DataCache.t T) (op : Op T) : DataCache.t T :=
  match op with
  | OpSet now key d ttl => DataCache.set now key d ttl c
  | OpGet now key => snd (DataCache.get now key c)
  | OpClear => DataCache.clear c
  end.

Definition run {T : Type} (ops : list (Op T)) (c : DataCache.t T)
  : DataCache.t T :=
  fold_left step ops c.

End CacheOps.

(** ** ProgressiveLoader *)

Module Loader.

(** [`page_${page}`] for an integral page number below 10^21 in absolute
    value, which a template string prints in plain decimal. *)
Definition page_key (page : Z) : string :=
  String.append "page_" (DecimalString.NilZero.string_of_int (Z.to_int page)).

Record ProgressiveLoader (T : Type) : Type := mk {
  pageSize : Z;
  cache : DataCache.t (list T)
}.
Arguments mk {T}.
Arguments pageSize {T}.
Arguments cache {T}.

Definition default_pageSize : Z := 10.

Definition new {T : Type} (pageSize : Z) : ProgressiveLoader T :=
  {| pageSize := pageSize; cache := DataCache.new DataCache.default_maxSize |}.

(** [quality === "poor" ? Math.max(3, Math.floor(pageSize / 2)) : pageSize] *)
Definition adjustedPageSize (pageSize : Z)
    (networkQuality : Network.ConnectionQuality) : Z :=
  if Network.is_poor networkQuality then Z.max 3 (pageSize / 2) else pageSize.

(** [quality === "poor" ? 600000 : 300000] *)
Definition page_ttl (networkQuality : Network.ConnectionQuality) : Z :=
  if Network.is_poor networkQuality then 600000 else 300000.

(** What one [loadPage] did: how it settled, the [(offset, limit)] pairs
    passed to [loadFn], and the loader afterwards. *)
Record Loaded (T E : Type) : Type := mkLoaded {
  result : Retry.Settled (list T) E;
  requests : list (Z * Z);
  loader : ProgressiveLoader T
}.
Arguments mkLoaded {T E}.
Arguments result {T E}.
Arguments requests {T E}.
Arguments loader {T E}.

(** [now_get] is the clock when the cache is read, [now_set] the clock when
    the loaded page is stored; no other call on the loader runs while the
    load is awaited. An array, even an empty one, is truthy. *)
Definition loadPage {T E : Type} (loadFn : Z -> Z -> Retry.Settled (list T) E)
    (now_get now_set : Z) (page : Z)
    (networkQuality : Network.ConnectionQuality) (l : ProgressiveLoader T)
  : Loaded T E :=
  let cacheKey := page_key page in
  match DataCache.get now_get cacheKey (cache l) with
  | (Some cached, c1) =>
      {| result := Retry.Resolved cached; requests := [];
         loader := {| pageSize := pageSize l; cache := c1 |} |}
  | (None, c1) =>
      let adjusted := adjustedPageSize (pageSize l) networkQuality in
      let offset := page * adjusted in
      match loadFn offset adjusted with
      | Retry.Resolved data =>
          let ttl := page_ttl networkQuality in
          {| result := Retry.Resolved data; requests := [(offset, adjusted)];
             loader := {| pageSize := pageSize l;
                          cache := DataCache.set now_set cacheKey data ttl c1 |}
          |}
      | Retry.Rejected e =>
          {| result := Retry.Rejected e; requests := [(offset, adjusted)];
             loader := {| pageSize := pageSize l; cache := c1 |} |}
      end
  end.

Definition clearCache {T : Type} (l : ProgressiveLoader T)
  : ProgressiveLoader T :=
  {| pageSize := pageSize l; cache := DataCache.clear (cache l) |}.

End Loader.

(** ** SmartPrefetcher *)

Module Prefetcher.

Record SmartPrefetcher (T : Type) : Type := mk {
  accessPatterns : JsMap.t Z;
  prefetchCache : DataCache.t T
}.
Arguments mk {T}.
Arguments accessPatterns {T}.
Arguments prefetchCache {T}.

Definition new {T : Type} : SmartPrefetcher T :=
  {| accessPatterns := JsMap.empty; prefetchCache := DataCache.new 50 |}.

(** [accessPatterns.get(resource) || 0] *)
Definition access_count (resource : string) (patterns : JsMap.t Z) : Z :=
  match JsMap.get resource patterns with
  | Some n => if (n =? 0)%Z then 0 else n
  | None => 0
  end.

Definition recordAccess {T : Type} (resource : string) (p : SmartPrefetcher T)
  : SmartPrefetcher T :=
  let count := access_count resource (accessPatterns p) in
  {| accessPatterns := JsMap.set resource (count + 1) (accessPatterns p);
     prefetchCache := prefetchCache p |}.

(** Stored counts are at least 1, so [|| 0] only ever covers a missing key. *)
Definition counts_positive (patterns : JsMap.t Z) : Prop :=
  forall k n, JsMap.get k patterns = Some n -> 1 <= n.

Definition record_all {T : Type} (resources : list string)
    (p : SmartPrefetcher T) : SmartPrefetcher T :=
  fold_left (fun acc r => recordAccess r acc) resources p.

(** [entries.sort(([, a], [, b]) => b - a)]: the sort is stable, so the
    result is the one ordering by descending count that keeps entries of
    equal count in their original order. *)
Fixpoint insert_by_count (e : string * Z) (sorted : list (string * Z))
  : list (string * Z) :=
  match sorted with
  | [] => [e]
  | y :: rest =>
      if snd e <? snd y then y :: insert_by_count e rest else e :: y :: rest
  end.

Definition sort_by_count (entries : list (string * Z)) : list (string * Z) :=
  fold_right insert_by_count [] entries.

(** [a] is ranked no lower than [b]. *)
Definition count_ge (a b : string * Z) : Prop := snd b <= snd a.

(** The resources of [sortedResources]: the top 5 by access count. *)
Definition candidates (patterns : JsMap.t Z) : list string :=
  map fst (firstn 5 (sort_by_count patterns)).

(** The [for] loop over the candidates. [truthy] tells whether a cached
    value is truthy; [loadFn resource] is how the load of [resource]
    settles; [clock_get i] and [clock_set i] are the clock readings of the
    cache read and of the cache write in iteration [i]; no other call on
    the prefetcher runs while a load is awaited. Returns the resources
    passed to [loadFn], in order, and the cache afterwards. *)
Fixpoint prefetch_loop {T E : Type} (truthy : T -> bool)
    (loadFn : string -> Retry.Settled T E) (clock_get clock_set : nat -> Z)
    (i : nat) (resources : list string) (c : DataCache.t T)
  : list string * DataCache.t T :=
  match resources with
  | [] => ([], c)
  | resource :: rest =>
      let (cached, c1) := DataCache.get (clock_get i) resource c in
      if match cached with Some v => truthy v | None => false end
      then prefetch_loop truthy loadFn clock_get clock_set (S i) rest c1
      else
        let c2 :=
          match loadFn resource with
          | Retry.Resolved d =>
              DataCache.set (clock_set i) resource d DataCache.default_ttl c1
          | Retry.Rejected _ => c1
          end in
        let (loads, c') :=
          prefetch_loop truthy loadFn clock_get clock_set (S i) rest c2 in
        (resource :: loads, c')
  end.

Definition prefetchLikelyResources {T E : Type} (truthy : T -> bool)
    (loadFn : string -> Retry.Settled T E) (clock_get clock_set : nat -> Z)
    (networkQuality : Network.ConnectionQuality) (p : SmartPrefetcher T)
  : list string * SmartPrefetcher T :=
  if Network.is_poor networkQuality then ([], p)
  else
    let (loads, c') :=
      prefetch_loop truthy loadFn clock_get clock_set 0
                    (candidates (accessPatterns p)) (prefetchCache p) in
    (loads, {| accessPatterns := accessPatterns p; prefetchCache := c' |}).

Definition getPrefetched {T : Type} (now : Z) (resource : string)
    (p : SmartPrefetcher T) : option T * SmartPrefetcher T :=
  let (v, c') := DataCache.get now resource (prefetchCache p) in
  (v, {| accessPatterns := accessPatterns p; prefetchCache := c' |}).

Definition clearPrefetchCache {T : Type} (p : SmartPrefetcher T)
  : SmartPrefetcher T :=
  {| accessPatterns := accessPatterns p;
     prefetchCache := DataCache.clear (prefetchCache p) |}.

End Prefetcher.

(** ** Sequences of BatchUpdateManager events, each sink call settling at once *)

Module BatchOps.
Section WithPayload.
Context {D : Type}.

Inductive Op : Type :=
| Add (key : string) (d : D)
| Fire (h : Batch.handle)
| Flush.

Definition step (sink : list (string * D) -> bool) (w : Batch.World D)
    (op : Op) : Batch.World D :=
  match op with
  | Add key d => Batch.addUpdate key d w
  | Fire h => Batch.fire sink h w
  | Flush => Batch.flush sink w
  end.

Definition run (sink : list (string * D) -> bool) (ops : list Op)
    (w : Batch.World D) : Batch.World D :=
  fold_left (step sink) ops w.

(** The payload of the most recent [addUpdate] for [key] among [ops]. *)
Fixpoint last_added (key : string) (ops : list Op) (seen : option D)
  : option D :=
  match ops with
  | [] => seen
  | Add k d :: rest =>
      last_added key rest (if String.eqb key k then Some d else seen)
  | _ :: rest => last_added key rest seen
  end.

(** One timer at most, it is the one the manager remembers, and it is only
    armed while something is pending. *)
Definition timer_invariant (w : Batch.World D) : Prop :=
  JsMap.wf (Batch.pendingUpdates (Batch.mgr w))
  /\ (Batch.timers w = []
      \/ exists h, Batch.timers w = [h]
                   /\ Batch.batchTimeout (Batch.mgr w) = Some h
                   /\ Batch.pendingUpdates (Batch.mgr w) <> []).

End WithPayload.
Arguments Op : clear implicits.
End BatchOps.

(** ** BatchUpdateManager events interleaved with the settling of the sink *)

Module BatchAsync.
Section WithPayload.
Context {D : Type}.

(** The manager in its runtime, the batches handed to the sink whose
    promise has not settled yet (oldest first), and the batches for which
    the sink resolved. *)
Record State : Type := mkState {
  world : Batch.World D;
  in_flight : list (list (string * D));
  accepted : list (list (string * D))
}.

Definition new (batchDelay : Z) : State :=
  {| world := Batch.new batchDelay; in_flight := []; accepted := [] |}.

(** [Settle i ok]: the promise of the [i]-th batch in flight settles,
    resolved ([true]) or rejected ([false]). *)
Inductive Event : Type :=
| Add (key : string) (d : D)
| Fire (h : Batch.handle)
| Flush
| Settle (i : nat) (ok : bool).

Definition started (s : State) (r : option (list (string * D)) * Batch.World D)
  : State :=
  match r with
  | (Some updates, w) =>
      {| world := w; in_flight := in_flight s ++ [updates];
         accepted := accepted s |}
  | (None, w) =>
      {| world := w; in_flight := in_flight s; accepted := accepted s |}
  end.

Definition remove_nth {A : Type} (i : nat) (l : list A) : list A :=
  firstn i l ++ skipn (S i) l.

Definition step (s : State) (e : Event) : State :=
  match e with
  | Add key d =>
      {| world := Batch.addUpdate key d (world s);
         in_flight := in_flight s; accepted := accepted s |}
  | Fire h => started s (Batch.fire_begin h (world s))
  | Flush => started s (Batch.flush_begin (world s))
  | Settle i ok =>
      match nth_error (in_flight s) i with
      | None => s
      | Some updates =>
          if ok
          then {| world := world s;
                  in_flight := remove_nth i (in_flight s);
                  accepted := accepted s ++ [updates] |}
          else {| world := Batch.processBatch_catch updates (world s);
                  in_flight := remove_nth i (in_flight s);
                  accepted := accepted s |}
      end
  end.

Definition run (events : list Event) (s : State) : State :=
  fold_left step events s.

Definition pending (s : State) : JsMap.t D :=
  Batch.pendingUpdates (Batch.mgr (world s)).

(** [key] is held with payload [d]: pending, in a batch in flight, or in a
    batch that the sink accepted. *)
Definition holds (s : State) (key : string) (d : D) : Prop :=
  JsMap.get key (pending s) = Some d
  \/ (exists batch, In batch (in_flight s) /\ JsMap.get key batch = Some d)
  \/ (exists batch, In batch (accepted s) /\ JsMap.get key batch = Some d).

(** The pending map and the batches in flight have no duplicate key. *)
Definition well_formed (s : State) : Prop :=
  JsMap.wf (pending s) /\ Forall JsMap.wf (in_flight s).

End WithPayload.
Arguments State : clear implicits.
Arguments Event : clear implicits.
End BatchAsync.

(** ** compressAdminData and decompressAdminData *)

Module AdminCodec.

(** JSON-like JS values. An object is the list of its own properties in
    property order; that is the order of insertion as long as no key is an
    array index, and [obj[key] = v] adds or overwrites an own property as
    long as the key is not [__proto__]. *)
#[warnings="-register-all"]
Inductive value : Type :=
| VUndefined
| VNull
| VBool (b : bool)
| VNum (q : Q)
| VStr (s : string)
| VArr (items : list value)
| VObj (fields : list (string * value)).

(** [!data] is true for [undefined], [null], [false], [0] and [""]. *)
Definition truthy (v : value) : bool :=
  match v with
  | VUndefined | VNull => false
  | VBool b => b
  | VNum q => negb (Qeq_bool q 0)
  | VStr s => negb (String.eqb s "")
  | VArr _ | VObj _ => true
  end.

(** [value != null] *)
Definition not_nullish (v : value) : bool :=
  match v with
  | VUndefined | VNull => false
  | _ => true
  end.

Definition fieldMappings : list (string * string) :=
  [("busNumber", "bn"); ("capacity", "cap"); ("model", "mdl"); ("year", "yr");
   ("status", "sts"); ("routeName", "rn"); ("startPoint", "sp");
   ("endPoint", "ep"); ("distance", "dst"); ("estimatedTime", "et");
   ("fare", "fr"); ("operatingHours", "oh"); ("stops", "stp");
   ("latitude", "lat"); ("longitude", "lon"); ("createdAt", "ca");
   ("updatedAt", "ua"); ("lastMaintenance", "lm"); ("nextMaintenance", "nm")].

Definition reverseMappings : list (string * string) :=
  [("bn", "busNumber"); ("cap", "capacity"); ("mdl", "model"); ("yr", "year");
   ("sts", "status"); ("rn", "routeName"); ("sp", "startPoint");
   ("ep", "endPoint"); ("dst", "distance"); ("et", "estimatedTime");
   ("fr", "fare"); ("oh", "operatingHours"); ("stp", "stops");
   ("lat", "latitude"); ("lon", "longitude"); ("ca", "createdAt");
   ("ua", "updatedAt"); ("lm", "lastMaintenance"); ("nm", "nextMaintenance")].

(** Names every object literal inherits from [Object.prototype]: looking
    one of them up in a mapping table yields a function or an object, not
    an alias. *)
Definition inherited_names : list string :=
  ["constructor"; "toString"; "toLocaleString"; "valueOf"; "hasOwnProperty";
   "isPrototypeOf"; "propertyIsEnumerable"; "__proto__"; "__defineGetter__";
   "__defineSetter__"; "__lookupGetter__"; "__lookupSetter__"].

Definition is_digit (c : Ascii.ascii) : bool :=
  let n := Ascii.nat_of_ascii c in ((48 <=? n) && (n <=? 57))%nat.

Fixpoint all_digits (s : string) : bool :=
  match s with
  | EmptyString => true
  | String c rest => is_digit c && all_digits rest
  end.

(** Keys for which the model of objects and of the table lookups is
    exact: not made of digits only (so not an array index) and not
    inherited from [Object.prototype]. *)
Definition ordinary_key (key : string) : bool :=
  negb (all_digits key) && negb (existsb (String.eqb key) inherited_names).

(** [table[key]] for an ordinary key: the own property, if any. *)
Definition table_get (key : string) (table : list (string * string))
  : option string :=
  JsMap.get key table.

(** [fieldMappings[key] || key] *)
Definition compressedKey (key : string) : string :=
  match table_get key fieldMappings with
  | Some short => short
  | None => key
  end.

Definition originalKey (key : string) : string :=
  match table_get key reverseMappings with
  | Some long => long
  | None => key
  end.

(** [Math.round(value * 100) / 100] in exact arithmetic: the value stored
    when neither the product nor the quotient is rounded by the runtime,
    as for amounts with at most two decimals. *)
Definition round_cents (q : Q) : Q :=
  inject_Z (Codec.Math_round (q * 100)) / 100.

(** [value.substring(0, 50) + "..."]. A string is the sequence of its
    code units, each below 256; for ASCII text these are its characters. *)
Definition truncate_text (s : string) : string :=
  String.append (String.substring 0 50 s) "...".

(** Text in which every character takes one code unit below 128. *)
Definition is_ascii (s : string) : bool :=
  forallb (fun c => (nat_of_ascii c <? 128)%nat) (list_ascii_of_string s).

Section Fields.
Variable rec : value -> value.

(** The body of the [for] loop of [compressAdminData]. *)
Definition compress_entry (key : string) (v : value)
    (compressed : JsMap.t value) : JsMap.t value :=
  if not_nullish v then
    match v with
    | VStr s =>
        if (50 <? String.length s)%nat
        then JsMap.set (compressedKey key) (VStr (truncate_text s)) compressed
        else JsMap.set (compressedKey key) (rec v) compressed
    | VNum q => JsMap.set (compressedKey key) (VNum (round_cents q)) compressed
    | _ => JsMap.set (compressedKey key) (rec v) compressed
    end
  else compressed.

Fixpoint compress_fields (fields : list (string * value))
    (compressed : JsMap.t value) : JsMap.t value :=
  match fields with
  | [] => compressed
  | (key, v) :: rest => compress_fields rest (compress_entry key v compressed)
  end.

Fixpoint decompress_fields (fields : list (string * value))
    (decompressed : JsMap.t value) : JsMap.t value :=
  match fields with
  | [] => decompressed
  | (key, v) :: rest =>
      decompress_fields rest (JsMap.set (originalKey key) (rec v) decompressed)
  end.

End Fields.

Fixpoint compressAdminData (data : value) : value :=
  if negb (truthy data) then VNull
  else
    match data with
    | VArr items => VArr (map compressAdminData items)
    | VObj fields => VObj (compress_fields compressAdminData fields [])
    | _ => data
    end.

Fixpoint decompressAdminData (compressedData : value) : value :=
  if negb (truthy compressedData) then VNull
  else
    match compressedData with
    | VArr items => VArr (map decompressAdminData items)
    | VObj fields => VObj (decompress_fields decompressAdminData fields [])
    | _ => compressedData
    end.




(** Induction over values that reaches into arrays and objects. *)
Section ValueInd.
Variable P : value -> Prop.
Hypothesis Hundefined : P VUndefined.
Hypothesis Hnull : P VNull.
Hypothesis Hbool : forall b, P (VBool b).
Hypothesis Hnum : forall q, P (VNum q).
Hypothesis Hstr : forall s, P (VStr s).
Hypothesis Harr : forall items, Forall P items -> P (VArr items).
Hypothesis Hobj :
  forall fields, Forall (fun e => P (snd e)) fields -> P (VObj fields).


End ValueInd.

End AdminCodec.

(** ** createNetworkMonitor *)

Module Monitor.

(** The browser side: the current [navigator.connection] ([None] when the
    API is missing), the "change" listeners registered on it (one id per
    [handleChange] closure), and the log of callback invocations, each with
    the id of the listener whose callback ran. *)
Record Runtime : Type := mkRuntime {
  connection : option Network.Connection;
  listeners : list nat;
  next_id : nat;
  calls : list (nat * Network.NetworkInfo)
}.

(** Returns the cleanup function, [None] for the no-op cleanup, and the
    runtime after registration and the initial call. *)
Definition createNetworkMonitor (rt : Runtime) : option nat * Runtime :=
  match connection rt with
  | None => (None, rt)
  | Some c =>
      let id := next_id rt in
      (Some id,
       {| connection := connection rt;
          listeners := listeners rt ++ [id];
          next_id := S id;
          calls := calls rt ++ [(id, Network.getNetworkInfo (connection rt))]
       |})
  end.

(** Calling the cleanup function: [removeEventListener]. *)
Definition cleanup (handle : option nat) (rt : Runtime) : Runtime :=
  match handle with
  | None => rt
  | Some id =>
      {| connection := connection rt;
         listeners := List.remove Nat.eq_dec id (listeners rt);
         next_id := next_id rt;
         calls := calls rt |}
  end.

(** The connection changes to the readings [c] and the browser dispatches
    "change": every registered [handleChange] runs. *)
Definition change (c : Network.Connection) (rt : Runtime) : Runtime :=
  match connection rt with
  | None => rt
  | Some _ =>
      {| connection := Some c;
         listeners := listeners rt;
         next_id := next_id rt;
         calls := calls rt
                  ++ map (fun id => (id, Network.getNetworkInfo (Some c)))
                         (listeners rt) |}
  end.

Definition changes (cs : list Network.Connection) (rt : Runtime) : Runtime :=
  fold_left (fun acc c => change c acc) cs rt.

(** Listener ids are handed out in increasing order: the listeners are
    distinct and every id in use is below [next_id]. *)
Definition wf (rt : Runtime) : Prop :=
  NoDup (listeners rt)
  /\ (forall i, In i (listeners rt) -> (i < next_id rt)%nat)
  /\ (forall e, In e (calls rt) -> (fst e < next_id rt)%nat).

Definition fresh (c : option Network.Connection) : Runtime :=
  {| connection := c; listeners := []; next_id := 0; calls := [] |}.

(** The infos a given listener's callback received, in order. *)
Definition received (id : nat) (rt : Runtime) : list Network.NetworkInfo :=
  map snd (filter (fun e => Nat.eqb (fst e) id) (calls rt)).

End Monitor.

(** ** AdminLazyLoader: the delay before the children are loaded *)

Module LazyLoader.

Inductive Priority : Type := high | medium | low.

(** The delay of the timer set by the effect; [None] when the component is
    not network aware and loads at once without a timer. *)
Definition load_delay (networkAware : bool)
    (quality : Network.ConnectionQuality) (priority : Priority) : option Z :=
  if negb networkAware then None
  else
    Some match quality with
         | Network.poor =>
             match priority with high => 100 | medium => 500 | low => 1000 end
         | Network.good =>
             match priority with high => 0 | medium => 100 | low => 300 end
         | Network.excellent => 0
         end.

(** Ranks used to compare qualities and priorities. *)
Definition quality_rank (q : Network.ConnectionQuality) : Z :=
  match q with Network.poor => 0 | Network.good => 1 | Network.excellent => 2 end.

Definition priority_rank (p : Priority) : Z :=
  match p with high => 0 | medium => 1 | low => 2 end.

End LazyLoader.

(* ===================================================================== *)
(** * Part II: properties                                                 *)
(* ===================================================================== *)

(** ** Facts about [JsMap] *)

Section JsMapFacts.
Context {V : Type}.
Implicit Types (m : JsMap.t V) (k : string) (v : V).

Lemma jsmap_get_set_same k v m : JsMap.get k (JsMap.set k v m) = Some v.
Proof.
  induction m as [|[k' v'] rest IH]; simpl.
  - now rewrite String.eqb_refl.
  - destruct (String.eqb k k') eqn:E; simpl.
    + now rewrite String.eqb_refl.
    + now rewrite E.
Qed.

Lemma jsmap_get_set_other k k' v m :
  k <> k' -> JsMap.get k' (JsMap.set k v m) = JsMap.get k' m.
Proof.
  intros Hne. induction m as [|[k0 v0] rest IH]; simpl.
  - destruct (String.eqb k' k) eqn:E; auto.
    apply String.eqb_eq in E. congruence.
  - destruct (String.eqb k k0) eqn:E; simpl.
    + apply String.eqb_eq in E. subst k0.
      destruct (String.eqb k' k) eqn:E'; auto.
      apply String.eqb_eq in E'. congruence.
    + destruct (String.eqb k' k0); auto.
Qed.

Lemma jsmap_get_none_notin k m :
  JsMap.get k m = None <-> ~ In k (JsMap.keys m).
Proof.
  induction m as [|[k' v'] rest IH]; simpl.
  - tauto.
  - destruct (String.eqb k k') eqn:E.
    + apply String.eqb_eq in E. subst. split; [discriminate | tauto].
    + apply String.eqb_neq in E. rewrite IH. split.
      * intros H [H1 | H1]; [congruence | tauto].
      * tauto.
Qed.

Lemma jsmap_keys_delete k m :
  JsMap.keys (JsMap.delete k m)
  = filter (fun k' => negb (String.eqb k k')) (JsMap.keys m).
Proof.
  unfold JsMap.keys, JsMap.delete.
  induction m as [|[k' v'] rest IH]; simpl; auto.
  destruct (String.eqb k k'); simpl; now rewrite IH.
Qed.

Lemma jsmap_get_delete_same k m : JsMap.get k (JsMap.delete k m) = None.
Proof.
  apply jsmap_get_none_notin. rewrite jsmap_keys_delete.
  intros H. apply filter_In in H. destruct H as [_ H].
  now rewrite String.eqb_refl in H.
Qed.

Lemma jsmap_get_delete_other k k' m :
  k <> k' -> JsMap.get k' (JsMap.delete k m) = JsMap.get k' m.
Proof.
  intros Hne. unfold JsMap.delete.
  induction m as [|[k0 v0] rest IH]; simpl; auto.
  destruct (String.eqb k k0) eqn:E; simpl.
  - apply String.eqb_eq in E. subst k0.
    destruct (String.eqb k' k) eqn:E'; auto.
    apply String.eqb_eq in E'. congruence.
  - rewrite IH. reflexivity.
Qed.

Lemma filter_notin_id (l : list string) k :
  ~ In k l -> filter (fun k' => negb (String.eqb k k')) l = l.
Proof.
  induction l as [|a l IH]; simpl; auto.
  intros H. destruct (String.eqb k a) eqn:E.
  - apply String.eqb_eq in E. subst. tauto.
  - simpl. f_equal. tauto.
Qed.

(** Deleting the first key of a well-formed map drops the head entry. *)
Lemma jsmap_delete_head k v m :
  JsMap.wf ((k, v) :: m) -> JsMap.delete k ((k, v) :: m) = m.
Proof.
  unfold JsMap.wf, JsMap.delete. simpl. intros H.
  rewrite String.eqb_refl. simpl.
  inversion H as [|? ? Hnotin _]; subst.
  clear H. induction m as [|[k' v'] rest IH]; simpl in *; auto.
  destruct (String.eqb k k') eqn:E.
  - apply String.eqb_eq in E. subst. tauto.
  - simpl. f_equal. tauto.
Qed.

Lemma jsmap_keys_set_new k v m :
  ~ In k (JsMap.keys m) -> JsMap.keys (JsMap.set k v m) = JsMap.keys m ++ [k].
Proof.
  induction m as [|[k' v'] rest IH]; simpl; auto.
  intros H. destruct (String.eqb k k') eqn:E.
  - apply String.eqb_eq in E. subst. tauto.
  - simpl. f_equal. tauto.
Qed.

Lemma jsmap_keys_set_old k v m :
  In k (JsMap.keys m) -> JsMap.keys (JsMap.set k v m) = JsMap.keys m.
Proof.
  induction m as [|[k' v'] rest IH]; simpl; [tauto|].
  intros H. destruct (String.eqb k k') eqn:E; simpl.
  - apply String.eqb_eq in E. now subst.
  - apply String.eqb_neq in E. f_equal. apply IH.
    destruct H; [congruence | assumption].
Qed.

Lemma jsmap_size_keys m : JsMap.size m = length (JsMap.keys m).
Proof. unfold JsMap.size, JsMap.keys. now rewrite length_map. Qed.

Lemma jsmap_wf_set k v m : JsMap.wf m -> JsMap.wf (JsMap.set k v m).
Proof.
  unfold JsMap.wf. intros H.
  destruct (in_dec string_dec k (JsMap.keys m)) as [Hin | Hnin].
  - now rewrite jsmap_keys_set_old.
  - rewrite jsmap_keys_set_new by assumption.
    apply NoDup_app; auto.
    + constructor; [tauto | constructor].
    + intros x Hx [Hk | []]. subst. tauto.
Qed.

Lemma jsmap_wf_delete k m : JsMap.wf m -> JsMap.wf (JsMap.delete k m).
Proof.
  unfold JsMap.wf. rewrite jsmap_keys_delete. apply NoDup_filter.
Qed.

End JsMapFacts.

(** ** Facts about lists used for the insertion-order arguments *)

Section ListFacts.
Context {A : Type}.

Lemma tl_skipn (n : nat) (l : list A) : tl (skipn n l) = skipn (S n) l.
Proof.
  revert l. induction n as [|n IH]; intros [|a l]; simpl; auto.
Qed.

Lemma in_skipn_in (n : nat) (l : list A) (x : A) :
  In x (skipn n l) -> In x l.
Proof.
  intros H. rewrite <- (firstn_skipn n l). apply in_or_app. now right.
Qed.

Lemma nodup_skipn (n : nat) (l : list A) : NoDup l -> NoDup (skipn n l).
Proof.
  intros H. rewrite <- (firstn_skipn n l) in H.
  now apply NoDup_app_remove_l in H.
Qed.

Lemma nodup_firstn_not_skipn (n : nat) (l : list A) (x : A) :
  NoDup l -> In x (firstn n l) -> ~ In x (skipn n l).
Proof.
  intros H Hin Hin'. rewrite <- (firstn_skipn n l) in H.
  revert H Hin Hin'. generalize (firstn n l) (skipn n l).
  intros l1 l2. induction l1 as [|a l1 IH]; simpl; [tauto|].
  intros H [-> | Hin] Hin'.
  - inversion H as [|? ? Hn _]; subst. apply Hn, in_or_app. now right.
  - inversion H; subst. now apply IH.
Qed.

Lemma skipn_snoc (n : nat) (l : list A) (x : A) :
  (n <= length l)%nat -> skipn n (l ++ [x]) = skipn n l ++ [x].
Proof.
  intros H. rewrite skipn_app.
  replace (n - length l)%nat with 0%nat by lia. reflexivity.
Qed.

End ListFacts.

(** ** DataCache: insertion-order eviction *)

Section CacheFacts.
Context {T : Type}.
Implicit Types (c : DataCache.t T) (calls : list (DataCache.SetCall T)).

Lemma set_all_snoc calls s c :
  DataCache.set_all (calls ++ [s]) c
  = DataCache.apply_call (DataCache.set_all calls c) s.
Proof. unfold DataCache.set_all. now rewrite fold_left_app. Qed.

Lemma set_maxSize now key d ttl c :
  DataCache.maxSize (DataCache.set now key d ttl c) = DataCache.maxSize c.
Proof. reflexivity. Qed.

Lemma set_all_maxSize calls c :
  DataCache.maxSize (DataCache.set_all calls c) = DataCache.maxSize c.
Proof.
  unfold DataCache.set_all. revert c.
  induction calls as [|s calls IH]; intros c; simpl; auto.
  now rewrite IH.
Qed.

(** With a capacity of at least one, a fresh cache fed distinct keys holds
    exactly the most recent [cap] of them, oldest first. *)
Lemma set_all_keys (cap : Z) calls :
  1 <= cap ->
  NoDup (map DataCache.call_key calls) ->
  JsMap.keys (DataCache.cache (DataCache.set_all calls (DataCache.new cap)))
  = skipn (length calls - Z.to_nat cap) (map DataCache.call_key calls).
Proof.
  intros Hcap. induction calls as [|s calls IH] using rev_ind; intros Hnd.
  - reflexivity.
  - rewrite map_app in Hnd. simpl in Hnd.
    assert (Hnd' := NoDup_remove_1 _ _ _ Hnd).
    assert (Hnew := NoDup_remove_2 _ _ _ Hnd).
    rewrite app_nil_r in Hnd', Hnew.
    specialize (IH Hnd').
    rewrite set_all_snoc, map_app, length_app. simpl.
    set (st := DataCache.set_all calls (DataCache.new cap)) in *.
    set (ks := map DataCache.call_key calls) in *.
    assert (Hlen : length ks = length calls) by (unfold ks; apply length_map).
    assert (Hmax : DataCache.maxSize st = cap)
      by (unfold st; now rewrite set_all_maxSize).
    assert (Hwf : JsMap.wf (DataCache.cache st))
      by (unfold JsMap.wf; rewrite IH; now apply nodup_skipn).
    unfold DataCache.apply_call, DataCache.set. cbn [DataCache.cache].
    rewrite Hmax, jsmap_size_keys, IH, length_skipn, Hlen.
    destruct (Z.geb_spec
                (Z.of_nat (length calls - (length calls - Z.to_nat cap))) cap)
      as [Hfull | Hroom].
    + (* at capacity: the head entry goes, the new key is appended *)
      destruct (DataCache.cache st) as [|[k0 e0] rest] eqn:Hc.
      { simpl in IH. symmetry in IH. apply (f_equal (@length _)) in IH.
        rewrite length_skipn, Hlen in IH. simpl in IH. lia. }
      unfold DataCache.evict_oldest. cbn [JsMap.first_key].
      rewrite (jsmap_delete_head k0 e0 rest Hwf).
      assert (Hrest : JsMap.keys rest
                      = skipn (S (length calls - Z.to_nat cap)) ks).
      { rewrite <- tl_skipn, <- IH. reflexivity. }
      rewrite jsmap_keys_set_new.
      * rewrite Hrest, skipn_snoc by lia. f_equal. f_equal. lia.
      * rewrite Hrest. intros Hin. apply in_skipn_in in Hin. tauto.
    + (* room left: nothing is evicted *)
      rewrite jsmap_keys_set_new.
      * rewrite IH, skipn_snoc by lia. f_equal. f_equal. lia.
      * rewrite IH. intros Hin. apply in_skipn_in in Hin. tauto.
Qed.

Lemma set_all_size (cap : Z) calls :
  1 <= cap ->
  NoDup (map DataCache.call_key calls) ->
  DataCache.size (DataCache.set_all calls (DataCache.new cap))
  = Nat.min (length calls) (Z.to_nat cap).
Proof.
  intros Hcap Hnd. unfold DataCache.size.
  rewrite jsmap_size_keys, set_all_keys, length_skipn, length_map by assumption.
  lia.
Qed.

End CacheFacts.

(** C4 (as amended): for every capacity [cap >= 1] and every [k > 0], after
    [cap + k] calls of [set] with distinct keys on a fresh [DataCache] of
    capacity [cap], [size()] is [cap], the cache holds exactly the last
    [cap] keys in insertion order, the [k] oldest-inserted keys are absent,
    and after every prefix of the calls the size is at most [cap]. *)
Theorem cache_capacity_invariant :
  forall (T : Type) (cap : Z) (k : nat) (calls : list (DataCache.SetCall T)),
    1 <= cap ->
    (0 < k)%nat ->
    length calls = (Z.to_nat cap + k)%nat ->
    NoDup (map DataCache.call_key calls) ->
    let final := DataCache.set_all calls (DataCache.new cap) in
    Z.of_nat (DataCache.size final) = cap
    /\ JsMap.keys (DataCache.cache final)
       = skipn k (map DataCache.call_key calls)
    /\ (forall key, In key (firstn k (map DataCache.call_key calls)) ->
                    DataCache.absent key final)
    /\ (forall n, Z.of_nat (DataCache.size
                    (DataCache.set_all (firstn n calls) (DataCache.new cap)))
                  <= cap).
Proof.
  intros T cap k calls Hcap Hk Hlen Hnd final.
  assert (Hkeys : JsMap.keys (DataCache.cache final)
                  = skipn k (map DataCache.call_key calls)).
  { unfold final. rewrite set_all_keys by assumption. f_equal. lia. }
  repeat split.
  - unfold final. rewrite set_all_size by assumption. lia.
  - exact Hkeys.
  - intros key Hin. unfold DataCache.absent.
    apply jsmap_get_none_notin. rewrite Hkeys.
    now apply nodup_firstn_not_skipn.
  - intros n. rewrite set_all_size; [lia | assumption |].
    rewrite <- firstn_map.
    rewrite <- (firstn_skipn n (map DataCache.call_key calls)) in Hnd.
    now apply NoDup_app_remove_r in Hnd.
Qed.

Lemma cache_capacity_invariant_witness :
  let calls := [DataCache.mkCall 10 "bus_1" 1 300000;
                DataCache.mkCall 20 "bus_2" 2 300000;
                DataCache.mkCall 30 "bus_3" 3 300000] in
  let final := DataCache.set_all calls (DataCache.new 2) in
  Z.of_nat (DataCache.size final) = 2
  /\ JsMap.keys (DataCache.cache final) = ["bus_2"; "bus_3"]
  /\ DataCache.absent "bus_1" final.
Proof.
  pose proof (cache_capacity_invariant Z 2 1
    [DataCache.mkCall 10 "bus_1" 1 300000; DataCache.mkCall 20 "bus_2" 2 300000;
     DataCache.mkCall 30 "bus_3" 3 300000]) as H.
  destruct H as (Hs & Hk & Ha & _).
  - lia.
  - lia.
  - reflexivity.
  - repeat constructor; simpl; intuition discriminate.
  - split; [exact Hs | split; [exact Hk | apply Ha; simpl; auto]].
Defined.

(** C4 as stated, at capacity 0: one [set] on a fresh cache of capacity 0
    leaves one entry, so [size()] is 1, not 0, and the only (hence oldest)
    key inserted is present. *)
Lemma cache_capacity_zero_counterexample :
  let calls := [DataCache.mkCall 10 "bus_1" 1 300000] in
  let final := DataCache.set_all calls (DataCache.new 0) in
  ~ (Z.of_nat (DataCache.size final) = 0
     /\ (forall key, In key (firstn 1 (map DataCache.call_key calls)) ->
                     DataCache.absent key final)
     /\ (forall n, Z.of_nat (DataCache.size
                     (DataCache.set_all (firstn n calls) (DataCache.new 0)))
                   <= 0)).
Proof.
  intros calls final [Hsize _]. vm_compute in Hsize. discriminate.
Qed.

(** ** DataCache: lazy expiry on read *)

(** What [set] stores under its key, whatever the capacity. *)
Lemma cache_set_stores {T : Type} (c : DataCache.t T) (now ttl : Z)
    (key : string) (d : T) :
  JsMap.get key (DataCache.cache (DataCache.set now key d ttl c))
  = Some (DataCache.mkEntry d now ttl).
Proof. apply jsmap_get_set_same. Qed.

(** C8: for an entry stored under [key] with timestamp [timestamp e] and
    ttl [ttl e] (by [set] it is the time of the call and the ttl given), a
    [get(key)] at a time [now] with [now - timestamp <= ttl] returns the
    stored value and leaves the cache, hence the entry's timestamp, as it
    was (no sliding expiry); with [now - timestamp > ttl] it returns [null]
    and the entry is deleted. *)
Theorem cache_ttl_expiry :
  forall (T : Type) (c : DataCache.t T) (now : Z) (key : string)
         (e : DataCache.CacheEntry T),
    JsMap.get key (DataCache.cache c) = Some e ->
    (now - DataCache.timestamp e <= DataCache.ttl e ->
       DataCache.get now key c = (Some (DataCache.data e), c))
    /\ (now - DataCache.timestamp e > DataCache.ttl e ->
          fst (DataCache.get now key c) = None
          /\ DataCache.cache (snd (DataCache.get now key c))
             = JsMap.delete key (DataCache.cache c)
          /\ DataCache.absent key (snd (DataCache.get now key c))).
Proof.
  intros T c now key e Hget.
  unfold DataCache.get. rewrite Hget.
  split; intros Hage.
  - destruct (Z.gtb_spec (now - DataCache.timestamp e) (DataCache.ttl e));
      [lia | reflexivity].
  - destruct (Z.gtb_spec (now - DataCache.timestamp e) (DataCache.ttl e));
      [|lia].
    cbn [fst snd DataCache.cache]. unfold DataCache.absent.
    cbn [DataCache.cache].
    repeat split. apply jsmap_get_delete_same.
Qed.

Lemma cache_ttl_expiry_witness :
  let c1 := DataCache.set 1000 "bus_7" 42 100 (DataCache.new 200) in
  DataCache.get 1050 "bus_7" c1 = (Some 42, c1)
  /\ fst (DataCache.get 1150 "bus_7" c1) = None
  /\ DataCache.absent "bus_7" (snd (DataCache.get 1150 "bus_7" c1)).
Proof.
  intros c1.
  pose proof (cache_set_stores (DataCache.new 200) 1000 100 "bus_7" 42)
    as Hstored.
  fold c1 in Hstored.
  split.
  - apply (cache_ttl_expiry Z c1 1050 "bus_7" _ Hstored). simpl. lia.
  - destruct (cache_ttl_expiry Z c1 1150 "bus_7" _ Hstored) as [_ H].
    destruct H as (H1 & _ & H3); [simpl; lia | split; assumption].
Defined.

(** ** DataCache: [set] at capacity evicts before it looks at the key *)

(** C9: on a cache whose size equals its capacity, [set(key, ...)] first
    removes the oldest-inserted entry and then stores [key], also when
    [key] is already present; overwriting a present key other than the
    oldest one therefore leaves the oldest key absent and
    [size() = capacity - 1]. *)
Theorem cache_set_at_capacity_evicts :
  forall (T : Type) (c : DataCache.t T) (now ttl : Z) (key : string) (d : T),
    JsMap.wf (DataCache.cache c) ->
    Z.of_nat (DataCache.size c) = DataCache.maxSize c ->
    let c' := DataCache.set now key d ttl c in
    DataCache.cache c'
    = JsMap.set key (DataCache.mkEntry d now ttl) (tl (DataCache.cache c))
    /\ (forall k0,
          JsMap.first_key (DataCache.cache c) = Some k0 ->
          key <> k0 ->
          DataCache.absent k0 c'
          /\ (JsMap.has key (DataCache.cache c) = true ->
              Z.of_nat (DataCache.size c') = DataCache.maxSize c - 1)).
Proof.
  intros T c now ttl key d Hwf Hfull c'.
  assert (Hc' : DataCache.cache c'
                = JsMap.set key (DataCache.mkEntry d now ttl)
                            (tl (DataCache.cache c))).
  { unfold c', DataCache.set. cbn [DataCache.cache].
    unfold DataCache.size in Hfull. rewrite Hfull.
    destruct (Z.geb_spec (DataCache.maxSize c) (DataCache.maxSize c)); [|lia].
    unfold DataCache.evict_oldest.
    destruct (DataCache.cache c) as [|[k0 e0] rest]; [reflexivity|].
    cbn [JsMap.first_key tl].
    now rewrite (jsmap_delete_head k0 e0 rest Hwf). }
  split; [exact Hc' |].
  intros k0 Hfirst Hne.
  destruct (DataCache.cache c) as [|[k e0] rest] eqn:Hc; [discriminate|].
  simpl in Hfirst. injection Hfirst as ->. cbn [tl] in Hc'.
  assert (Hk0 : ~ In k0 (JsMap.keys rest)).
  { unfold JsMap.wf in Hwf. simpl in Hwf. now inversion Hwf. }
  split.
  - unfold DataCache.absent. rewrite Hc'.
    rewrite jsmap_get_set_other by assumption.
    now apply jsmap_get_none_notin.
  - intros Hhas. unfold DataCache.size. rewrite Hc'.
    rewrite jsmap_size_keys, jsmap_keys_set_old.
    + unfold DataCache.size in Hfull. rewrite Hc in Hfull.
      rewrite <- jsmap_size_keys. unfold JsMap.size in *. simpl in Hfull. lia.
    + unfold JsMap.has in Hhas. simpl in Hhas.
      destruct (String.eqb key k0) eqn:E.
      * apply String.eqb_eq in E. congruence.
      * destruct (JsMap.get key rest) eqn:G; [|discriminate].
        destruct (in_dec string_dec key (JsMap.keys rest)) as [Hin | Hnin];
          [assumption|].
        apply jsmap_get_none_notin in Hnin. congruence.
Qed.

Lemma cache_set_at_capacity_evicts_witness :
  let e := DataCache.mkEntry 7 0 300000 in
  let c := DataCache.mk [("bus_1", e); ("bus_2", e); ("bus_3", e)] 3 in
  let c' := DataCache.set 50 "bus_3" 8 300000 c in
  DataCache.cache c'
  = [("bus_2", e); ("bus_3", DataCache.mkEntry 8 50 300000)]
  /\ DataCache.absent "bus_1" c'
  /\ Z.of_nat (DataCache.size c') = 2.
Proof.
  intros e c c'.
  destruct (cache_set_at_capacity_evicts Z c 50 300000 "bus_3" 8) as [H1 H2].
  - repeat constructor; simpl; intuition discriminate.
  - reflexivity.
  - destruct (H2 "bus_1" eq_refl) as [H3 H4]; [discriminate|].
    split; [exact H1 | split; [exact H3 | apply H4; reflexivity]].
Defined.

(** ** getNetworkInfo: the round-trip-time adjustment *)

Lemma Qltb_lt (x y : Q) : Network.Qltb x y = true <-> (x < y)%Q.
Proof.
  unfold Network.Qltb. rewrite negb_true_iff. split.
  - intros H. apply Qnot_le_lt. intros Hle.
    apply Qle_bool_iff in Hle. congruence.
  - intros H. destruct (Qle_bool y x) eqn:E; auto.
    apply Qle_bool_iff in E. exfalso. exact (Qlt_not_le _ _ H E).
Qed.

Lemma Qltb_ge (x y : Q) : Network.Qltb x y = false <-> (y <= x)%Q.
Proof.
  unfold Network.Qltb. rewrite negb_false_iff. apply Qle_bool_iff.
Qed.

Lemma adjust_by_rtt_high (rtt : Q) (q : Network.ConnectionQuality) :
  (2000 < rtt)%Q -> Network.adjust_by_rtt rtt q = Network.poor.
Proof.
  intros H. unfold Network.adjust_by_rtt.
  apply Qltb_lt in H. now rewrite H.
Qed.

Lemma adjust_by_rtt_mid (rtt : Q) (q : Network.ConnectionQuality) :
  (1000 < rtt)%Q -> (rtt <= 2000)%Q ->
  Network.adjust_by_rtt rtt q
  = if Network.is_poor q then Network.poor else Network.good.
Proof.
  intros Hlo Hhi. unfold Network.adjust_by_rtt.
  apply Qltb_lt in Hlo. apply Qltb_ge in Hhi. rewrite Hlo, Hhi.
  now destruct q.
Qed.

Lemma adjust_by_rtt_low (rtt : Q) (q : Network.ConnectionQuality) :
  (rtt <= 1000)%Q -> Network.adjust_by_rtt rtt q = q.
Proof.
  intros H. unfold Network.adjust_by_rtt.
  assert (H2 : (rtt <= 2000)%Q) by (eapply Qle_trans; [exact H | discriminate]).
  apply Qltb_ge in H, H2. now rewrite H, H2.
Qed.

Lemma number_or_truthy (r d : Q) :
  ~ (r == 0)%Q -> Network.number_or (Some r) d = r.
Proof.
  intros H. unfold Network.number_or.
  destruct (Qeq_bool r 0) eqn:E; auto.
  apply Qeq_bool_iff in E. contradiction.
Qed.

Lemma getNetworkInfo_quality (c : Network.Connection) :
  let info := Network.getNetworkInfo (Some c) in
  Network.quality info
  = Network.adjust_by_rtt (Network.rtt info)
      (snd (Network.base_class (Network.effectiveType info)
                               (Network.downlink info))).
Proof.
  unfold Network.getNetworkInfo.
  destruct (Network.base_class _ _) as [ty qu] eqn:B.
  cbn [Network.quality Network.effectiveType Network.downlink Network.rtt].
  now rewrite B.
Qed.

Lemma getNetworkInfo_rtt (c : Network.Connection) :
  Network.rtt (Network.getNetworkInfo (Some c))
  = Network.number_or (Network.conn_rtt c) 100.
Proof.
  unfold Network.getNetworkInfo.
  now destruct (Network.base_class _ _).
Qed.

(** C7 (as amended): for every connection sample, a reported rtt above 2000
    gives quality [poor] whatever the effective type and downlink are; a
    reported rtt in (1000, 2000] leaves a [poor] class [poor] and turns
    every other class into [good]. *)
Theorem rtt_override :
  forall (c : Network.Connection) (r : Q),
    Network.conn_rtt c = Some r ->
    let info := Network.getNetworkInfo (Some c) in
    let base := snd (Network.base_class (Network.effectiveType info)
                                        (Network.downlink info)) in
    ((2000 < r)%Q -> Network.quality info = Network.poor)
    /\ ((1000 < r)%Q -> (r <= 2000)%Q ->
        Network.quality info
        = if Network.is_poor base then Network.poor else Network.good).
Proof.
  intros c r Hr info base.
  assert (Hrtt : (1000 < r)%Q -> Network.rtt info = r).
  { intros H. unfold info. rewrite getNetworkInfo_rtt, Hr.
    apply number_or_truthy. intros H0. rewrite H0 in H. discriminate H. }
  pose proof (getNetworkInfo_quality c) as Hq. cbv zeta in Hq.
  fold info in Hq. fold base in Hq.
  split.
  - intros H. rewrite Hq, Hrtt.
    + now apply adjust_by_rtt_high.
    + eapply Qlt_trans; [|exact H]. reflexivity.
  - intros Hlo Hhi. rewrite Hq, Hrtt by assumption.
    now apply adjust_by_rtt_mid.
Qed.

Lemma rtt_override_witness :
  Network.quality
    (Network.getNetworkInfo
       (Some (Network.mkConnection (Some "4g") (Some 10%Q) (Some 2500%Q))))
  = Network.poor
  /\ Network.quality
       (Network.getNetworkInfo
          (Some (Network.mkConnection (Some "4g") (Some 10%Q) (Some 1500%Q))))
     = Network.good.
Proof.
  split.
  - apply (rtt_override
             (Network.mkConnection (Some "4g") (Some 10%Q) (Some 2500%Q))
             2500%Q eq_refl).
    reflexivity.
  - apply (rtt_override
             (Network.mkConnection (Some "4g") (Some 10%Q) (Some 1500%Q))
             1500%Q eq_refl).
    + reflexivity.
    + discriminate.
Defined.

(** C7 as stated, at the sample (2g, 10 Mbps, 1500 ms): the class before
    the adjustment is [poor], the rtt lies in (1000, 2000], and the quality
    is not raised to [good]. *)
Lemma rtt_midrange_counterexample :
  let info := Network.getNetworkInfo
      (Some (Network.mkConnection (Some "2g") (Some 10%Q) (Some 1500%Q))) in
  snd (Network.base_class (Network.effectiveType info)
                          (Network.downlink info)) = Network.poor
  /\ (1000 < Network.rtt info)%Q
  /\ (Network.rtt info <= 2000)%Q
  /\ Network.quality info <> Network.good.
Proof.
  cbv zeta. repeat split; try reflexivity; discriminate.
Qed.

(** ** retryWithBackoff *)

Section RetryFacts.
Context {T E : Type}.
Variables (fn : nat -> Retry.Settled T E) (maxRetries baseDelay : Z)
          (jitter : Z -> Z).

(** The loop is total: with the fuel [retryWithBackoff] supplies it
    always settles. *)
Lemma attempt_loop_returns (fuel : nat) :
  forall (attempt : Z) (lastError : option E) (calls : nat)
         (slept : list Z),
    (Z.to_nat (maxRetries + 1 - attempt) <= fuel)%nat ->
    exists run,
      Retry.attempt_loop fuel fn maxRetries baseDelay jitter attempt
                         lastError calls slept = Some run.
Proof.
  induction fuel as [|fuel IH]; intros attempt lastError calls slept Hfuel.
  - simpl. destruct (Z.leb_spec attempt maxRetries); [lia | eauto].
  - simpl. destruct (Z.leb_spec attempt maxRetries); [|eauto].
    destruct (fn calls); [eauto|].
    destruct (Z.eqb_spec attempt maxRetries); [eauto|].
    apply IH. lia.
Qed.

Lemma retryWithBackoff_returns :
  exists run,
    Retry.retryWithBackoff fn maxRetries baseDelay jitter = Some run.
Proof. apply attempt_loop_returns. lia. Qed.

(** Attempts [a .. j-1] reject and attempt [j] resolves. *)
Lemma attempt_loop_success (j : nat) (v : T) :
  (Z.of_nat j <= maxRetries) ->
  fn j = Retry.Resolved v ->
  forall (d a fuel : nat) (lastError : option E) (slept : list Z),
    (a + d = j)%nat ->
    (forall i, (a <= i < j)%nat -> exists e, fn i = Retry.Rejected e) ->
    (d < fuel)%nat ->
    Retry.attempt_loop fuel fn maxRetries baseDelay jitter (Z.of_nat a)
                       lastError a slept
    = Some {| Retry.outcome := Retry.Resolved v;
              Retry.invocations := S j;
              Retry.delays := slept ++ map (Retry.backoff_delay baseDelay jitter) (seq a d) |}.
Proof.
  intros Hj Hv. induction d as [|d IH];
    intros a fuel lastError slept Had Hfail Hfuel.
  - destruct fuel as [|fuel]; [lia|]. simpl.
    replace a with j in * by lia.
    destruct (Z.leb_spec (Z.of_nat j) maxRetries); [|lia].
    rewrite Hv, app_nil_r. reflexivity.
  - destruct fuel as [|fuel]; [lia|]. simpl.
    destruct (Z.leb_spec (Z.of_nat a) maxRetries); [|lia].
    destruct (Hfail a) as [e He]; [lia|]. rewrite He.
    destruct (Z.eqb_spec (Z.of_nat a) maxRetries); [lia|].
    replace (Z.of_nat a + 1) with (Z.of_nat (S a)) by lia.
    rewrite (IH (S a)); try lia.
    + rewrite <- app_assoc. reflexivity.
    + intros i Hi. apply Hfail. lia.
Qed.

(** Every attempt from [a] on rejects. *)
Lemma attempt_loop_all_fail (err : nat -> E) :
  0 <= maxRetries ->
  (forall k, fn k = Retry.Rejected (err k)) ->
  forall (d a fuel : nat) (lastError : option E) (slept : list Z),
    (a + d = Z.to_nat maxRetries)%nat ->
    (d < fuel)%nat ->
    Retry.attempt_loop fuel fn maxRetries baseDelay jitter (Z.of_nat a)
                       lastError a slept
    = Some {| Retry.outcome :=
                Retry.Rejected (Some (err (Z.to_nat maxRetries)));
              Retry.invocations := S (Z.to_nat maxRetries);
              Retry.delays := slept ++ map (Retry.backoff_delay baseDelay jitter) (seq a d) |}.
Proof.
  intros Hmax Hfn. induction d as [|d IH];
    intros a fuel lastError slept Had Hfuel.
  - destruct fuel as [|fuel]; [lia|]. simpl.
    destruct (Z.leb_spec (Z.of_nat a) maxRetries); [|lia].
    rewrite Hfn.
    destruct (Z.eqb_spec (Z.of_nat a) maxRetries); [|lia].
    rewrite app_nil_r. replace a with (Z.to_nat maxRetries) by lia.
    reflexivity.
  - destruct fuel as [|fuel]; [lia|]. simpl.
    destruct (Z.leb_spec (Z.of_nat a) maxRetries); [|lia].
    rewrite Hfn.
    destruct (Z.eqb_spec (Z.of_nat a) maxRetries); [lia|].
    replace (Z.of_nat a + 1) with (Z.of_nat (S a)) by lia.
    rewrite (IH (S a)); try lia.
    rewrite <- app_assoc. reflexivity.
Qed.

End RetryFacts.

(** C6: for [maxRetries >= 0], when every invocation of [fn] rejects,
    [retryWithBackoff] invokes [fn] exactly [maxRetries + 1] times and
    rejects with the error of the last invocation, having slept
    [baseDelay * 2^i + jitter] after each failed attempt [i] but the last;
    when invocation [j <= maxRetries] is the first to resolve, its value is
    the result and [fn] has been invoked [j + 1] times, no more. *)
Theorem retry_attempt_count :
  forall (T E : Type) (fn : nat -> Retry.Settled T E)
         (maxRetries baseDelay : Z) (jitter : Z -> Z),
    0 <= maxRetries ->
    (forall err : nat -> E,
        (forall k, fn k = Retry.Rejected (err k)) ->
        Retry.retryWithBackoff fn maxRetries baseDelay jitter
        = Some {| Retry.outcome :=
                    Retry.Rejected (Some (err (Z.to_nat maxRetries)));
                  Retry.invocations := Z.to_nat (maxRetries + 1);
                  Retry.delays :=
                    map (Retry.backoff_delay baseDelay jitter)
                        (seq 0 (Z.to_nat maxRetries)) |})
    /\ (forall (j : nat) (v : T),
          Z.of_nat j <= maxRetries ->
          fn j = Retry.Resolved v ->
          (forall i, (i < j)%nat -> exists e, fn i = Retry.Rejected e) ->
          Retry.retryWithBackoff fn maxRetries baseDelay jitter
          = Some {| Retry.outcome := Retry.Resolved v;
                    Retry.invocations := S j;
                    Retry.delays :=
                      map (Retry.backoff_delay baseDelay jitter) (seq 0 j) |}).
Proof.
  intros T E fn maxRetries baseDelay jitter Hmax. split.
  - intros err Hfn. unfold Retry.retryWithBackoff.
    change 0 with (Z.of_nat 0).
    rewrite (attempt_loop_all_fail fn maxRetries baseDelay jitter err Hmax Hfn
               (Z.to_nat maxRetries)) by lia.
    simpl. do 2 f_equal. lia.
  - intros j v Hj Hv Hfail. unfold Retry.retryWithBackoff.
    change 0 with (Z.of_nat 0).
    rewrite (attempt_loop_success fn maxRetries baseDelay jitter j v Hj Hv j)
      by (try lia; intros i Hi; apply Hfail; lia).
    reflexivity.
Qed.

Lemma retry_attempt_count_witness :
  Retry.retryWithBackoff (T := unit) (fun k => Retry.Rejected k) 2 1000
                         (fun _ => 250)
  = Some {| Retry.outcome := Retry.Rejected (Some 2%nat);
            Retry.invocations := 3;
            Retry.delays := [1250; 2250] |}.
Proof.
  destruct (retry_attempt_count unit nat (fun k => Retry.Rejected k) 2 1000
              (fun _ => 250)) as [H _].
  - lia.
  - exact (H (fun k => k) (fun k => eq_refl)).
Defined.

(** C10: for [maxRetries < 0] the loop body is never entered: [fn] is not
    invoked, nothing is slept, and the promise rejects with [lastError]
    still unassigned, i.e. with [undefined]. *)
Theorem retry_negative_budget :
  forall (T E : Type) (fn : nat -> Retry.Settled T E)
         (maxRetries baseDelay : Z) (jitter : Z -> Z),
    maxRetries < 0 ->
    Retry.retryWithBackoff fn maxRetries baseDelay jitter
    = Some {| Retry.outcome := Retry.Rejected None;
              Retry.invocations := 0;
              Retry.delays := [] |}.
Proof.
  intros T E fn maxRetries baseDelay jitter Hneg.
  unfold Retry.retryWithBackoff.
  replace (Z.to_nat (maxRetries + 1)) with 0%nat by lia.
  simpl. destruct (Z.leb_spec 0 maxRetries); [lia | reflexivity].
Qed.

Lemma retry_negative_budget_witness :
  Retry.retryWithBackoff (T := unit) (E := nat)
                         (fun _ => Retry.Resolved tt) (-1) 1000 (fun _ => 0)
  = Some {| Retry.outcome := Retry.Rejected None;
            Retry.invocations := 0;
            Retry.delays := [] |}.
Proof.
  apply (retry_negative_budget unit nat (fun _ => Retry.Resolved tt) (-1) 1000
           (fun _ => 0)).
  lia.
Defined.

(** ** compressBusData / decompressBusData *)




Section BusCodecFacts.
Context {Other : Type}.


Lemma status_length (s : option JsString.t) :
  (1 <= JsString.length (BusCodec.truncate_status s) <= 10)%nat.
Proof.
  unfold BusCodec.truncate_status, JsString.substring_from_0, JsString.length.
  destruct s as [s|]; [|cbn; lia].
  pose proof (firstn_le_length 10 s) as Hle.
  destruct (firstn 10 s) as [|c cut]; [cbn; lia|].
  simpl length in *. lia.
Qed.


(** A number comes back from [x ? Math.round(x) : null] only as the
    rounding of a truthy original. *)
Lemma round_if_truthy_some (x : option JsNumber.number) (v' : JsNumber.number) :
  BusCodec.round_if_truthy x = Some v' ->
  exists v, x = Some v /\ JsNumber.truthy v = true
            /\ v' = JsNumber.Math_round v.
Proof.
  destruct x as [v|]; unfold BusCodec.round_if_truthy; [|discriminate].
  destruct (JsNumber.truthy v) eqn:E; [|discriminate].
  intros [= <-]. exists v. repeat split. exact E.
Qed.

End BusCodecFacts.




(** The other places where the round trip changes a record: properties that
    the codec does not name are dropped; a speed of 0 is falsy and comes
    back as [null]; a missing or empty status comes back as "unknown"; an
    [updatedAt] of 0 is replaced by the clock; and the status is cut after
    10 code units, which is 5 characters when each takes a surrogate pair. *)
Example codec_drops_other_properties :
  let r := BusCodec.mkBus (JsString.of_ascii "BUS001")
             28.5%float 77.25%float (Some 40%float) (Some 90%float)
             (Some (JsString.of_ascii "online")) (Some 1700000000000%float)
             [("routeName", "Route 5"); ("driverId", "D-17")] in
  BusCodec.decompressBusData
    (BusCodec.compressBusData 1700000000500%float (Some r))
  = Some (BusCodec.named_properties r)
  /\ BusCodec.named_properties r <> r.
Proof. cbv zeta. split; [vm_compute; reflexivity | discriminate]. Qed.

Example codec_zero_speed_becomes_null :
  BusCodec.round_if_truthy (Some 0%float) = None
  /\ BusCodec.round_if_truthy (Some (-0)%float) = None
  /\ BusCodec.round_if_truthy (Some nan) = None.
Proof. repeat split. Qed.

Example codec_missing_status_becomes_unknown :
  BusCodec.truncate_status None = JsString.of_ascii "unknown"
  /\ BusCodec.truncate_status (Some []) = JsString.of_ascii "unknown".
Proof. split; reflexivity. Qed.

Example codec_zero_updatedAt_becomes_now :
  BusCodec.timestamp_or (Some 0%float) 1700000000500%float
  = 1700000000500%float
  /\ BusCodec.timestamp_or None 1700000000500%float = 1700000000500%float.
Proof. split; reflexivity. Qed.

Example codec_status_counts_code_units :
  let bus := [55357; 56972]%N in
  BusCodec.truncate_status (Some (bus ++ bus ++ bus ++ bus ++ bus ++ bus))
  = bus ++ bus ++ bus ++ bus ++ bus.
Proof. reflexivity. Qed.

(** Rounding is the runtime's: the double nearest to 28.6139445 lies below
    the tie, yet its product with 1000000 is rounded to 28613944.5 and
    [Math.round] takes that to 28613945. *)
#[warnings="-inexact-float"]
Example codec_coordinate_rounding_in_doubles :
  PrimFloat.mul 28.6139445%float 1000000%float = 28613944.5%float
  /\ BusCodec.round_coordinate 28.6139445%float = 28.613945%float
  /\ JsNumber.Math_round 0.49999999999999994%float = 0%float
  /\ JsNumber.Math_round (-2.5)%float = (-2)%float
  /\ JsNumber.Math_round 2.5%float = 3%float.
Proof. repeat split. Qed.

(** ** BatchUpdateManager: flush and re-queue on failure *)

Section BatchFacts.
Context {D : Type}.
Implicit Types (w : Batch.World D) (sink : list (string * D) -> bool).

Lemma jsmap_set_new (k : string) (v : D) (m : JsMap.t D) :
  ~ In k (JsMap.keys m) -> JsMap.set k v m = m ++ [(k, v)].
Proof.
  induction m as [|[k' v'] rest IH]; simpl; auto.
  intros H. destruct (String.eqb k k') eqn:E.
  - apply String.eqb_eq in E. subst. tauto.
  - f_equal. tauto.
Qed.

(** Re-adding a batch whose keys are not pending appends it in order. *)
Lemma requeue_fresh (updates pending : JsMap.t D) :
  JsMap.wf (pending ++ updates) ->
  Batch.requeue updates pending = pending ++ updates.
Proof.
  unfold Batch.requeue. revert pending.
  induction updates as [|[k v] rest IH]; intros pending Hwf; simpl.
  - now rewrite app_nil_r.
  - assert (Hk : ~ In k (JsMap.keys pending)).
    { unfold JsMap.wf, JsMap.keys in *. rewrite map_app in Hwf. simpl in Hwf.
      apply NoDup_remove_2 in Hwf. intros Hin. apply Hwf.
      apply in_or_app. now left. }
    rewrite jsmap_set_new by assumption.
    rewrite IH; rewrite <- app_assoc; [reflexivity | exact Hwf].
Qed.

(** Whatever is pending when the batch is re-added, every entry of the
    failed batch is pending afterwards. *)
Lemma requeue_get (updates pending : JsMap.t D) (k : string) (v : D) :
  JsMap.wf updates ->
  JsMap.get k updates = Some v ->
  JsMap.get k (Batch.requeue updates pending) = Some v.
Proof.
  unfold Batch.requeue. revert pending.
  induction updates as [|[k' v'] rest IH]; intros pending Hwf Hget;
    simpl in *; [discriminate|].
  unfold JsMap.wf in Hwf. simpl in Hwf.
  inversion Hwf as [|? ? Hnotin Hrest]; subst.
  destruct (String.eqb k k') eqn:E.
  - apply String.eqb_eq in E. subst k'. injection Hget as ->.
    clear IH. revert pending.
    assert (Hkeep : forall l acc,
               ~ In k (JsMap.keys l) ->
               JsMap.get k acc = Some v ->
               JsMap.get k
                 (fold_left (fun m e => JsMap.set (fst e) (snd e) m) l acc)
               = Some v).
    { induction l as [|[k2 v2] l IHl]; intros acc Hn Hacc; simpl; auto.
      simpl in Hn. apply IHl; [tauto|].
      rewrite jsmap_get_set_other; [assumption|].
      intros ->. tauto. }
    intros pending. apply Hkeep; [assumption|].
    apply jsmap_get_set_same.
  - now apply IH.
Qed.

(** A key outside the failed batch keeps what is pending for it. *)
Lemma requeue_get_other (updates pending : JsMap.t D) (k : string) :
  JsMap.get k updates = None ->
  JsMap.get k (Batch.requeue updates pending) = JsMap.get k pending.
Proof.
  unfold Batch.requeue. revert pending.
  induction updates as [|[k' v'] rest IH]; intros pending Hget;
    simpl in *; [reflexivity|].
  destruct (String.eqb k k') eqn:E; [discriminate|].
  rewrite IH by assumption.
  apply jsmap_get_set_other. intros ->. rewrite String.eqb_refl in E.
  discriminate.
Qed.

Lemma requeue_wf (updates pending : JsMap.t D) :
  JsMap.wf pending -> JsMap.wf (Batch.requeue updates pending).
Proof.
  unfold Batch.requeue. revert pending.
  induction updates as [|[k v] rest IH]; intros pending Hwf; simpl;
    [assumption|].
  apply IH. now apply jsmap_wf_set.
Qed.

(** The part of [processBatch] before the [await], case by case. *)
Lemma processBatch_begin_spec w :
  Batch.processBatch_begin w
  = match Batch.pendingUpdates (Batch.mgr w) with
    | [] => (None, w)
    | updates =>
        (Some updates,
         {| Batch.mgr := {| Batch.pendingUpdates := [];
                            Batch.batchTimeout := None;
                            Batch.batchDelay := Batch.batchDelay (Batch.mgr w) |};
            Batch.timers := Batch.timers w;
            Batch.next_handle := Batch.next_handle w;
            Batch.sent := Batch.sent w ++ [updates] |})
    end.
Proof.
  unfold Batch.processBatch_begin.
  destruct (Batch.pendingUpdates (Batch.mgr w)) as [|e rest] eqn:Hp;
    reflexivity.
Qed.

Lemma processBatch_timers sink w :
  Batch.timers (Batch.processBatch sink w) = Batch.timers w.
Proof.
  unfold Batch.processBatch. rewrite processBatch_begin_spec.
  destruct (Batch.pendingUpdates (Batch.mgr w)) as [|e rest];
    [reflexivity|].
  cbv beta iota zeta. now destruct (sink _).
Qed.

(** A non-empty pending map goes to the sink as one batch. *)
Lemma processBatch_sends sink w :
  Batch.pendingUpdates (Batch.mgr w) <> [] ->
  Batch.sent (Batch.processBatch sink w)
  = Batch.sent w ++ [Batch.pendingUpdates (Batch.mgr w)]
  /\ Batch.batchTimeout (Batch.mgr (Batch.processBatch sink w)) = None.
Proof.
  intros Hne. unfold Batch.processBatch. rewrite processBatch_begin_spec.
  destruct (Batch.pendingUpdates (Batch.mgr w)) as [|e rest] eqn:Hp;
    [contradiction|].
  cbv beta iota zeta. destruct (sink _); split; reflexivity.
Qed.

Lemma processBatch_failure sink w :
  JsMap.wf (Batch.pendingUpdates (Batch.mgr w)) ->
  Batch.pendingUpdates (Batch.mgr w) <> [] ->
  sink (Batch.pendingUpdates (Batch.mgr w)) = false ->
  Batch.pendingUpdates (Batch.mgr (Batch.processBatch sink w))
  = Batch.pendingUpdates (Batch.mgr w).
Proof.
  intros Hwf Hne Hfail. unfold Batch.processBatch.
  rewrite processBatch_begin_spec.
  destruct (Batch.pendingUpdates (Batch.mgr w)) as [|e rest] eqn:Hp;
    [contradiction|].
  cbv beta iota zeta. rewrite Hfail.
  cbn [Batch.processBatch_catch Batch.with_mgr Batch.mgr Batch.pendingUpdates].
  apply (requeue_fresh (e :: rest) JsMap.empty). exact Hwf.
Qed.

Lemma addUpdate_pending (key : string) (d : D) w :
  Batch.pendingUpdates (Batch.mgr (Batch.addUpdate key d w))
  = JsMap.set key d (Batch.pendingUpdates (Batch.mgr w))
  /\ Batch.batchTimeout (Batch.mgr (Batch.addUpdate key d w))
     = Some (Batch.next_handle w)
  /\ Batch.sent (Batch.addUpdate key d w) = Batch.sent w
  /\ In (Batch.next_handle w) (Batch.timers (Batch.addUpdate key d w)).
Proof.
  unfold Batch.addUpdate.
  cbn [Batch.with_mgr Batch.mgr Batch.batchTimeout].
  destruct (Batch.batchTimeout (Batch.mgr w)) as [h|];
    cbn; repeat split; auto; apply in_or_app; right; now left.
Qed.

Lemma jsmap_set_nonempty (k : string) (v : D) (m : JsMap.t D) :
  JsMap.set k v m <> [].
Proof. destruct m as [|[k' v'] m]; simpl; [|destruct (String.eqb k k')];
         discriminate. Qed.

(** What is pending after the [catch] block: the entries of the failed
    batch, and for every other key what was pending by then. *)
Lemma requeue_get_spec (updates pending : JsMap.t D) (k : string) :
  JsMap.wf updates ->
  JsMap.get k (Batch.requeue updates pending)
  = match JsMap.get k updates with
    | Some v => Some v
    | None => JsMap.get k pending
    end.
Proof.
  intros Hwf. destruct (JsMap.get k updates) as [v|] eqn:G.
  - now apply requeue_get.
  - now apply requeue_get_other.
Qed.


(** What [flush()] or a timer callback has done when it returns: either
    nothing was pending and nothing is sent, or the whole pending map has
    gone to the sink as one batch and [batchTimeout] is reset. *)
Lemma processBatch_begin_cases w :
  (Batch.pendingUpdates (Batch.mgr w) = []
   /\ Batch.processBatch_begin w = (None, w))
  \/ (Batch.pendingUpdates (Batch.mgr w) <> []
      /\ exists w1,
           Batch.processBatch_begin w
           = (Some (Batch.pendingUpdates (Batch.mgr w)), w1)
           /\ Batch.pendingUpdates (Batch.mgr w1) = []
           /\ Batch.batchTimeout (Batch.mgr w1) = None
           /\ Batch.timers w1 = Batch.timers w
           /\ Batch.sent w1
              = Batch.sent w ++ [Batch.pendingUpdates (Batch.mgr w)]).
Proof.
  rewrite processBatch_begin_spec.
  destruct (Batch.pendingUpdates (Batch.mgr w)) as [|e rest] eqn:Hp.
  - left. now split.
  - right. split; [discriminate|]. eexists. split; [reflexivity|].
    cbn. repeat split.
Qed.

End BatchFacts.




(** ** OfflineManager: the bounded queue *)

Section OfflineFacts.
Context {D : Type}.
Implicit Types (m : Offline.OfflineManager D) (q : list (Offline.Item D)).

(** With a capacity of at least one the [while] loop stops, leaving the
    newest [maxQueueSize - 1] entries. *)
Lemma shift_while_full_stops (cap : Z) :
  1 <= cap ->
  forall (fuel : nat) q,
    (length q <= fuel)%nat ->
    Offline.shift_while_full fuel cap q
    = Some (skipn (length q - (Z.to_nat cap - 1)) q).
Proof.
  intros Hcap. induction fuel as [|fuel IH]; intros q Hfuel.
  - destruct q; [|simpl in Hfuel; lia]. simpl.
    destruct (Z.geb_spec 0 cap); [lia | reflexivity].
  - simpl. destruct (Z.geb_spec (Z.of_nat (length q)) cap) as [Hfull | Hroom].
    + destruct q as [|a q']; [simpl in Hfull; lia|].
      simpl tl. rewrite IH by (simpl in Hfuel; lia).
      simpl length in *.
      replace (S (length q') - (Z.to_nat cap - 1))%nat
        with (S (length q' - (Z.to_nat cap - 1)))%nat by lia.
      reflexivity.
    + replace (length q - (Z.to_nat cap - 1))%nat with 0%nat by lia.
      reflexivity.
Qed.

(** With a capacity of zero or less the loop never stops. *)
Lemma shift_while_full_diverges (cap : Z) :
  cap <= 0 ->
  forall (fuel : nat) q, Offline.shift_while_full fuel cap q = None.
Proof.
  intros Hcap. induction fuel as [|fuel IH]; intros q; simpl;
    destruct (Z.geb_spec (Z.of_nat (length q)) cap); auto; lia.
Qed.

Lemma queueUpdate_offline (fuel : nat) (now : Z) (key : string) (d : D) m :
  Offline.isOnline m = false ->
  1 <= Offline.maxQueueSize m ->
  (length (Offline.offlineQueue m) <= fuel)%nat ->
  Offline.queueUpdate fuel now key d m
  = Some (Offline.with_queue m
            (skipn (length (Offline.offlineQueue m)
                    - (Z.to_nat (Offline.maxQueueSize m) - 1))
                   (Offline.offlineQueue m)
             ++ [Offline.mkItem key d now])).
Proof.
  intros Hoff Hcap Hfuel. unfold Offline.queueUpdate.
  now rewrite Hoff, shift_while_full_stops.
Qed.

Lemma queue_all_snoc (fuel : nat) (calls : list (Offline.Item D))
    (c : Offline.Item D) m :
  Offline.queue_all fuel (calls ++ [c]) m
  = match Offline.queue_all fuel calls m with
    | Some m' =>
        Offline.queueUpdate fuel (Offline.timestamp c) (Offline.key c)
                            (Offline.data c) m'
    | None => None
    end.
Proof. unfold Offline.queue_all. now rewrite fold_left_app. Qed.

(** While offline, a queue that starts empty holds the newest
    [maxQueueSize] of the items enqueued, oldest first. *)
Lemma queue_all_offline (cap : Z) (fuel : nat) :
  1 <= cap ->
  (Z.to_nat cap <= fuel)%nat ->
  forall items : list (Offline.Item D),
    Offline.queue_all fuel items (Offline.new false cap)
    = Some (Offline.mk false (skipn (length items - Z.to_nat cap) items) cap).
Proof.
  intros Hcap Hfuel. induction items as [|x items IH] using rev_ind.
  - reflexivity.
  - rewrite queue_all_snoc, IH.
    rewrite queueUpdate_offline; cbn [Offline.isOnline Offline.maxQueueSize
                                      Offline.offlineQueue]; try easy.
    + unfold Offline.with_queue.
      cbn [Offline.isOnline Offline.maxQueueSize]. do 2 f_equal.
      rewrite skipn_skipn, length_skipn, length_app. simpl length.
      destruct x as [k d t]. cbn [Offline.key Offline.data Offline.timestamp].
      rewrite skipn_snoc by lia. f_equal. f_equal. lia.
    + rewrite length_skipn. lia.
Qed.

End OfflineFacts.

(** C5, the code at a failing input: with a configured capacity of zero
    (or less) an offline [queueUpdate] never leaves the loop that makes
    room, [while (offlineQueue.length >= maxQueueSize) offlineQueue.shift()],
    since the length of the emptied queue is still not below the capacity.
    The call does not return, so the queue never gets to [size() ==
    capacity] with the write handled. *)
Theorem offline_queue_zero_capacity_hangs :
  forall (D : Type) (m : Offline.OfflineManager D) (fuel : nat) (now : Z)
         (key : string) (d : D),
    Offline.isOnline m = false ->
    Offline.maxQueueSize m <= 0 ->
    Offline.queueUpdate fuel now key d m = None.
Proof.
  intros D m fuel now key d Hoff Hcap. unfold Offline.queueUpdate.
  rewrite Hoff. now rewrite shift_while_full_diverges.
Qed.

Lemma offline_queue_zero_capacity_hangs_witness :
  Offline.queueUpdate 1000 1700000000000 "bus_1" 1 (Offline.new false 0)
  = None.
Proof.
  apply (offline_queue_zero_capacity_hangs Z (Offline.new false 0) 1000%nat
           1700000000000 "bus_1" 1); [reflexivity | cbn; lia].
Defined.

(** ** OfflineManager: replay on reconnect *)

Section ReplayFacts.
Context {D : Type}.
Variables (proc : Offline.Item D -> bool) (clock : nat -> Z).

(** An item is replayed only if it is not stale in its iteration. *)
Lemma replay_skips_stale (queue : list (Offline.Item D)) :
  forall (i : nat) (item : Offline.Item D),
    In item (fst (Offline.replay proc clock i queue)) ->
    exists j, (i <= j)%nat
              /\ clock j - Offline.timestamp item <= 3600000
              /\ proc item = true.
Proof.
  induction queue as [|x queue IH]; intros i item Hin; simpl in Hin.
  - contradiction.
  - destruct (Z.gtb_spec (clock i - Offline.timestamp x) 3600000).
    + destruct (IH (S i) item Hin) as (j & Hj & H'). exists j.
      split; [lia | exact H'].
    + destruct (proc x) eqn:Hp; [|contradiction].
      destruct (Offline.replay proc clock (S i) queue) as [done ok] eqn:R.
      simpl in Hin. destruct Hin as [-> | Hin].
      * exists i. split; [lia | split; [lia | exact Hp]].
      * specialize (IH (S i) item). rewrite R in IH.
        destruct (IH Hin) as (j & Hj & H'). exists j.
        split; [lia | exact H'].
Qed.

(** When every replay resolves, the prior contents are gone for good. *)
Lemma processOfflineQueue_success (m : Offline.OfflineManager D) :
  snd (Offline.replay proc clock 0 (Offline.offlineQueue m)) = true ->
  Offline.offlineQueue
    (fst (Offline.processOfflineQueue proc clock (fun x => x) m)) = [].
Proof.
  intros Hok. unfold Offline.processOfflineQueue.
  destruct (Offline.offlineQueue m) as [|x q] eqn:Hq.
  - simpl. exact Hq.
  - cbn [length Nat.eqb].
    destruct (Offline.replay proc clock 0 (x :: q)) as [done ok].
    simpl in Hok. subst ok. reflexivity.
Qed.

(** When a replay rejects, the whole prior queue is put back in front of
    the current one: the entries already replayed and the stale ones too. *)
Lemma processOfflineQueue_failure
    (meanwhile : Offline.OfflineManager D -> Offline.OfflineManager D)
    (m : Offline.OfflineManager D) :
  snd (Offline.replay proc clock 0 (Offline.offlineQueue m)) = false ->
  Offline.offlineQueue
    (fst (Offline.processOfflineQueue proc clock meanwhile m))
  = Offline.offlineQueue m
    ++ Offline.offlineQueue (meanwhile (Offline.with_queue m [])).
Proof.
  intros Hfail. unfold Offline.processOfflineQueue.
  destruct (Offline.offlineQueue m) as [|x q] eqn:Hq.
  - simpl in Hfail. discriminate.
  - cbn [length Nat.eqb].
    destruct (Offline.replay proc clock 0 (x :: q)) as [done ok].
    simpl in Hfail. subst ok. reflexivity.
Qed.

End ReplayFacts.

(** A failed replay can leave more entries than the capacity: with
    capacity 1, the write [b] enqueued while [a] was being replayed stays
    behind the re-queued [a]. *)
Example replay_failure_exceeds_capacity :
  let a := Offline.mkItem "bus_1" 1 1000 in
  let b := Offline.mkItem "bus_2" 2 2000 in
  let went_offline_and_queued_b :=
    fun m => match Offline.queueUpdate 1 2000 "bus_2" 2 (Offline.on_offline m)
             with Some m' => m' | None => m end in
  Offline.offlineQueue
    (fst (Offline.on_online (fun _ => false) (fun _ => 1500)
            went_offline_and_queued_b (Offline.mk false [a] 1)))
  = [a; b].
Proof. reflexivity. Qed.

(** C2, the code at a failing input: the queue holds two fresh writes, the
    replay of the first resolves and the replay of the second rejects. The
    code puts both back, not only the second, and on the next reconnect the
    first write is replayed with success a second time. *)
Theorem offline_replay_requeues_replayed :
  let a := Offline.mkItem "bus_1" 1 1000 in
  let b := Offline.mkItem "bus_2" 2 2000 in
  let m := Offline.mk false [a; b] 100 in
  let second_fails := fun item => String.eqb (Offline.key item) "bus_1" in
  let first := Offline.on_online second_fails (fun _ => 5000) (fun x => x) m in
  let next := Offline.on_online (fun _ => true) (fun _ => 9000) (fun x => x)
                (Offline.on_offline (fst first)) in
  snd first = [a]
  /\ Offline.offlineQueue (fst first) = [a; b]
  /\ Offline.offlineQueue (fst first) <> [b]
  /\ snd next = [a; b]
  /\ count_occ string_dec (map Offline.key (snd first ++ snd next)) "bus_1"
     = 2%nat.
Proof.
  cbv zeta. repeat split. vm_compute. discriminate.
Qed.

(* ===================================================================== *)
(** * Part III: further properties of the module                          *)
(* ===================================================================== *)

(** ** retryWithBackoff on an arbitrary [fn] *)

Section RetryShape.
Context {T E : Type}.
Variables (fn : nat -> Retry.Settled T E) (maxRetries baseDelay : Z)
          (jitter : Z -> Z).

(** A run that starts at attempt [a] stops at the first invocation that
    resolves, or at invocation [maxRetries] if none does. *)
Lemma attempt_loop_shape :
  0 <= maxRetries ->
  forall (d a fuel : nat) (lastError : option E) (slept : list Z),
    (a + d = Z.to_nat maxRetries)%nat ->
    (d < fuel)%nat ->
    exists run,
      Retry.attempt_loop fuel fn maxRetries baseDelay jitter (Z.of_nat a)
                         lastError a slept = Some run
      /\ (a < Retry.invocations run)%nat
      /\ (Retry.invocations run <= Z.to_nat maxRetries + 1)%nat
      /\ Retry.delays run
         = slept ++ map (Retry.backoff_delay baseDelay jitter)
                        (seq a (Retry.invocations run - 1 - a))
      /\ (forall i, (a <= i < Retry.invocations run - 1)%nat ->
                    exists e, fn i = Retry.Rejected e)
      /\ match Retry.outcome run with
         | Retry.Resolved v =>
             fn (Retry.invocations run - 1)%nat = Retry.Resolved v
         | Retry.Rejected (Some e) =>
             Retry.invocations run = (Z.to_nat maxRetries + 1)%nat
             /\ fn (Z.to_nat maxRetries) = Retry.Rejected e
         | Retry.Rejected None => False
         end.
Proof.
  intros Hmax. induction d as [|d IH];
    intros a fuel lastError slept Had Hfuel;
    (destruct fuel as [|fuel]; [lia|]); simpl;
    (destruct (Z.leb_spec (Z.of_nat a) maxRetries); [|lia]);
    destruct (fn a) as [v | e] eqn:Hfa.
  - eexists. split; [reflexivity|]. simpl.
    replace (a - 0 - a)%nat with 0%nat by lia. rewrite app_nil_r.
    repeat split; try lia. now rewrite Nat.sub_0_r.
  - destruct (Z.eqb_spec (Z.of_nat a) maxRetries); [|lia].
    eexists. split; [reflexivity|]. simpl.
    replace (a - 0 - a)%nat with 0%nat by lia. rewrite app_nil_r.
    repeat split; try lia. now replace (Z.to_nat maxRetries) with a by lia.
  - eexists. split; [reflexivity|]. simpl.
    replace (a - 0 - a)%nat with 0%nat by lia. rewrite app_nil_r.
    repeat split; try lia. now rewrite Nat.sub_0_r.
  - destruct (Z.eqb_spec (Z.of_nat a) maxRetries); [lia|].
    replace (Z.of_nat a + 1) with (Z.of_nat (S a)) by lia.
    destruct (IH (S a) fuel (Some e)
                 (slept ++ [baseDelay * 2 ^ Z.of_nat a + jitter (Z.of_nat a)]))
      as (run & Hrun & Hlo & Hhi & Hdel & Hrej & Hout); try lia.
    exists run. split; [exact Hrun|].
    repeat split; try lia.
    + rewrite Hdel, <- app_assoc. f_equal.
      replace (Retry.invocations run - 1 - a)%nat
        with (S (Retry.invocations run - 1 - S a))%nat by lia.
      reflexivity.
    + intros i Hi. destruct (Nat.eq_dec i a) as [-> | Hne]; [eauto|].
      apply Hrej. lia.
    + exact Hout.
Qed.

(** The backoff delays add up to the geometric part plus the jitter drawn. *)
Lemma backoff_sum (k : nat) :
  fold_right Z.add 0 (map (Retry.backoff_delay baseDelay jitter) (seq 0 k))
  = baseDelay * (2 ^ Z.of_nat k - 1)
    + fold_right Z.add 0 (map (fun i => jitter (Z.of_nat i)) (seq 0 k)).
Proof.
  induction k as [|k IH]; [simpl; lia|].
  rewrite seq_S, !map_app, !fold_right_app. simpl map. simpl fold_right at 2 4.
  assert (Hshift : forall (l : list Z) (x : Z),
             fold_right Z.add x l = fold_right Z.add 0 l + x).
  { induction l as [|y l IHl]; intros x; simpl; [lia|]. rewrite IHl. lia. }
  rewrite (Hshift _ (Retry.backoff_delay _ _ _ + 0)).
  rewrite (Hshift _ (jitter _ + 0)). rewrite IH.
  unfold Retry.backoff_delay.
  replace (Z.of_nat (S k)) with (Z.of_nat k + 1) by lia.
  rewrite Z.pow_add_r by lia. change (2 ^ 1) with 2.
  cbn [Nat.add]. ring.
Qed.

Lemma jitter_sum_bounds (k : nat) :
  (forall a, 0 <= jitter a < 1000) ->
  0 <= fold_right Z.add 0 (map (fun i => jitter (Z.of_nat i)) (seq 0 k))
    <= 1000 * Z.of_nat k.
Proof.
  intros Hj. induction k as [|k IH]; [simpl; lia|].
  rewrite seq_S, map_app, fold_right_app. cbn [map fold_right Nat.add].
  assert (Hshift : forall (l : list Z) (x : Z),
             fold_right Z.add x l = fold_right Z.add 0 l + x).
  { induction l as [|y l IHl]; intros x; simpl; [lia|]. rewrite IHl. lia. }
  rewrite Hshift. specialize (Hj (Z.of_nat k)). lia.
Qed.

End RetryShape.

(** X1. For [maxRetries >= 0] and any [fn], [retryWithBackoff] returns
    after between 1 and [maxRetries + 1] invocations; every invocation but
    the last rejected and was followed by its backoff delay; the run
    resolves with the value of the last invocation or rejects with the
    error of invocation [maxRetries], never with an unassigned error. *)
Theorem retry_run_shape :
  forall (T E : Type) (fn : nat -> Retry.Settled T E)
         (maxRetries baseDelay : Z) (jitter : Z -> Z),
    0 <= maxRetries ->
    exists run,
      Retry.retryWithBackoff fn maxRetries baseDelay jitter = Some run
      /\ (1 <= Retry.invocations run <= Z.to_nat maxRetries + 1)%nat
      /\ Retry.delays run
         = map (Retry.backoff_delay baseDelay jitter)
               (seq 0 (Retry.invocations run - 1))
      /\ (forall i, (i < Retry.invocations run - 1)%nat ->
                    exists e, fn i = Retry.Rejected e)
      /\ match Retry.outcome run with
         | Retry.Resolved v =>
             fn (Retry.invocations run - 1)%nat = Retry.Resolved v
         | Retry.Rejected (Some e) =>
             Retry.invocations run = (Z.to_nat maxRetries + 1)%nat
             /\ fn (Z.to_nat maxRetries) = Retry.Rejected e
         | Retry.Rejected None => False
         end.
Proof.
  intros T E fn maxRetries baseDelay jitter Hmax.
  unfold Retry.retryWithBackoff. change 0 with (Z.of_nat 0).
  destruct (attempt_loop_shape fn maxRetries baseDelay jitter Hmax
              (Z.to_nat maxRetries) 0 (Z.to_nat (maxRetries + 1)) None [])
    as (run & Hrun & Hlo & Hhi & Hdel & Hrej & Hout); try lia.
  exists run. split; [exact Hrun|].
  rewrite Nat.sub_0_r in Hdel.
  repeat split; try lia; try assumption.
  intros i Hi. apply Hrej. lia.
Qed.

Lemma retry_run_shape_witness :
  exists run,
    Retry.retryWithBackoff (T := string) (E := nat)
      (fun k => if (k <? 2)%nat then Retry.Rejected k
                else Retry.Resolved "position")
      3 1000 (fun _ => 250) = Some run
    /\ (1 <= Retry.invocations run <= 4)%nat.
Proof.
  destruct (retry_run_shape string nat
              (fun k => if (k <? 2)%nat then Retry.Rejected k
                        else Retry.Resolved "position")
              3 1000 (fun _ => 250)) as (run & Hrun & Hinv & _).
  - lia.
  - exists run. split; [exact Hrun | exact Hinv].
Defined.

(** The sleep of a run that made [k <= maxRetries] retries. *)
Lemma backoff_sum_bounds (maxRetries baseDelay : Z) (jitter : Z -> Z)
    (k : nat) :
  0 <= baseDelay ->
  (forall a, 0 <= jitter a < 1000) ->
  Z.of_nat k <= maxRetries ->
  baseDelay * (2 ^ Z.of_nat k - 1)
  <= fold_right Z.add 0
       (map (Retry.backoff_delay baseDelay jitter) (seq 0 k))
  <= baseDelay * (2 ^ maxRetries - 1) + 1000 * maxRetries.
Proof.
  intros Hbase Hjit Hk. rewrite backoff_sum.
  pose proof (jitter_sum_bounds jitter k Hjit) as HJ.
  assert (Hpow : 2 ^ Z.of_nat k <= 2 ^ maxRetries)
    by (apply Z.pow_le_mono_r; lia).
  assert (Hpos : 0 < 2 ^ Z.of_nat k) by (apply Z.pow_pos_nonneg; lia).
  split; [lia | nia].
Qed.

(** X2. With a base delay [>= 0] and a jitter in [0, 1000) the time slept
    in one call is the geometric sum for the retries made plus their
    jitter: at least [baseDelay * (2^retries - 1)] and at most
    [baseDelay * (2^maxRetries - 1) + 1000 * maxRetries]. *)
Theorem retry_total_wait :
  forall (T E : Type) (fn : nat -> Retry.Settled T E)
         (maxRetries baseDelay : Z) (jitter : Z -> Z),
    0 <= maxRetries ->
    0 <= baseDelay ->
    (forall a, 0 <= jitter a < 1000) ->
    exists run,
      Retry.retryWithBackoff fn maxRetries baseDelay jitter = Some run
      /\ baseDelay * (2 ^ Z.of_nat (Retry.invocations run - 1) - 1)
         <= fold_right Z.add 0 (Retry.delays run)
      /\ fold_right Z.add 0 (Retry.delays run)
         <= baseDelay * (2 ^ maxRetries - 1) + 1000 * maxRetries.
Proof.
  intros T E fn maxRetries baseDelay jitter Hmax Hbase Hjit.
  unfold Retry.retryWithBackoff. change 0 with (Z.of_nat 0) at 3.
  destruct (attempt_loop_shape fn maxRetries baseDelay jitter Hmax
              (Z.to_nat maxRetries) 0 (Z.to_nat (maxRetries + 1)) None [])
    as (run & Hrun & Hlo & Hhi & Hdel & _); try lia.
  exists run. split; [exact Hrun|].
  rewrite Hdel, Nat.sub_0_r. cbn [app].
  apply backoff_sum_bounds; try assumption. lia.
Qed.

Lemma retry_total_wait_witness :
  exists run,
    Retry.retryWithBackoff (T := unit) (E := nat)
      (fun k => Retry.Rejected k) 2 1000 (fun _ => 250) = Some run
    /\ fold_right Z.add 0 (Retry.delays run) <= 5000.
Proof.
  destruct (retry_total_wait unit nat (fun k => Retry.Rejected k) 2 1000
              (fun _ => 250)) as (run & Hrun & _ & Hhi).
  - lia.
  - lia.
  - intros a. lia.
  - exists run. split; [exact Hrun | exact Hhi].
Defined.

(** ** getNetworkInfo and getOptimizationSettings: the decision table *)

Lemma base_class_cases (e : string) (d : Q) :
  (e = "slow-2g" /\ Network.base_class e d = (Network.slow_2g, Network.poor))
  \/ (e = "2g" /\ Network.base_class e d = (Network.net_2g, Network.poor))
  \/ (e = "3g" /\ (d < 3 # 2)%Q
      /\ Network.base_class e d = (Network.net_3g, Network.poor))
  \/ (e = "3g" /\ (3 # 2 <= d)%Q
      /\ Network.base_class e d = (Network.net_3g, Network.good))
  \/ (e = "4g" /\ (d < 5)%Q
      /\ Network.base_class e d = (Network.net_4g, Network.good))
  \/ (e = "4g" /\ (5 <= d)%Q
      /\ Network.base_class e d = (Network.net_4g, Network.excellent))
  \/ (e <> "slow-2g" /\ e <> "2g" /\ e <> "3g" /\ e <> "4g"
      /\ Network.base_class e d = (Network.unknown, Network.good)).
Proof.
  unfold Network.base_class.
  destruct (String.eqb_spec e "slow-2g") as [-> | H1]; [tauto|].
  destruct (String.eqb_spec e "2g") as [-> | H2]; [tauto|].
  destruct (String.eqb_spec e "3g") as [-> | H3].
  { destruct (Network.Qltb d (3 # 2)) eqn:Hd.
    - apply Qltb_lt in Hd. tauto.
    - apply Qltb_ge in Hd. tauto. }
  destruct (String.eqb_spec e "4g") as [-> | H4].
  { destruct (Network.Qltb d 5) eqn:Hd.
    - apply Qltb_lt in Hd. tauto.
    - apply Qltb_ge in Hd. tauto. }
  repeat right. tauto.
Qed.

Lemma adjust_by_rtt_cases (r : Q) (q : Network.ConnectionQuality) :
  ((2000 < r)%Q /\ Network.adjust_by_rtt r q = Network.poor)
  \/ ((1000 < r)%Q /\ (r <= 2000)%Q
      /\ Network.adjust_by_rtt r q
         = if Network.is_poor q then Network.poor else Network.good)
  \/ ((r <= 1000)%Q /\ Network.adjust_by_rtt r q = q).
Proof.
  destruct (Qlt_le_dec 2000 r) as [Hhi | Hhi].
  - left. split; [assumption | now apply adjust_by_rtt_high].
  - right. destruct (Qlt_le_dec 1000 r) as [Hlo | Hlo].
    + left. repeat split; try assumption. now apply adjust_by_rtt_mid.
    + right. split; [assumption | now apply adjust_by_rtt_low].
Qed.

Lemma quality_table (e : string) (d r : Q) :
  let q := Network.adjust_by_rtt r (snd (Network.base_class e d)) in
  (q = Network.excellent <-> e = "4g" /\ (5 <= d)%Q /\ (r <= 1000)%Q)
  /\ (q = Network.poor <->
      (2000 < r)%Q \/ e = "slow-2g" \/ e = "2g"
      \/ (e = "3g" /\ (d < 3 # 2)%Q)).
Proof.
  intros q. subst q.
  destruct (base_class_cases e d)
    as [(He & Hb) | [(He & Hb) | [(He & Hd & Hb) | [(He & Hd & Hb)
       | [(He & Hd & Hb) | [(He & Hd & Hb) | (H1 & H2 & H3 & H4 & Hb)]]]]]];
    rewrite Hb; cbn [snd];
    destruct (adjust_by_rtt_cases r
                (snd (Network.base_class e d)))
      as [(Hr & Ha) | [(Hr & Hr' & Ha) | (Hr & Ha)]];
    rewrite Hb in Ha; cbn [snd Network.is_poor] in Ha; rewrite Ha;
    subst;
    (split; split; intros H);
    try discriminate H;
    try (repeat split; (reflexivity || assumption));
    try (exfalso; destruct H as (He & Hd5 & Hr1); (discriminate He || lra));
    try (exfalso; destruct H as [Hx | [Hx | [Hx | [Hx Hy]]]];
         (discriminate Hx || congruence || lra));
    try tauto.
Qed.

(** X3. The quality reported by [getNetworkInfo] is [excellent] exactly for
    a 4g connection with downlink at least 5 and rtt at most 1000, and
    [poor] exactly when the rtt exceeds 2000, or the type is slow-2g or 2g,
    or it is 3g with a downlink below 1.5 (all read from the returned
    record; a navigator without connection data counts as unknown/10/100). *)
Theorem network_quality_table :
  forall nav : option Network.Connection,
    let info := Network.getNetworkInfo nav in
    (Network.quality info = Network.excellent <->
       Network.effectiveType info = "4g"
       /\ (5 <= Network.downlink info)%Q /\ (Network.rtt info <= 1000)%Q)
    /\ (Network.quality info = Network.poor <->
          (2000 < Network.rtt info)%Q
          \/ Network.effectiveType info = "slow-2g"
          \/ Network.effectiveType info = "2g"
          \/ (Network.effectiveType info = "3g"
              /\ (Network.downlink info < 3 # 2)%Q)).
Proof.
  intros nav. destruct nav as [c|].
  - cbv zeta. rewrite (getNetworkInfo_quality c). apply quality_table.
  - cbn. split; split; intros H; try discriminate H.
    + destruct H as (H & _). discriminate H.
    + destruct H as [H | [H | [H | [H _]]]]; discriminate H.
Qed.

Lemma number_or_nonzero (x : option Q) (d : Q) :
  ~ (d == 0)%Q -> ~ (Network.number_or x d == 0)%Q.
Proof.
  intros Hd. unfold Network.number_or. destruct x as [q|]; [|exact Hd].
  destruct (Qeq_bool q 0) eqn:E; [exact Hd|].
  intros H. apply Qeq_bool_iff in H. congruence.
Qed.

Lemma string_or_nonempty (x : option string) (d : string) :
  d <> "" -> Network.string_or x d <> "".
Proof.
  intros Hd. unfold Network.string_or. destruct x as [s|]; [|exact Hd].
  destruct (String.eqb_spec s ""); assumption.
Qed.

(** X4. Whatever the browser reports, the record returned by
    [getNetworkInfo] has a non-zero rtt, a non-zero downlink and a
    non-empty effective type (missing, zero or empty readings are replaced
    by 100, 10 and "unknown"), and its type is [unknown] exactly when the
    effective type is none of slow-2g, 2g, 3g, 4g. *)
Theorem network_info_defaults :
  forall nav : option Network.Connection,
    let info := Network.getNetworkInfo nav in
    ~ (Network.rtt info == 0)%Q
    /\ ~ (Network.downlink info == 0)%Q
    /\ Network.effectiveType info <> ""
    /\ (Network.type info = Network.unknown <->
          Network.effectiveType info <> "slow-2g"
          /\ Network.effectiveType info <> "2g"
          /\ Network.effectiveType info <> "3g"
          /\ Network.effectiveType info <> "4g").
Proof.
  intros [c|]; cbv zeta.
  - unfold Network.getNetworkInfo.
    set (e := Network.string_or (Network.conn_effectiveType c) "unknown").
    set (d := Network.number_or (Network.conn_downlink c) 10).
    set (r := Network.number_or (Network.conn_rtt c) 100).
    assert (Hr : ~ (r == 0)%Q) by (apply number_or_nonzero; discriminate).
    assert (Hd : ~ (d == 0)%Q) by (apply number_or_nonzero; discriminate).
    assert (He : e <> "") by (apply string_or_nonempty; discriminate).
    destruct (base_class_cases e d)
      as [(H & Hb) | [(H & Hb) | [(H & _ & Hb) | [(H & _ & Hb)
         | [(H & _ & Hb) | [(H & _ & Hb) | (H1 & H2 & H3 & H4 & Hb)]]]]]];
      rewrite Hb; cbn [Network.rtt Network.downlink Network.effectiveType
                       Network.type];
      (split; [exact Hr | split; [exact Hd | split; [exact He |]]]);
      split; intros Hx; try discriminate Hx; try tauto.
  - cbn. repeat split; discriminate.
Qed.

Lemma settings_of_quality (info : Network.NetworkInfo) :
  let s := Network.getOptimizationSettings info in
  (Network.updateInterval s = 5000 <-> Network.quality info = Network.excellent)
  /\ (Network.updateInterval s = 50000 <-> Network.quality info = Network.poor)
  /\ (Network.batchUpdates s = true <-> Network.quality info = Network.poor)
  /\ (Network.dataCompression s = false <->
        Network.quality info = Network.excellent)
  /\ 2 <= Network.maxRetries s <= 3.
Proof.
  unfold Network.getOptimizationSettings.
  destruct (Network.quality info); cbn;
    repeat split; try discriminate; try lia; try reflexivity.
Qed.

(** X5. The policy chosen for the current connection: the tracker polls
    every 5 s, without compression, exactly on 4g with downlink >= 5 and
    rtt <= 1000; it polls every 50 s with batching exactly when the rtt
    exceeds 2000 or the link is slow-2g, 2g or 3g below 1.5 Mbps. *)
Theorem policy_of_connection :
  forall nav : option Network.Connection,
    let info := Network.getNetworkInfo nav in
    let s := Network.getOptimizationSettings info in
    (Network.updateInterval s = 5000 /\ Network.dataCompression s = false <->
       Network.effectiveType info = "4g"
       /\ (5 <= Network.downlink info)%Q /\ (Network.rtt info <= 1000)%Q)
    /\ (Network.updateInterval s = 50000 /\ Network.batchUpdates s = true <->
          (2000 < Network.rtt info)%Q
          \/ Network.effectiveType info = "slow-2g"
          \/ Network.effectiveType info = "2g"
          \/ (Network.effectiveType info = "3g"
              /\ (Network.downlink info < 3 # 2)%Q)).
Proof.
  intros nav info s.
  assert (Htable :
            (Network.quality info = Network.excellent <->
               Network.effectiveType info = "4g"
               /\ (5 <= Network.downlink info)%Q
               /\ (Network.rtt info <= 1000)%Q)
            /\ (Network.quality info = Network.poor <->
                  (2000 < Network.rtt info)%Q
                  \/ Network.effectiveType info = "slow-2g"
                  \/ Network.effectiveType info = "2g"
                  \/ (Network.effectiveType info = "3g"
                      /\ (Network.downlink info < 3 # 2)%Q))).
  { unfold info. destruct nav as [c|].
    - rewrite (getNetworkInfo_quality c). apply quality_table.
    - cbn. split; split; intros H; try discriminate H.
      + destruct H as (H & _). discriminate H.
      + destruct H as [H | [H | [H | [H _]]]]; discriminate H. }
  destruct Htable as [Hex Hpoor].
  destruct (settings_of_quality info) as (H5 & H50 & Hb & Hc & _).
  fold s in H5, H50, Hb, Hc.
  split.
  - rewrite <- Hex. split; [intros [H _]; now apply H5 |].
    intros H. split; [now apply H5 | now apply Hc].
  - rewrite <- Hpoor. split; [intros [H _]; now apply H50 |].
    intros H. split; [now apply H50 | now apply Hb].
Qed.

(** X6. With the retry budget of any policy and the default base delay of
    1000 ms, a fetch is tried at least once and at most 4 times, sleeps at
    most 10 s in total between the tries, and never rejects with an
    unassigned error. *)
Theorem policy_retry_budget :
  forall (T E : Type) (nav : option Network.Connection)
         (fn : nat -> Retry.Settled T E) (jitter : Z -> Z),
    (forall a, 0 <= jitter a < 1000) ->
    let budget := Network.maxRetries
                    (Network.getOptimizationSettings
                       (Network.getNetworkInfo nav)) in
    exists run,
      Retry.retryWithBackoff fn budget Retry.default_baseDelay jitter
      = Some run
      /\ (1 <= Retry.invocations run <= 4)%nat
      /\ fold_right Z.add 0 (Retry.delays run) <= 10000
      /\ Retry.outcome run <> Retry.Rejected None.
Proof.
  intros T E nav fn jitter Hjit budget.
  destruct (settings_of_quality (Network.getNetworkInfo nav))
    as (_ & _ & _ & _ & Hb). fold budget in Hb.
  unfold Retry.retryWithBackoff. change 0 with (Z.of_nat 0) at 1.
  destruct (attempt_loop_shape fn budget Retry.default_baseDelay jitter
              ltac:(lia) (Z.to_nat budget) 0 (Z.to_nat (budget + 1)) None [])
    as (run & Hrun & Hlo & Hhi & Hdel & _ & Hout); try lia.
  exists run. split; [exact Hrun|]. repeat split; try lia.
  - rewrite Hdel, Nat.sub_0_r. cbn [app].
    destruct (backoff_sum_bounds budget Retry.default_baseDelay jitter
                (Retry.invocations run - 1)) as [_ Hwait];
      [unfold Retry.default_baseDelay; lia | assumption | lia |].
    unfold Retry.default_baseDelay in *.
    assert (Hpow : 2 ^ budget <= 2 ^ 3) by (apply Z.pow_le_mono_r; lia).
    change (2 ^ 3) with 8 in Hpow. lia.
  - intros Hnone. rewrite Hnone in Hout. exact Hout.
Qed.

Lemma policy_retry_budget_witness :
  exists run,
    Retry.retryWithBackoff (T := unit) (E := nat)
      (fun k => Retry.Rejected k)
      (Network.maxRetries
         (Network.getOptimizationSettings (Network.getNetworkInfo None)))
      Retry.default_baseDelay (fun _ => 999) = Some run
    /\ (1 <= Retry.invocations run <= 4)%nat
    /\ fold_right Z.add 0 (Retry.delays run) <= 10000
    /\ Retry.outcome run <> Retry.Rejected None.
Proof.
  apply (policy_retry_budget unit nat None (fun k => Retry.Rejected k)
           (fun _ => 999)).
  intros a. lia.
Defined.

(** ** DataCache under arbitrary call sequences *)

Section CacheOpsFacts.
Context {T : Type}.
Implicit Types (c : DataCache.t T) (m : JsMap.t (DataCache.CacheEntry T)).

Lemma jsmap_size_set_le (k : string) (e : DataCache.CacheEntry T) m :
  (JsMap.size (JsMap.set k e m) <= S (JsMap.size m))%nat.
Proof.
  unfold JsMap.size. induction m as [|[k' e'] rest IH]; simpl; [lia|].
  destruct (String.eqb k k'); simpl; lia.
Qed.

Lemma jsmap_size_delete_le (k : string) m :
  (JsMap.size (JsMap.delete k m) <= JsMap.size m)%nat.
Proof. unfold JsMap.size, JsMap.delete. apply filter_length_le. Qed.

Lemma evict_oldest_wf m : JsMap.wf m -> JsMap.wf (DataCache.evict_oldest m).
Proof.
  intros H. unfold DataCache.evict_oldest.
  destruct (JsMap.first_key m); [now apply jsmap_wf_delete | assumption].
Qed.

Lemma evict_oldest_size m :
  JsMap.wf m -> m <> [] ->
  S (JsMap.size (DataCache.evict_oldest m)) = JsMap.size m.
Proof.
  intros Hwf Hne. destruct m as [|[k e] rest]; [contradiction|].
  unfold DataCache.evict_oldest. cbn [JsMap.first_key].
  now rewrite (jsmap_delete_head k e rest Hwf).
Qed.

Lemma evict_oldest_get (k : string) m :
  JsMap.first_key m <> Some k ->
  JsMap.get k (DataCache.evict_oldest m) = JsMap.get k m.
Proof.
  intros H. unfold DataCache.evict_oldest.
  destruct (JsMap.first_key m) as [k0|] eqn:E; [|reflexivity].
  apply jsmap_get_delete_other. congruence.
Qed.

(** The representation invariant: unique keys, at most [maxSize] entries. *)
Lemma step_invariant c (op : CacheOps.Op T) :
  1 <= DataCache.maxSize c ->
  JsMap.wf (DataCache.cache c) ->
  Z.of_nat (DataCache.size c) <= DataCache.maxSize c ->
  DataCache.maxSize (CacheOps.step c op) = DataCache.maxSize c
  /\ JsMap.wf (DataCache.cache (CacheOps.step c op))
  /\ Z.of_nat (DataCache.size (CacheOps.step c op)) <= DataCache.maxSize c.
Proof.
  intros Hcap Hwf Hsize. unfold DataCache.size in *.
  destruct op as [now key d ttl | now key |]; cbn [CacheOps.step].
  - unfold DataCache.set. cbn [DataCache.cache DataCache.maxSize].
    split; [reflexivity|].
    destruct (Z.geb_spec (Z.of_nat (JsMap.size (DataCache.cache c)))
                         (DataCache.maxSize c)) as [Hfull | Hroom].
    + split; [apply jsmap_wf_set, evict_oldest_wf, Hwf|].
      assert (Hne : DataCache.cache c <> []).
      { intros E. rewrite E in Hfull. simpl in Hfull. lia. }
      pose proof (evict_oldest_size _ Hwf Hne) as Hev.
      pose proof (jsmap_size_set_le key (DataCache.mkEntry d now ttl)
                    (DataCache.evict_oldest (DataCache.cache c))). lia.
    + split; [apply jsmap_wf_set, Hwf|].
      pose proof (jsmap_size_set_le key (DataCache.mkEntry d now ttl)
                    (DataCache.cache c)). lia.
  - unfold DataCache.get.
    destruct (JsMap.get key (DataCache.cache c)) as [e|]; [|cbn; tauto].
    destruct (now - DataCache.timestamp e >? DataCache.ttl e); [|cbn; tauto].
    cbn [snd DataCache.cache DataCache.maxSize].
    split; [reflexivity | split; [now apply jsmap_wf_delete|]].
    pose proof (jsmap_size_delete_le key (DataCache.cache c)). lia.
  - cbn. repeat split; [constructor | lia].
Qed.

Lemma run_invariant (ops : list (CacheOps.Op T)) :
  forall c,
    1 <= DataCache.maxSize c ->
    JsMap.wf (DataCache.cache c) ->
    Z.of_nat (DataCache.size c) <= DataCache.maxSize c ->
    DataCache.maxSize (CacheOps.run ops c) = DataCache.maxSize c
    /\ JsMap.wf (DataCache.cache (CacheOps.run ops c))
    /\ Z.of_nat (DataCache.size (CacheOps.run ops c)) <= DataCache.maxSize c.
Proof.
  induction ops as [|op ops IH]; intros c Hcap Hwf Hsize; [cbn; tauto|].
  cbn [CacheOps.run fold_left].
  destruct (step_invariant c op Hcap Hwf Hsize) as (Hm & Hw & Hs).
  destruct (IH (CacheOps.step c op)) as (Hm' & Hw' & Hs');
    rewrite ?Hm; try assumption.
  unfold CacheOps.run in *. rewrite Hm', Hm in *. tauto.
Qed.

End CacheOpsFacts.

(** X7. For a capacity of at least 1, after any sequence of [set], [get]
    and [clear] calls on a fresh [DataCache] (any keys, repeated or not,
    any clock readings) the cache holds at most [maxSize] entries, its
    keys are pairwise distinct and [maxSize] is unchanged. *)
Theorem cache_bounded_under_any_calls :
  forall (T : Type) (cap : Z) (ops : list (CacheOps.Op T)),
    1 <= cap ->
    let c := CacheOps.run ops (DataCache.new cap) in
    Z.of_nat (DataCache.size c) <= cap
    /\ JsMap.wf (DataCache.cache c)
    /\ DataCache.maxSize c = cap.
Proof.
  intros T cap ops Hcap c.
  destruct (run_invariant ops (DataCache.new cap)) as (Hm & Hw & Hs);
    cbn; try lia; [constructor|].
  cbn in Hm, Hs. tauto.
Qed.

Lemma cache_bounded_under_any_calls_witness :
  let ops := [CacheOps.OpSet 0 "bus_1" 1 100; CacheOps.OpSet 10 "bus_2" 2 100;
              CacheOps.OpSet 20 "bus_2" 3 100; CacheOps.OpGet 500 "bus_1";
              CacheOps.OpSet 510 "bus_3" 4 100; CacheOps.OpSet 520 "bus_4" 5 100]
  in
  Z.of_nat (DataCache.size (CacheOps.run ops (DataCache.new 2))) <= 2.
Proof.
  intros ops.
  apply (cache_bounded_under_any_calls Z 2 ops). lia.
Defined.

(** X8. A [get] touches nothing but the entry it reads: on a missing key it
    returns [null] and leaves the cache as it is; in every case the entries
    of all other keys stay as they were, the size does not grow, and a
    value is returned only if the key is stored. *)
Theorem cache_get_is_local :
  forall (T : Type) (c : DataCache.t T) (now : Z) (key : string),
    (JsMap.get key (DataCache.cache c) = None ->
       DataCache.get now key c = (None, c))
    /\ (forall key', key' <> key ->
          JsMap.get key' (DataCache.cache (snd (DataCache.get now key c)))
          = JsMap.get key' (DataCache.cache c))
    /\ (DataCache.size (snd (DataCache.get now key c)) <= DataCache.size c)%nat
    /\ (forall v, fst (DataCache.get now key c) = Some v ->
          exists e, JsMap.get key (DataCache.cache c) = Some e
                    /\ DataCache.data e = v
                    /\ now - DataCache.timestamp e <= DataCache.ttl e).
Proof.
  intros T c now key. unfold DataCache.get, DataCache.size.
  destruct (JsMap.get key (DataCache.cache c)) as [e|] eqn:Hget.
  - destruct (Z.gtb_spec (now - DataCache.timestamp e) (DataCache.ttl e));
      cbn [fst snd DataCache.cache].
    + repeat split; try discriminate.
      * intros key' Hne. apply jsmap_get_delete_other. congruence.
      * apply jsmap_size_delete_le.
    + repeat split; try discriminate; try lia.
      intros v [= <-]. exists e. auto.
  - cbn. repeat split; try lia. discriminate.
Qed.

(** X9. A [set] removes at most the oldest key: the entry of any other key
    [key'] (different from the key written) is the same after the call,
    provided [key'] is not the oldest key or the cache is below capacity. *)
Theorem cache_set_keeps_other_keys :
  forall (T : Type) (c : DataCache.t T) (now ttl : Z) (key key' : string)
         (d : T),
    key' <> key ->
    JsMap.first_key (DataCache.cache c) <> Some key'
    \/ Z.of_nat (DataCache.size c) < DataCache.maxSize c ->
    JsMap.get key' (DataCache.cache (DataCache.set now key d ttl c))
    = JsMap.get key' (DataCache.cache c).
Proof.
  intros T c now ttl key key' d Hne Hcase.
  unfold DataCache.set, DataCache.size in *. cbn [DataCache.cache].
  rewrite jsmap_get_set_other by congruence.
  destruct (Z.geb_spec (Z.of_nat (JsMap.size (DataCache.cache c)))
                       (DataCache.maxSize c)) as [Hfull | Hroom];
    [|reflexivity].
  destruct Hcase as [Hfirst | Hlt]; [|lia].
  now apply evict_oldest_get.
Qed.

Lemma cache_set_keeps_other_keys_witness :
  let e := DataCache.mkEntry 7 0 300000 in
  let c := DataCache.mk [("bus_1", e); ("bus_2", e)] 2 in
  JsMap.get "bus_2" (DataCache.cache (DataCache.set 50 "bus_3" 8 300000 c))
  = Some e.
Proof.
  intros e c.
  rewrite (cache_set_keeps_other_keys Z c 50 300000 "bus_3" "bus_2" 8).
  - reflexivity.
  - discriminate.
  - left. discriminate.
Defined.

(** ** ProgressiveLoader *)

Lemma to_int_not_nil (z : Z) :
  Z.to_int z <> Decimal.Pos Decimal.Nil /\ Z.to_int z <> Decimal.Neg Decimal.Nil.
Proof.
  destruct z as [|p|p]; simpl; split; try discriminate;
    intros [= H]; exact (DecimalPos.Unsigned.to_uint_nonnil p H).
Qed.

Lemma page_key_inj (a b : Z) : Loader.page_key a = Loader.page_key b -> a = b.
Proof.
  unfold Loader.page_key. simpl. intros [= H].
  apply DecimalZ.to_int_inj.
  apply (f_equal DecimalString.NilZero.int_of_string) in H.
  destruct (to_int_not_nil a) as [Ha1 Ha2].
  destruct (to_int_not_nil b) as [Hb1 Hb2].
  rewrite !DecimalString.NilZero.isi in H by assumption.
  now injection H.
Qed.

Section CacheLocality.
Context {T : Type}.
Implicit Types (c : DataCache.t T).

Lemma get_other_key c (now : Z) (key key' : string) :
  key' <> key ->
  JsMap.get key' (DataCache.cache (snd (DataCache.get now key c)))
  = JsMap.get key' (DataCache.cache c).
Proof.
  intros Hne. unfold DataCache.get.
  destruct (JsMap.get key (DataCache.cache c)) as [e|]; [|reflexivity].
  destruct (now - DataCache.timestamp e >? DataCache.ttl e); [|reflexivity].
  apply jsmap_get_delete_other. congruence.
Qed.

Lemma get_size_le c (now : Z) (key : string) :
  (DataCache.size (snd (DataCache.get now key c)) <= DataCache.size c)%nat.
Proof.
  unfold DataCache.get, DataCache.size.
  destruct (JsMap.get key (DataCache.cache c)) as [e|]; [|cbn; lia].
  destruct (now - DataCache.timestamp e >? DataCache.ttl e); [|cbn; lia].
  apply jsmap_size_delete_le.
Qed.

Lemma get_maxSize c (now : Z) (key : string) :
  DataCache.maxSize (snd (DataCache.get now key c)) = DataCache.maxSize c.
Proof.
  unfold DataCache.get.
  destruct (JsMap.get key (DataCache.cache c)) as [e|]; [|reflexivity].
  now destruct (now - DataCache.timestamp e >? DataCache.ttl e).
Qed.



Lemma set_below_capacity c (now ttl : Z) (key : string) (d : T) :
  Z.of_nat (DataCache.size c) < DataCache.maxSize c ->
  DataCache.cache (DataCache.set now key d ttl c)
  = JsMap.set key (DataCache.mkEntry d now ttl) (DataCache.cache c).
Proof.
  intros H. unfold DataCache.set, DataCache.size in *. cbn [DataCache.cache].
  destruct (Z.geb_spec (Z.of_nat (JsMap.size (DataCache.cache c)))
                       (DataCache.maxSize c)); [lia | reflexivity].
Qed.

Lemma get_stored c (now : Z) (key : string) (e : DataCache.CacheEntry T) :
  JsMap.get key (DataCache.cache c) = Some e ->
  DataCache.get now key c
  = if now - DataCache.timestamp e >? DataCache.ttl e
    then (None, DataCache.mk (JsMap.delete key (DataCache.cache c))
                             (DataCache.maxSize c))
    else (Some (DataCache.data e), c).
Proof. intros H. unfold DataCache.get. now rewrite H. Qed.

End CacheLocality.

(** X10. A page that [loadPage] fetched is stored under its page number
    with the ttl chosen at fetch time (10 min if the quality was poor, 5
    min otherwise). On any later state of the loader in which that entry is
    still stored (not evicted by the pages loaded since, not cleared), a
    request of that page number made within the ttl is served from the
    cache without calling the loader, whatever the quality is then; made
    later, it requests the page again with the offset and limit of the
    current quality. *)
Theorem loader_cache_window :
  forall (T E : Type) (l : Loader.ProgressiveLoader T)
         (loadFn1 : Z -> Z -> Retry.Settled (list T) E)
         (g1 s1 page : Z) (q1 : Network.ConnectionQuality) (data : list T),
    fst (DataCache.get g1 (Loader.page_key page) (Loader.cache l)) = None ->
    loadFn1 (page * Loader.adjustedPageSize (Loader.pageSize l) q1)
            (Loader.adjustedPageSize (Loader.pageSize l) q1)
    = Retry.Resolved data ->
    let r1 := Loader.loadPage loadFn1 g1 s1 page q1 l in
    let entry := DataCache.mkEntry data s1 (Loader.page_ttl q1) in
    Loader.result r1 = Retry.Resolved data
    /\ Loader.requests r1
       = [(page * Loader.adjustedPageSize (Loader.pageSize l) q1,
           Loader.adjustedPageSize (Loader.pageSize l) q1)]
    /\ JsMap.get (Loader.page_key page)
                 (DataCache.cache (Loader.cache (Loader.loader r1)))
       = Some entry
    /\ forall (later : Loader.ProgressiveLoader T)
              (loadFn2 : Z -> Z -> Retry.Settled (list T) E) (g2 s2 : Z)
              (q2 : Network.ConnectionQuality),
         JsMap.get (Loader.page_key page) (DataCache.cache (Loader.cache later))
         = Some entry ->
         let r2 := Loader.loadPage loadFn2 g2 s2 page q2 later in
         (g2 - s1 <= Loader.page_ttl q1 ->
            Loader.result r2 = Retry.Resolved data
            /\ Loader.requests r2 = []
            /\ Loader.cache (Loader.loader r2) = Loader.cache later)
         /\ (g2 - s1 > Loader.page_ttl q1 ->
               Loader.requests r2
               = [(page * Loader.adjustedPageSize (Loader.pageSize later) q2,
                   Loader.adjustedPageSize (Loader.pageSize later) q2)]).
Proof.
  intros T E l loadFn1 g1 s1 page q1 data Hmiss Hload r1 entry.
  unfold r1, Loader.loadPage.
  destruct (DataCache.get g1 (Loader.page_key page) (Loader.cache l))
    as [cached c1] eqn:Hget.
  cbn [fst] in Hmiss. subst cached. rewrite Hload.
  cbn [Loader.result Loader.requests Loader.loader Loader.cache
       Loader.pageSize].
  split; [reflexivity | split; [reflexivity | split]].
  - apply cache_set_stores.
  - intros later loadFn2 g2 s2 q2 Hstored.
    cbv zeta. unfold Loader.loadPage.
    rewrite (get_stored _ g2 _ _ Hstored).
    unfold entry. cbn [DataCache.timestamp DataCache.ttl DataCache.data].
    destruct (Z.gtb_spec (g2 - s1) (Loader.page_ttl q1)); split; intros Hage;
      try lia.
    + destruct (loadFn2 _ _); reflexivity.
    + repeat split.
Qed.

Lemma loader_cache_window_witness :
  let loadFn := fun offset limit : Z =>
                  Retry.Resolved (E := unit) [offset; offset + limit - 1] in
  let r1 := Loader.loadPage loadFn 1000 1200 2 Network.poor (Loader.new 10) in
  let r2 := Loader.loadPage loadFn 2000 2200 3 Network.good (Loader.loader r1) in
  let r3 := Loader.loadPage loadFn 500000 500200 2 Network.excellent
                            (Loader.loader r2) in
  Loader.requests r1 = [(10, 5)]
  /\ Loader.result r3 = Retry.Resolved [10; 14]
  /\ Loader.requests r3 = [].
Proof.
  intros loadFn r1 r2 r3.
  destruct (loader_cache_window Z unit (Loader.new 10) loadFn 1000 1200 2
              Network.poor [10; 14] eq_refl eq_refl)
    as (_ & Hreq & _ & Hnext).
  destruct (Hnext (Loader.loader r2) loadFn 500000 500200 Network.excellent
                  eq_refl) as [Hhit _].
  split; [exact Hreq |].
  destruct Hhit as (Hres & Hnone & _); [cbn; lia |].
  split; [exact Hres | exact Hnone].
Defined.



(** X12. Pages are cached under distinct keys, and while the cache is below
    its capacity a [loadPage] of one page leaves the cached entry of every
    other page as it was. *)
Theorem loader_pages_independent :
  forall (T E : Type) (l : Loader.ProgressiveLoader T)
         (loadFn : Z -> Z -> Retry.Settled (list T) E)
         (now_get now_set page page' : Z) (q : Network.ConnectionQuality),
    page' <> page ->
    Z.of_nat (DataCache.size (Loader.cache l))
    < DataCache.maxSize (Loader.cache l) ->
    Loader.page_key page' <> Loader.page_key page
    /\ JsMap.get (Loader.page_key page')
         (DataCache.cache
            (Loader.cache
               (Loader.loader
                  (Loader.loadPage loadFn now_get now_set page q l))))
       = JsMap.get (Loader.page_key page') (DataCache.cache (Loader.cache l)).
Proof.
  intros T E l loadFn now_get now_set page page' q Hne Hroom.
  assert (Hkey : Loader.page_key page' <> Loader.page_key page)
    by (intros H; apply Hne, page_key_inj, H).
  split; [exact Hkey|].
  pose proof (get_other_key (Loader.cache l) now_get _ _ Hkey) as Hother.
  pose proof (get_size_le (Loader.cache l) now_get (Loader.page_key page))
    as Hsize.
  pose proof (get_maxSize (Loader.cache l) now_get (Loader.page_key page))
    as Hmax.
  unfold Loader.loadPage.
  destruct (DataCache.get now_get (Loader.page_key page) (Loader.cache l))
    as [[cached|] c1]; cbn [snd] in *;
    [exact Hother|].
  destruct (loadFn _ _) as [data | err];
    cbn [Loader.loader Loader.cache]; [|exact Hother].
  rewrite set_below_capacity by lia.
  rewrite jsmap_get_set_other by congruence. exact Hother.
Qed.

Lemma loader_pages_independent_witness :
  let loadFn := fun offset limit : Z => Retry.Resolved (E := unit) [offset] in
  let l1 := Loader.loader
              (Loader.loadPage loadFn 0 5 1 Network.good (Loader.new 10)) in
  JsMap.get (Loader.page_key 1)
    (DataCache.cache
       (Loader.cache
          (Loader.loader (Loader.loadPage loadFn 10 15 2 Network.good l1))))
  = JsMap.get (Loader.page_key 1) (DataCache.cache (Loader.cache l1)).
Proof.
  intros loadFn l1.
  apply (loader_pages_independent Z unit l1 loadFn 10 15 2 1 Network.good).
  - discriminate.
  - vm_compute. reflexivity.
Defined.

(** ** SmartPrefetcher *)

Section PrefetchCounts.
Context {T : Type}.
Implicit Types (p : Prefetcher.SmartPrefetcher T).

Lemma access_count_nonneg (patterns : JsMap.t Z) (r : string) :
  Prefetcher.counts_positive patterns -> 0 <= Prefetcher.access_count r patterns.
Proof.
  intros H. unfold Prefetcher.access_count.
  destruct (JsMap.get r patterns) as [n|] eqn:G; [|lia].
  specialize (H r n G). destruct (Z.eqb_spec n 0); lia.
Qed.

Lemma recordAccess_positive (x : string) p :
  Prefetcher.counts_positive (Prefetcher.accessPatterns p) ->
  Prefetcher.counts_positive (Prefetcher.accessPatterns (Prefetcher.recordAccess x p)).
Proof.
  intros H k n. cbn [Prefetcher.recordAccess Prefetcher.accessPatterns].
  pose proof (access_count_nonneg _ x H) as Hx.
  destruct (string_dec x k) as [-> | Hne].
  - rewrite jsmap_get_set_same. intros [= <-]. lia.
  - rewrite jsmap_get_set_other by assumption. apply H.
Qed.

Lemma record_all_count (rs : list string) :
  forall p (r : string),
    Prefetcher.counts_positive (Prefetcher.accessPatterns p) ->
    Prefetcher.access_count r
      (Prefetcher.accessPatterns (Prefetcher.record_all rs p))
    = Prefetcher.access_count r (Prefetcher.accessPatterns p)
      + Z.of_nat (count_occ string_dec rs r)
    /\ Prefetcher.counts_positive (Prefetcher.accessPatterns (Prefetcher.record_all rs p)).
Proof.
  induction rs as [|x rs IH]; intros p r Hpos.
  - cbn. split; [lia | exact Hpos].
  - cbn [Prefetcher.record_all fold_left].
    destruct (IH (Prefetcher.recordAccess x p) r
                 (recordAccess_positive x p Hpos)) as [Hc Hp].
    unfold Prefetcher.record_all in *. split; [|exact Hp].
    rewrite Hc. cbn [Prefetcher.recordAccess Prefetcher.accessPatterns].
    pose proof (access_count_nonneg _ x Hpos) as Hx.
    cbn [count_occ]. destruct (string_dec x r) as [-> | Hne].
    + unfold Prefetcher.access_count at 1. rewrite jsmap_get_set_same.
      destruct (Z.eqb_spec (Prefetcher.access_count r
                              (Prefetcher.accessPatterns p) + 1) 0); lia.
    + unfold Prefetcher.access_count at 1.
      rewrite jsmap_get_set_other by assumption.
      fold (Prefetcher.access_count r (Prefetcher.accessPatterns p)). lia.
Qed.

End PrefetchCounts.

(** X13. After any sequence of [recordAccess] calls on a fresh prefetcher,
    the count stored for a resource is the number of times it was
    recorded, and a resource never recorded has no entry. *)
Theorem prefetch_access_counts :
  forall (T : Type) (rs : list string) (r : string),
    let p := Prefetcher.record_all rs (Prefetcher.new (T := T)) in
    JsMap.get r (Prefetcher.accessPatterns p)
    = if (count_occ string_dec rs r =? 0)%nat then None
      else Some (Z.of_nat (count_occ string_dec rs r)).
Proof.
  intros T rs r p.
  destruct (record_all_count rs (Prefetcher.new (T := T)) r) as [Hc Hp].
  { intros k n H. discriminate H. }
  fold p in Hc, Hp. unfold Prefetcher.access_count in Hc. cbn in Hc.
  destruct (JsMap.get r (Prefetcher.accessPatterns p)) as [n|] eqn:G.
  - specialize (Hp r n G).
    destruct (Z.eqb_spec n 0); [lia|].
    destruct (Nat.eqb_spec (count_occ string_dec rs r) 0); [lia|].
    f_equal. lia.
  - destruct (Nat.eqb_spec (count_occ string_dec rs r) 0); [reflexivity | lia].
Qed.

Section SortFacts.

Lemma insert_by_count_perm (e : string * Z) (l : list (string * Z)) :
  Permutation (Prefetcher.insert_by_count e l) (e :: l).
Proof.
  induction l as [|y l IH]; simpl; [reflexivity|].
  destruct (snd e <? snd y); [|reflexivity].
  rewrite IH. apply perm_swap.
Qed.

Lemma sort_by_count_perm (l : list (string * Z)) :
  Permutation (Prefetcher.sort_by_count l) l.
Proof.
  induction l as [|e l IH]; simpl; [reflexivity|].
  rewrite insert_by_count_perm. now constructor.
Qed.

Lemma insert_by_count_sorted (e : string * Z) (l : list (string * Z)) :
  StronglySorted Prefetcher.count_ge l ->
  StronglySorted Prefetcher.count_ge (Prefetcher.insert_by_count e l).
Proof.
  induction l as [|y l IH]; intros Hs; simpl.
  - repeat constructor.
  - inversion Hs as [|? ? Hl Hy]; subst.
    destruct (Z.ltb_spec (snd e) (snd y)) as [Hlt | Hge].
    + constructor; [now apply IH|].
      rewrite Forall_forall in *. intros z Hz.
      apply (Permutation_in _ (insert_by_count_perm e l)) in Hz.
      destruct Hz as [<- | Hz]; [unfold Prefetcher.count_ge; lia | now apply Hy].
    + constructor; [exact Hs|].
      constructor; [unfold Prefetcher.count_ge; lia|].
      rewrite Forall_forall in *. intros z Hz.
      specialize (Hy z Hz). unfold Prefetcher.count_ge in *. lia.
Qed.

Lemma sort_by_count_sorted (l : list (string * Z)) :
  StronglySorted Prefetcher.count_ge (Prefetcher.sort_by_count l).
Proof.
  induction l as [|e l IH]; simpl; [constructor|].
  now apply insert_by_count_sorted.
Qed.

Lemma sorted_split (l1 l2 : list (string * Z)) :
  StronglySorted Prefetcher.count_ge (l1 ++ l2) ->
  forall a b, In a l1 -> In b l2 -> snd b <= snd a.
Proof.
  induction l1 as [|x l1 IH]; simpl; intros Hs a b Ha Hb; [contradiction|].
  inversion Hs as [|? ? Hl Hx]; subst.
  destruct Ha as [<- | Ha].
  - rewrite Forall_forall in Hx. apply (Hx b). apply in_or_app. now right.
  - now apply (IH Hl a b).
Qed.

Lemma jsmap_in_get {V : Type} (m : JsMap.t V) (k : string) (v : V) :
  JsMap.wf m -> In (k, v) m -> JsMap.get k m = Some v.
Proof.
  unfold JsMap.wf. induction m as [|[k' v'] rest IH]; simpl; [tauto|].
  intros Hwf [[= -> ->] | Hin].
  - now rewrite String.eqb_refl.
  - inversion Hwf as [|? ? Hn Hr]; subst.
    destruct (String.eqb_spec k k') as [-> | Hne]; [|now apply IH].
    exfalso. apply Hn. change k' with (fst (k', v)). now apply in_map.
Qed.

Lemma jsmap_get_in {V : Type} (m : JsMap.t V) (k : string) (v : V) :
  JsMap.get k m = Some v -> In (k, v) m.
Proof.
  induction m as [|[k' v'] rest IH]; simpl; [discriminate|].
  destruct (String.eqb_spec k k') as [-> | Hne].
  - intros [= ->]. now left.
  - intros H. right. now apply IH.
Qed.

Lemma candidates_in (patterns : JsMap.t Z) (x : string) :
  In x (Prefetcher.candidates patterns) ->
  exists n, In (x, n) (firstn 5 (Prefetcher.sort_by_count patterns))
            /\ In (x, n) patterns.
Proof.
  unfold Prefetcher.candidates. intros H.
  apply in_map_iff in H. destruct H as ([k n] & Hk & Hin). simpl in Hk.
  subst k. exists n. split; [exact Hin|].
  apply (Permutation_in _ (sort_by_count_perm patterns)).
  rewrite <- (firstn_skipn 5 (Prefetcher.sort_by_count patterns)).
  apply in_or_app. now left.
Qed.

Lemma candidates_length (patterns : JsMap.t Z) :
  (length (Prefetcher.candidates patterns) <= 5)%nat.
Proof.
  unfold Prefetcher.candidates. rewrite length_map. apply firstn_le_length.
Qed.

Lemma candidates_nodup (patterns : JsMap.t Z) :
  JsMap.wf patterns -> NoDup (Prefetcher.candidates patterns).
Proof.
  unfold JsMap.wf, JsMap.keys, Prefetcher.candidates. intros Hwf.
  assert (Hall : NoDup (map fst (Prefetcher.sort_by_count patterns))).
  { eapply Permutation_NoDup; [|exact Hwf].
    apply Permutation_map. symmetry. apply sort_by_count_perm. }
  rewrite <- (firstn_skipn 5 (Prefetcher.sort_by_count patterns)) in Hall.
  rewrite map_app in Hall. now apply NoDup_app_remove_r in Hall.
Qed.

End SortFacts.

Section PrefetchLoop.
Context {T E : Type}.
Variables (truthy : T -> bool) (loadFn : string -> Retry.Settled T E)
          (clock_get clock_set : nat -> Z).

Lemma prefetch_loop_loads (resources : list string) :
  forall (i : nat) (c : DataCache.t T),
    let loads := fst (Prefetcher.prefetch_loop truthy loadFn clock_get
                        clock_set i resources c) in
    (forall x, In x loads -> In x resources)
    /\ (length loads <= length resources)%nat
    /\ (NoDup resources -> NoDup loads).
Proof.
  induction resources as [|r rest IH]; intros i c; cbn.
  - repeat split; auto.
  - destruct (DataCache.get (clock_get i) r c) as [cached c1].
    destruct (match cached with Some v => truthy v | None => false end).
    + destruct (IH (S i) c1) as (Hin & Hlen & Hnd).
      repeat split.
      * intros x Hx. right. now apply Hin.
      * lia.
      * intros H. inversion H; subst. now apply Hnd.
    + set (c2 := match loadFn r with
                 | Retry.Resolved d =>
                     DataCache.set (clock_set i) r d DataCache.default_ttl c1
                 | Retry.Rejected _ => c1
                 end).
      destruct (IH (S i) c2) as (Hin & Hlen & Hnd).
      destruct (Prefetcher.prefetch_loop truthy loadFn clock_get clock_set
                  (S i) rest c2) as [loads c'].
      cbn in *. repeat split.
      * intros x [<- | Hx]; [now left | right; now apply Hin].
      * lia.
      * intros H. inversion H as [|? ? Hn Hr]; subst.
        constructor; [|now apply Hnd].
        intros Hx. apply Hn. now apply Hin.
Qed.


End PrefetchLoop.

(** X14. One call of [prefetchLikelyResources] passes at most 5 resources
    to the loader, each at most once and each one that was recorded by
    [recordAccess]; on a poor network it loads nothing and changes
    nothing; it never changes the access counts. *)
Theorem prefetch_loads_bounded :
  forall (T E : Type) (truthy : T -> bool)
         (loadFn : string -> Retry.Settled T E) (clock_get clock_set : nat -> Z)
         (q : Network.ConnectionQuality) (p : Prefetcher.SmartPrefetcher T),
    JsMap.wf (Prefetcher.accessPatterns p) ->
    let out := Prefetcher.prefetchLikelyResources truthy loadFn clock_get
                 clock_set q p in
    (length (fst out) <= 5)%nat
    /\ NoDup (fst out)
    /\ (forall x, In x (fst out) ->
          JsMap.get x (Prefetcher.accessPatterns p) <> None)
    /\ Prefetcher.accessPatterns (snd out) = Prefetcher.accessPatterns p
    /\ (q = Network.poor -> out = ([], p)).
Proof.
  intros T E truthy loadFn clock_get clock_set q p Hwf out.
  unfold out, Prefetcher.prefetchLikelyResources.
  destruct (Network.is_poor q) eqn:Hq.
  - cbn. split; [lia | split; [constructor | split; [intros x [] |]]].
    split; reflexivity.
  - pose proof (prefetch_loop_loads truthy loadFn clock_get clock_set
                  (Prefetcher.candidates (Prefetcher.accessPatterns p)) 0
                  (Prefetcher.prefetchCache p)) as (Hin & Hlen & Hnd).
    destruct (Prefetcher.prefetch_loop truthy loadFn clock_get clock_set 0
                (Prefetcher.candidates (Prefetcher.accessPatterns p))
                (Prefetcher.prefetchCache p)) as [loads c'].
    cbn [fst snd Prefetcher.accessPatterns] in *.
    pose proof (candidates_length (Prefetcher.accessPatterns p)).
    repeat split; try lia.
    + apply Hnd, candidates_nodup, Hwf.
    + intros x Hx. apply Hin, candidates_in in Hx.
      destruct Hx as (n & _ & Hx).
      now rewrite (jsmap_in_get _ _ _ Hwf Hx).
    + intros ->. discriminate Hq.
Qed.

Lemma prefetch_loads_bounded_witness :
  let p := Prefetcher.record_all
             ["a"; "b"; "c"; "d"; "e"; "f"; "a"; "f"]
             (Prefetcher.new (T := Z)) in
  let out := Prefetcher.prefetchLikelyResources (E := unit) (fun _ => true)
               (fun _ => Retry.Resolved 1) (fun _ => 0) (fun _ => 0)
               Network.good p in
  (length (fst out) <= 5)%nat /\ NoDup (fst out).
Proof.
  intros p out.
  destruct (prefetch_loads_bounded Z unit (fun _ => true)
              (fun _ => Retry.Resolved 1) (fun _ => 0) (fun _ => 0)
              Network.good p) as (H1 & H2 & _).
  - repeat constructor; simpl; intuition discriminate.
  - split; assumption.
Defined.

(** X15. The candidates for prefetching are the most accessed resources:
    every candidate has a count at least as large as that of every
    recorded resource that is not a candidate. *)
Theorem prefetch_candidates_are_top :
  forall (patterns : JsMap.t Z) (x y : string) (ny : Z),
    JsMap.wf patterns ->
    In x (Prefetcher.candidates patterns) ->
    JsMap.get y patterns = Some ny ->
    ~ In y (Prefetcher.candidates patterns) ->
    exists nx, JsMap.get x patterns = Some nx /\ ny <= nx.
Proof.
  intros patterns x y ny Hwf Hx Hy Hny.
  destruct (candidates_in patterns x Hx) as (nx & Hfirst & Hin).
  exists nx. split; [now apply jsmap_in_get|].
  apply jsmap_get_in in Hy.
  apply (Permutation_in _ (Permutation_sym (sort_by_count_perm patterns)))
    in Hy.
  rewrite <- (firstn_skipn 5 (Prefetcher.sort_by_count patterns)) in Hy.
  apply in_app_or in Hy. destruct Hy as [Hy | Hy].
  - exfalso. apply Hny. unfold Prefetcher.candidates.
    change y with (fst (y, ny)). now apply in_map.
  - pose proof (sort_by_count_sorted patterns) as Hs.
    rewrite <- (firstn_skipn 5 (Prefetcher.sort_by_count patterns)) in Hs.
    exact (sorted_split _ _ Hs (x, nx) (y, ny) Hfirst Hy).
Qed.

Lemma prefetch_candidates_are_top_witness :
  let patterns := [("a", 3); ("b", 1); ("c", 2); ("d", 5); ("e", 2);
                   ("f", 4); ("g", 1)] in
  Prefetcher.candidates patterns = ["d"; "f"; "a"; "c"; "e"]
  /\ exists nx, JsMap.get "e" patterns = Some nx /\ 1 <= nx.
Proof.
  intros patterns. split; [reflexivity|].
  apply (prefetch_candidates_are_top patterns "e" "g" 1).
  - repeat constructor; simpl; intuition discriminate.
  - simpl. intuition.
  - reflexivity.
  - simpl. intuition discriminate.
Defined.



(** ** BatchUpdateManager under arbitrary event sequences *)

Section BatchOpsFacts.
Context {D : Type}.
Variable sink : list (string * D) -> bool.
Implicit Types (w : Batch.World D).

Lemma processBatch_pending w :
  JsMap.wf (Batch.pendingUpdates (Batch.mgr w)) ->
  Batch.pendingUpdates (Batch.mgr (Batch.processBatch sink w))
  = if sink (Batch.pendingUpdates (Batch.mgr w)) then []
    else Batch.pendingUpdates (Batch.mgr w).
Proof.
  intros Hwf. unfold Batch.processBatch. rewrite processBatch_begin_spec.
  destruct (Batch.pendingUpdates (Batch.mgr w)) as [|e rest] eqn:Hp.
  - cbv beta iota zeta. rewrite Hp. now destruct (sink []).
  - cbv beta iota zeta. destruct (sink (e :: rest)); [reflexivity|].
    cbn [Batch.processBatch_catch Batch.with_mgr Batch.mgr
         Batch.pendingUpdates].
    apply (requeue_fresh (e :: rest) JsMap.empty). exact Hwf.
Qed.

Lemma step_timer_invariant w (op : BatchOps.Op D) :
  BatchOps.timer_invariant w ->
  BatchOps.timer_invariant (BatchOps.step sink w op).
Proof.
  intros [Hwf Htimers]. destruct op as [key d | h | ]; cbn [BatchOps.step].
  - (* addUpdate *)
    destruct (addUpdate_pending key d w) as (Hp & Ht & _ & _).
    split; [rewrite Hp; now apply jsmap_wf_set|].
    right. exists (Batch.next_handle w).
    split; [|split; [exact Ht | rewrite Hp; apply jsmap_set_nonempty]].
    unfold Batch.addUpdate.
    cbn [Batch.with_mgr Batch.mgr Batch.batchTimeout].
    destruct Htimers as [Hnil | (h & Hh & Hb & _)].
    + destruct (Batch.batchTimeout (Batch.mgr w)); cbn; now rewrite Hnil.
    + rewrite Hb. cbn. rewrite Hh. simpl.
      destruct (Nat.eq_dec h h); [reflexivity | contradiction].
  - (* the timer fires *)
    unfold Batch.fire.
    destruct (existsb (Nat.eqb h) (Batch.timers w)) eqn:Ex;
      [|split; assumption].
    assert (Hcleared : Batch.timers (Batch.clearTimeout h w) = []).
    { destruct Htimers as [Hnil | (h' & Hh & _)];
        cbn [Batch.clearTimeout Batch.timers].
      - now rewrite Hnil.
      - rewrite Hh in *. simpl in Ex. rewrite orb_false_r in Ex.
        apply Nat.eqb_eq in Ex. subst h'. simpl.
        destruct (Nat.eq_dec h h); [reflexivity | contradiction]. }
    split.
    + rewrite processBatch_pending by exact Hwf.
      cbn [Batch.clearTimeout Batch.mgr].
      destruct (sink _); [constructor | exact Hwf].
    + left. now rewrite processBatch_timers.
  - (* flush *)
    unfold Batch.flush.
    destruct (Batch.batchTimeout (Batch.mgr w)) as [h|] eqn:Hb in |- *;
      [|split; assumption].
    assert (Hcleared : Batch.timers (Batch.clearTimeout h w) = []).
    { destruct Htimers as [Hnil | (h' & Hh & Hb' & _)];
        cbn [Batch.clearTimeout Batch.timers].
      - now rewrite Hnil.
      - rewrite Hh. assert (h' = h) by congruence. subst h'. simpl.
        destruct (Nat.eq_dec h h); [reflexivity | contradiction]. }
    split.
    + rewrite processBatch_pending by exact Hwf.
      cbn [Batch.clearTimeout Batch.mgr].
      destruct (sink _); [constructor | exact Hwf].
    + left. now rewrite processBatch_timers.
Qed.

Lemma run_timer_invariant (ops : list (BatchOps.Op D)) :
  forall w, BatchOps.timer_invariant w ->
            BatchOps.timer_invariant (BatchOps.run sink ops w).
Proof.
  induction ops as [|op ops IH]; intros w H; [exact H|].
  cbn [BatchOps.run fold_left]. apply IH. now apply step_timer_invariant.
Qed.

Lemma new_timer_invariant (batchDelay : Z) :
  BatchOps.timer_invariant (Batch.new (D := D) batchDelay).
Proof. split; [constructor | now left]. Qed.

End BatchOpsFacts.

(** X17. After any sequence of [addUpdate], timer and [flush] events on a
    fresh manager, whatever the sink answers, at most one debounce timer is
    armed; if one is armed it is the timer the manager holds in
    [batchTimeout] and at least one update is pending; and the pending map
    has no duplicate key. *)
Theorem batch_single_timer :
  forall (D : Type) (sink : list (string * D) -> bool)
         (ops : list (BatchOps.Op D)) (batchDelay : Z),
    let w := BatchOps.run sink ops (Batch.new batchDelay) in
    JsMap.wf (Batch.pendingUpdates (Batch.mgr w))
    /\ (Batch.timers w = []
        \/ exists h, Batch.timers w = [h]
                     /\ Batch.batchTimeout (Batch.mgr w) = Some h
                     /\ Batch.pendingUpdates (Batch.mgr w) <> []).
Proof.
  intros D sink ops batchDelay.
  exact (run_timer_invariant sink ops _ (new_timer_invariant batchDelay)).
Qed.

Section BatchAsyncFacts.
Context {D : Type}.
Implicit Types (s : BatchAsync.State D) (e : BatchAsync.Event D).

Lemma remove_nth_split {A : Type} (l1 l2 : list A) (a : A) :
  BatchAsync.remove_nth (length l1) (l1 ++ a :: l2) = l1 ++ l2.
Proof.
  unfold BatchAsync.remove_nth.
  rewrite firstn_app, firstn_all, Nat.sub_diag, app_nil_r.
  rewrite skipn_app, skipn_all2 by lia.
  replace (S (length l1) - length l1)%nat with 1%nat by lia.
  reflexivity.
Qed.

Lemma in_remove_nth {A : Type} (l : list A) (i : nat) (a b : A) :
  nth_error l i = Some a ->
  (In b l -> b = a \/ In b (BatchAsync.remove_nth i l))
  /\ (In b (BatchAsync.remove_nth i l) -> In b l).
Proof.
  intros Hnth. apply nth_error_split in Hnth.
  destruct Hnth as (l1 & l2 & -> & <-). rewrite remove_nth_split.
  split; intros H; apply in_app_or in H.
  - destruct H as [H | [<- | H]]; [right | now left | right];
      apply in_or_app; tauto.
  - apply in_or_app. destruct H as [H | H]; [now left | right; now right].
Qed.

(** What a timer callback or [flush()] leaves behind, in terms of the
    pending map before it. *)
Lemma started_cases s (r : option (list (string * D)) * Batch.World D)
    (w : Batch.World D) :
  Batch.pendingUpdates (Batch.mgr w) = BatchAsync.pending s ->
  r = Batch.processBatch_begin w \/ r = (None, BatchAsync.world s) ->
  (BatchAsync.pending (BatchAsync.started s r) = BatchAsync.pending s
   /\ BatchAsync.in_flight (BatchAsync.started s r) = BatchAsync.in_flight s
   /\ BatchAsync.accepted (BatchAsync.started s r) = BatchAsync.accepted s)
  \/ (BatchAsync.pending s <> []
      /\ BatchAsync.pending (BatchAsync.started s r) = []
      /\ BatchAsync.in_flight (BatchAsync.started s r)
         = BatchAsync.in_flight s ++ [BatchAsync.pending s]
      /\ BatchAsync.accepted (BatchAsync.started s r) = BatchAsync.accepted s).
Proof.
  intros Hw [-> | ->]; [|left; repeat split].
  destruct (processBatch_begin_cases w)
    as [[Hnil ->] | (Hne & w1 & -> & Hp1 & _)];
    unfold BatchAsync.started, BatchAsync.pending in *;
    cbn [BatchAsync.world BatchAsync.in_flight BatchAsync.accepted].
  - left. repeat split. exact Hw.
  - right. rewrite Hw in *. repeat split; assumption.
Qed.

Lemma fire_started s (h : Batch.handle) :
  exists w,
    Batch.pendingUpdates (Batch.mgr w) = BatchAsync.pending s
    /\ (Batch.fire_begin h (BatchAsync.world s) = Batch.processBatch_begin w
        \/ Batch.fire_begin h (BatchAsync.world s)
           = (None, BatchAsync.world s)).
Proof.
  exists (Batch.clearTimeout h (BatchAsync.world s)).
  split; [reflexivity|]. unfold Batch.fire_begin.
  destruct (existsb _ _); [now left | now right].
Qed.

Lemma flush_started s :
  exists w,
    Batch.pendingUpdates (Batch.mgr w) = BatchAsync.pending s
    /\ (Batch.flush_begin (BatchAsync.world s) = Batch.processBatch_begin w
        \/ Batch.flush_begin (BatchAsync.world s)
           = (None, BatchAsync.world s)).
Proof.
  unfold Batch.flush_begin.
  destruct (Batch.batchTimeout (Batch.mgr (BatchAsync.world s))) as [h|].
  - exists (Batch.clearTimeout h (BatchAsync.world s)).
    split; [reflexivity | now left].
  - exists (BatchAsync.world s). split; [reflexivity | now right].
Qed.

Lemma step_well_formed s e :
  BatchAsync.well_formed s -> BatchAsync.well_formed (BatchAsync.step s e).
Proof.
  intros [Hp Hf].
  assert (Hstarted : forall r w,
             Batch.pendingUpdates (Batch.mgr w) = BatchAsync.pending s ->
             r = Batch.processBatch_begin w \/ r = (None, BatchAsync.world s) ->
             BatchAsync.well_formed (BatchAsync.started s r)).
  { intros r w Hw Hr.
    destruct (started_cases s r w Hw Hr)
      as [(E1 & E2 & _) | (_ & E1 & E2 & _)];
      unfold BatchAsync.well_formed; rewrite E1, E2.
    - now split.
    - split; [constructor|]. apply Forall_app. split; [exact Hf|].
      now constructor. }
  destruct e as [key d | h | | i ok]; cbn [BatchAsync.step].
  - split; [|exact Hf]. unfold BatchAsync.pending.
    cbn [BatchAsync.world].
    destruct (addUpdate_pending key d (BatchAsync.world s)) as (-> & _).
    now apply jsmap_wf_set.
  - destruct (fire_started s h) as (w & Hw & Hr). now apply (Hstarted _ w).
  - destruct (flush_started s) as (w & Hw & Hr). now apply (Hstarted _ w).
  - destruct (nth_error (BatchAsync.in_flight s) i) as [updates|] eqn:Hnth;
      [|now split].
    assert (Hrest : Forall JsMap.wf
                      (BatchAsync.remove_nth i (BatchAsync.in_flight s))).
    { rewrite Forall_forall in *. intros b Hb. apply Hf.
      now apply (in_remove_nth _ i updates b Hnth). }
    destruct ok; split; try exact Hrest; try exact Hp.
    unfold BatchAsync.pending.
    cbn [BatchAsync.world Batch.processBatch_catch Batch.with_mgr Batch.mgr
         Batch.pendingUpdates].
    now apply requeue_wf.
Qed.

(** A payload that is held after an event was held before it, or is the
    one the event added. *)
Lemma step_holds_back s e (key : string) (d : D) :
  BatchAsync.well_formed s ->
  BatchAsync.holds (BatchAsync.step s e) key d ->
  BatchAsync.holds s key d \/ e = BatchAsync.Add key d.
Proof.
  intros [Hp Hf] Hholds.
  assert (Hstarted : forall r w,
             Batch.pendingUpdates (Batch.mgr w) = BatchAsync.pending s ->
             r = Batch.processBatch_begin w \/ r = (None, BatchAsync.world s) ->
             BatchAsync.holds (BatchAsync.started s r) key d ->
             BatchAsync.holds s key d).
  { intros r w Hw Hr. unfold BatchAsync.holds.
    destruct (started_cases s r w Hw Hr)
      as [(E1 & E2 & E3) | (_ & E1 & E2 & E3)]; rewrite E1, E2, E3;
      [tauto|].
    intros [H | [(b & Hin & Hb) | H]]; [discriminate H | | tauto].
    apply in_app_or in Hin. destruct Hin as [Hin | [<- | []]]; [|tauto].
    right. left. eauto. }
  destruct e as [k' d' | h | | i ok]; cbn [BatchAsync.step] in Hholds.
  - unfold BatchAsync.holds, BatchAsync.pending in *.
    cbn [BatchAsync.world BatchAsync.in_flight BatchAsync.accepted] in Hholds.
    destruct (addUpdate_pending k' d' (BatchAsync.world s)) as (E & _).
    rewrite E in Hholds.
    destruct Hholds as [H | H]; [|left; tauto].
    destruct (String.eqb_spec key k') as [-> | Hne].
    + rewrite jsmap_get_set_same in H. injection H as ->. now right.
    + rewrite jsmap_get_set_other in H by congruence. left. now left.
  - left. destruct (fire_started s h) as (w & Hw & Hr).
    now apply (Hstarted _ w Hw Hr).
  - left. destruct (flush_started s) as (w & Hw & Hr).
    now apply (Hstarted _ w Hw Hr).
  - left.
    destruct (nth_error (BatchAsync.in_flight s) i) as [updates|] eqn:Hnth;
      [|exact Hholds].
    assert (Hu : In updates (BatchAsync.in_flight s))
      by (eapply nth_error_In; exact Hnth).
    assert (Hwfu : JsMap.wf updates)
      by (rewrite Forall_forall in Hf; now apply Hf).
    unfold BatchAsync.holds, BatchAsync.pending in *.
    destruct ok;
      cbn [BatchAsync.world BatchAsync.in_flight BatchAsync.accepted
           Batch.processBatch_catch Batch.with_mgr Batch.mgr
           Batch.pendingUpdates] in Hholds.
    + destruct Hholds as [H | [(b & Hin & Hb) | (b & Hin & Hb)]];
        [now left | |].
      * right. left. exists b. split; [|exact Hb].
        now apply (in_remove_nth _ i updates b Hnth).
      * apply in_app_or in Hin. destruct Hin as [Hin | [<- | []]].
        -- right. right. eauto.
        -- right. left. eauto.
    + destruct Hholds as [H | [(b & Hin & Hb) | H]]; [| | tauto].
      * rewrite requeue_get_spec in H by exact Hwfu.
        destruct (JsMap.get key updates) as [v|] eqn:G; [|now left].
        injection H as ->. right. left. eauto.
      * right. left. exists b. split; [|exact Hb].
        now apply (in_remove_nth _ i updates b Hnth).
Qed.

(** A key that is held stays held, possibly with another payload. *)
Lemma step_holds_forward s e (key : string) (d : D) :
  BatchAsync.well_formed s ->
  BatchAsync.holds s key d ->
  exists d', BatchAsync.holds (BatchAsync.step s e) key d'.
Proof.
  intros [Hp Hf] Hholds.
  assert (Hstarted : forall r w,
             Batch.pendingUpdates (Batch.mgr w) = BatchAsync.pending s ->
             r = Batch.processBatch_begin w \/ r = (None, BatchAsync.world s) ->
             BatchAsync.holds (BatchAsync.started s r) key d).
  { intros r w Hw Hr. unfold BatchAsync.holds in *.
    destruct (started_cases s r w Hw Hr)
      as [(E1 & E2 & E3) | (_ & E1 & E2 & E3)]; rewrite E1, E2, E3;
      [tauto|].
    destruct Hholds as [H | [(b & Hin & Hb) | H]]; [| | tauto].
    - right. left. exists (BatchAsync.pending s).
      split; [apply in_or_app; right; now left | exact H].
    - right. left. exists b. split; [apply in_or_app; now left | exact Hb]. }
  destruct e as [k' d' | h | | i ok]; cbn [BatchAsync.step].
  - unfold BatchAsync.holds, BatchAsync.pending in *.
    cbn [BatchAsync.world BatchAsync.in_flight BatchAsync.accepted].
    destruct (addUpdate_pending k' d' (BatchAsync.world s)) as (E & _).
    rewrite E.
    destruct Hholds as [H | H]; [|exists d; tauto].
    destruct (String.eqb_spec key k') as [-> | Hne].
    + exists d'. left. apply jsmap_get_set_same.
    + exists d. left. now rewrite jsmap_get_set_other by congruence.
  - exists d. destruct (fire_started s h) as (w & Hw & Hr).
    now apply (Hstarted _ w Hw Hr).
  - exists d. destruct (flush_started s) as (w & Hw & Hr).
    now apply (Hstarted _ w Hw Hr).
  - destruct (nth_error (BatchAsync.in_flight s) i) as [updates|] eqn:Hnth;
      [|now exists d].
    assert (Hu : In updates (BatchAsync.in_flight s))
      by (eapply nth_error_In; exact Hnth).
    assert (Hwfu : JsMap.wf updates)
      by (rewrite Forall_forall in Hf; now apply Hf).
    unfold BatchAsync.holds, BatchAsync.pending in *.
    destruct ok;
      cbn [BatchAsync.world BatchAsync.in_flight BatchAsync.accepted
           Batch.processBatch_catch Batch.with_mgr Batch.mgr
           Batch.pendingUpdates].
    + exists d.
      destruct Hholds as [H | [(b & Hin & Hb) | (b & Hin & Hb)]];
        [now left | |].
      * destruct (proj1 (in_remove_nth _ i updates b Hnth) Hin) as [-> | Hin'].
        -- right. right. exists updates.
           split; [apply in_or_app; right; now left | exact Hb].
        -- right. left. eauto.
      * right. right. exists b. split; [apply in_or_app; now left | exact Hb].
    + destruct Hholds as [H | [(b & Hin & Hb) | H]].
      * destruct (JsMap.get key updates) as [v|] eqn:G.
        -- exists v. left. now apply requeue_get.
        -- exists d. left. now rewrite requeue_get_other.
      * destruct (proj1 (in_remove_nth _ i updates b Hnth) Hin) as [-> | Hin'].
        -- exists d. left. now apply requeue_get.
        -- exists d. right. left. eauto.
      * exists d. tauto.
Qed.

Lemma step_add_holds s (key : string) (d : D) :
  BatchAsync.holds (BatchAsync.step s (BatchAsync.Add key d)) key d.
Proof.
  left. unfold BatchAsync.pending. cbn [BatchAsync.step BatchAsync.world].
  destruct (addUpdate_pending key d (BatchAsync.world s)) as (-> & _).
  apply jsmap_get_set_same.
Qed.

(** On a fresh manager, after any events: no duplicate keys; every payload
    held for [key] was passed to [addUpdate] for it; and if [addUpdate] was
    called for [key], some payload is held for it. *)
Lemma run_holds (batchDelay : Z) (key : string)
    (events : list (BatchAsync.Event D)) :
  let s := BatchAsync.run events (BatchAsync.new batchDelay) in
  BatchAsync.well_formed s
  /\ (forall d, BatchAsync.holds s key d -> In (BatchAsync.Add key d) events)
  /\ ((exists d, In (BatchAsync.Add key d) events) ->
      exists d, BatchAsync.holds s key d).
Proof.
  induction events as [|e events IH] using rev_ind; cbv zeta.
  - split; [split; constructor | split].
    + intros d [H | [(b & [] & _) | (b & [] & _)]]. discriminate H.
    + intros (d & []).
  - unfold BatchAsync.run in *. rewrite fold_left_app. cbn [fold_left].
    cbv zeta in IH. destruct IH as (Hwf & Hback & Hfwd).
    split; [now apply step_well_formed | split].
    + intros d Hd. apply in_or_app.
      destruct (step_holds_back _ e key d Hwf Hd) as [H | ->];
        [left; now apply Hback | right; now left].
    + intros (d & Hin). apply in_app_or in Hin.
      destruct Hin as [Hin | [-> | []]].
      * destruct (Hfwd (ex_intro _ d Hin)) as (d1 & Hd1).
        now apply (step_holds_forward _ e key d1 Hwf).
      * exists d. apply step_add_holds.
Qed.

End BatchAsyncFacts.

(** X18. No key is forgotten, whatever the interleaving: after any
    sequence of [addUpdate] calls, timers firing, [flush()] calls and sink
    promises settling on a fresh manager, a key that was passed to
    [addUpdate] is pending, in a batch that the sink has not settled yet
    or in a batch that the sink accepted, with a payload that was passed
    to [addUpdate] for that key, not necessarily the latest one. *)
Theorem batch_no_key_forgotten :
  forall (D : Type) (events : list (BatchAsync.Event D)) (batchDelay : Z)
         (key : string) (d0 : D),
    In (BatchAsync.Add key d0) events ->
    let s := BatchAsync.run events (BatchAsync.new batchDelay) in
    exists d, In (BatchAsync.Add key d) events /\ BatchAsync.holds s key d.
Proof.
  intros D events batchDelay key d0 Hin s.
  destruct (run_holds batchDelay key events) as (_ & Hback & Hfwd).
  destruct (Hfwd (ex_intro _ d0 Hin)) as (d & Hd).
  exists d. split; [now apply Hback | exact Hd].
Qed.

Lemma batch_no_key_forgotten_witness :
  let events := [BatchAsync.Add "bus_1" 7; BatchAsync.Fire 1%nat;
                 BatchAsync.Add "bus_1" 9; BatchAsync.Settle 0 false] in
  let s := BatchAsync.run events (BatchAsync.new 3000) in
  exists d, In (BatchAsync.Add "bus_1" d) events
            /\ BatchAsync.holds s "bus_1" d.
Proof.
  intros events s.
  apply (batch_no_key_forgotten Z events 3000 "bus_1" 7).
  cbn. now left.
Defined.

(** The payload that is kept need not be the latest: [bus_1 = 9], added
    while the sink was awaited for [bus_1 = 7], is overwritten when the
    sink rejects, and the timer armed for it stays. *)
Example batch_requeue_overwrites_newer :
  let events := [BatchAsync.Add "bus_1" 7; BatchAsync.Fire 1%nat;
                 BatchAsync.Add "bus_1" 9; BatchAsync.Settle 0 false] in
  let s := BatchAsync.run events (BatchAsync.new 3000) in
  BatchAsync.pending s = [("bus_1", 7)]
  /\ BatchAsync.in_flight s = []
  /\ BatchAsync.accepted s = []
  /\ Batch.batchTimeout (Batch.mgr (BatchAsync.world s)) = Some 2%nat
  /\ Batch.sent (BatchAsync.world s) = [[("bus_1", 7)]].
Proof. cbv zeta. repeat split. Qed.

(** X19. Updates added before the timer fires are coalesced: after a
    non-empty run of [addUpdate] calls on a fresh manager exactly one timer
    is armed, every key is pending with the payload of its last call, and
    a [flush()] hands all of it to the sink as one batch. *)
Theorem batch_coalesces_updates :
  forall (D : Type) (sink : list (string * D) -> bool)
         (adds : list (string * D)) (batchDelay : Z),
    adds <> [] ->
    let ops := map (fun e => BatchOps.Add (fst e) (snd e)) adds in
    let w := BatchOps.run sink ops (Batch.new batchDelay) in
    (exists h, Batch.timers w = [h])
    /\ (forall key, JsMap.get key (Batch.pendingUpdates (Batch.mgr w))
                    = BatchOps.last_added key ops None)
    /\ Batch.sent w = []
    /\ Batch.sent (Batch.flush sink w) = [Batch.pendingUpdates (Batch.mgr w)].
Proof.
  intros D sink adds batchDelay Hne ops w.
  assert (Hgen : forall (l : list (string * D)) (w0 : Batch.World D),
             let w1 := BatchOps.run sink
                         (map (fun e => BatchOps.Add (fst e) (snd e)) l) w0 in
             Batch.sent w1 = Batch.sent w0
             /\ (forall key,
                   JsMap.get key (Batch.pendingUpdates (Batch.mgr w1))
                   = BatchOps.last_added key
                       (map (fun e => BatchOps.Add (fst e) (snd e)) l)
                       (JsMap.get key (Batch.pendingUpdates (Batch.mgr w0))))
             /\ (l <> [] ->
                 Batch.batchTimeout (Batch.mgr w1) <> None
                 /\ Batch.pendingUpdates (Batch.mgr w1) <> []
                 /\ Batch.timers w1 <> [])).
  { induction l as [|[k d] l IH]; intros w0; cbn zeta.
    - cbn. repeat split; tauto.
    - cbn [map BatchOps.run fold_left BatchOps.step fst snd
           BatchOps.last_added].
      destruct (IH (Batch.addUpdate k d w0)) as (Hs & Hg & Ht).
      destruct (addUpdate_pending k d w0) as (Hp & Hb & Hs0 & Hin).
      unfold BatchOps.run in *. split; [|split].
      + now rewrite Hs.
      + intros key. rewrite Hg, Hp. f_equal.
        destruct (String.eqb_spec key k) as [-> | Hk].
        * apply jsmap_get_set_same.
        * apply jsmap_get_set_other. congruence.
      + intros _. destruct l as [|e l]; [|apply Ht; discriminate].
        cbn [map fold_left]. split; [|split].
        * rewrite Hb. discriminate.
        * rewrite Hp. apply jsmap_set_nonempty.
        * intros Hnil. rewrite Hnil in Hin. contradiction. }
  destruct (Hgen adds (Batch.new batchDelay)) as (Hs & Hg & Ht).
  fold ops in Hs, Hg, Ht. fold w in Hs, Hg, Ht.
  destruct (Ht Hne) as (Hb & Hp & Htm).
  destruct (run_timer_invariant sink ops _ (new_timer_invariant batchDelay))
    as [_ Htimers].
  fold w in Htimers.
  split; [|split; [exact Hg | split; [exact Hs|]]].
  - destruct Htimers as [Hnil | (h & Hh & _)]; [contradiction | eauto].
  - unfold Batch.flush.
    destruct (Batch.batchTimeout (Batch.mgr w)) as [h|]; [|contradiction].
    destruct (processBatch_sends sink (Batch.clearTimeout h w) Hp) as [H _].
    rewrite H. cbn [Batch.clearTimeout Batch.sent Batch.mgr]. now rewrite Hs.
Qed.

Lemma batch_coalesces_updates_witness :
  let adds := [("bus_1", 1); ("bus_2", 2); ("bus_1", 3)] in
  let w := BatchOps.run (fun _ => true)
             (map (fun e => BatchOps.Add (fst e) (snd e)) adds)
             (Batch.new 2000) in
  Batch.sent (Batch.flush (fun _ => true) w)
  = [Batch.pendingUpdates (Batch.mgr w)]
  /\ Batch.pendingUpdates (Batch.mgr w) = [("bus_1", 3); ("bus_2", 2)].
Proof.
  intros adds w.
  destruct (batch_coalesces_updates Z (fun _ => true) adds 2000)
    as (_ & _ & _ & H); [discriminate|].
  split; [exact H | reflexivity].
Defined.

(** ** OfflineManager: what a reconnect replays *)

Section ReplayAll.
Context {D : Type}.
Variables (proc : Offline.Item D -> bool) (clock : nat -> Z).

Lemma replay_all_resolve (queue : list (Offline.Item D)) :
  (forall item, In item queue -> proc item = true) ->
  forall i : nat,
    Offline.replay proc clock i queue
    = (map snd
         (filter (fun e => negb (clock (fst e) - Offline.timestamp (snd e)
                                 >? 3600000))
                 (combine (seq i (length queue)) queue)),
       true).
Proof.
  induction queue as [|x queue IH]; intros Hproc i; [reflexivity|].
  cbn [Offline.replay length seq combine filter fst snd].
  destruct (clock i - Offline.timestamp x >? 3600000); cbn [negb].
  - apply IH. intros item H. apply Hproc. now right.
  - rewrite (Hproc x) by now left.
    rewrite IH by (intros item H; apply Hproc; now right).
    reflexivity.
Qed.

Lemma replayed_in_queue (queue : list (Offline.Item D)) :
  forall (i : nat) (item : Offline.Item D),
    In item (fst (Offline.replay proc clock i queue)) -> In item queue.
Proof.
  induction queue as [|x queue IH]; intros i item Hin; simpl in Hin;
    [contradiction|].
  destruct (clock i - Offline.timestamp x >? 3600000).
  - right. now apply (IH (S i)).
  - destruct (proc x); [|contradiction].
    specialize (IH (S i) item).
    destruct (Offline.replay proc clock (S i) queue) as [done ok].
    simpl in Hin. destruct Hin as [<- | Hin]; [now left | right; auto].
Qed.

End ReplayAll.

(** X20. When every replay resolves, a reconnect replays, in queue order,
    exactly the queued writes that are at most one hour old when their
    turn comes, and leaves the queue empty and the manager online. *)
Theorem offline_reconnect_replays_fresh :
  forall (D : Type) (proc : Offline.Item D -> bool) (clock : nat -> Z)
         (m : Offline.OfflineManager D),
    (forall item, In item (Offline.offlineQueue m) -> proc item = true) ->
    let out := Offline.on_online proc clock (fun x => x) m in
    snd out
    = map snd
        (filter (fun e => negb (clock (fst e) - Offline.timestamp (snd e)
                                >? 3600000))
                (combine (seq 0 (length (Offline.offlineQueue m)))
                         (Offline.offlineQueue m)))
    /\ Offline.offlineQueue (fst out) = []
    /\ Offline.isOnline (fst out) = true.
Proof.
  intros D proc clock m Hproc out.
  unfold out, Offline.on_online, Offline.processOfflineQueue.
  cbn [Offline.offlineQueue Offline.isOnline Offline.maxQueueSize].
  destruct (Offline.offlineQueue m) as [|x q] eqn:Hq;
    [cbn; repeat split; reflexivity|].
  cbn [length Nat.eqb].
  rewrite (replay_all_resolve proc clock (x :: q) Hproc 0).
  cbn [fst snd Offline.with_queue Offline.offlineQueue Offline.isOnline].
  repeat split; reflexivity.
Qed.

Lemma offline_reconnect_replays_fresh_witness :
  let old := Offline.mkItem "bus_1" 1 0 in
  let fresh := Offline.mkItem "bus_2" 2 7000000 in
  let out := Offline.on_online (fun _ => true) (fun _ => 7200000)
               (fun x => x) (Offline.mk false [old; fresh] 100) in
  snd out = [fresh] /\ Offline.offlineQueue (fst out) = [].
Proof.
  intros old fresh out.
  destruct (offline_reconnect_replays_fresh Z (fun _ => true)
              (fun _ => 7200000) (Offline.mk false [old; fresh] 100))
    as (H1 & H2 & _).
  - reflexivity.
  - split; [exact H1 | exact H2].
Defined.

(** X21. A queued write that is more than one hour old whenever the clock
    is read is never replayed by a reconnect, and nothing is replayed that
    was not in the queue. *)
Theorem offline_stale_never_replayed :
  forall (D : Type) (proc : Offline.Item D -> bool) (clock : nat -> Z)
         (meanwhile : Offline.OfflineManager D -> Offline.OfflineManager D)
         (m : Offline.OfflineManager D) (item : Offline.Item D),
    In item (snd (Offline.on_online proc clock meanwhile m)) ->
    In item (Offline.offlineQueue m)
    /\ exists i, clock i - Offline.timestamp item <= 3600000.
Proof.
  intros D proc clock meanwhile m item.
  unfold Offline.on_online, Offline.processOfflineQueue.
  cbn [Offline.offlineQueue].
  destruct (length (Offline.offlineQueue m) =? 0)%nat;
    [intros []|].
  pose proof (replay_skips_stale proc clock (Offline.offlineQueue m) 0 item)
    as Hfresh.
  pose proof (replayed_in_queue proc clock (Offline.offlineQueue m) 0 item)
    as Hin.
  destruct (Offline.replay proc clock 0 (Offline.offlineQueue m))
    as [done ok].
  cbn [fst] in Hfresh, Hin.
  destruct ok; cbn [snd]; intros H;
    (split; [now apply Hin |
             destruct (Hfresh H) as (j & _ & Hj & _); now exists j]).
Qed.

Lemma offline_stale_never_replayed_witness :
  let fresh := Offline.mkItem "bus_2" 2 7000000 in
  exists i, (fun _ : nat => 7200000) i - Offline.timestamp fresh <= 3600000.
Proof.
  intros fresh.
  apply (offline_stale_never_replayed Z (fun _ => true) (fun _ => 7200000)
           (fun x => x)
           (Offline.mk false [Offline.mkItem "bus_1" 1 0; fresh] 100) fresh).
  cbn. now left.
Defined.

(** X22. While offline, whatever the number of writes enqueued into an
    empty queue of capacity at least 1, the queue afterwards is the last
    [maxQueueSize] of them (all of them if fewer), in the order they were
    enqueued, each stamped with the time of its call. *)
Theorem offline_queue_keeps_newest :
  forall (D : Type) (cap : Z) (fuel : nat) (items : list (Offline.Item D)),
    1 <= cap ->
    (Z.to_nat cap <= fuel)%nat ->
    Offline.queue_all fuel items (Offline.new false cap)
    = Some (Offline.mk false (skipn (length items - Z.to_nat cap) items) cap).
Proof.
  intros D cap fuel items Hcap Hfuel. now apply queue_all_offline.
Qed.

Lemma offline_queue_keeps_newest_witness :
  Offline.queue_all 3
    [Offline.mkItem "a" 1 10; Offline.mkItem "b" 2 20; Offline.mkItem "c" 3 30;
     Offline.mkItem "d" 4 40; Offline.mkItem "e" 5 50]
    (Offline.new false 3)
  = Some (Offline.mk false
            [Offline.mkItem "c" 3 30; Offline.mkItem "d" 4 40;
             Offline.mkItem "e" 5 50] 3).
Proof.
  apply (offline_queue_keeps_newest Z 3 3); lia.
Defined.



(** ** The bus codec on arbitrary records *)




(** X23. For every bus record and clock reading,
    [decompressBusData(compressBusData(r))] is a record with the same
    [busId] and none of the properties that the codec does not name; its
    status is 1 to 10 UTF-16 code units long: the first 10 code units of
    a non-empty original, "unknown" for a missing or empty one; its speed
    and heading, when not [null], are [Math.round] of a truthy original;
    and its [updatedAt] is the original when that is present and truthy,
    the clock reading otherwise. *)
Theorem codec_round_trip_bounds :
  forall (Other : Type) (now : JsNumber.number) (r : BusCodec.BusData Other),
  exists r' : BusCodec.BusData Other,
    BusCodec.decompressBusData (BusCodec.compressBusData now (Some r))
    = Some r'
    /\ BusCodec.busId r' = BusCodec.busId r
    /\ BusCodec.others r' = []
    /\ (exists s', BusCodec.status r' = Some s'
                   /\ (1 <= JsString.length s' <= 10)%nat
                   /\ (forall s, BusCodec.status r = Some s -> s <> [] ->
                                 s' = JsString.substring_from_0 10 s)
                   /\ (BusCodec.status r = None \/ BusCodec.status r = Some []
                       -> s' = JsString.of_ascii "unknown"))
    /\ (forall v', BusCodec.speed r' = Some v' ->
          exists v, BusCodec.speed r = Some v /\ JsNumber.truthy v = true
                    /\ v' = JsNumber.Math_round v)
    /\ (forall v', BusCodec.heading r' = Some v' ->
          exists v, BusCodec.heading r = Some v /\ JsNumber.truthy v = true
                    /\ v' = JsNumber.Math_round v)
    /\ BusCodec.updatedAt r'
       = Some (match BusCodec.updatedAt r with
               | Some u => if JsNumber.truthy u then u else now
               | None => now
               end).
Proof.
  intros Other now r. eexists. split; [reflexivity|].
  cbn [BusCodec.busId BusCodec.lat BusCodec.lon BusCodec.speed
       BusCodec.heading BusCodec.status BusCodec.updatedAt BusCodec.others
       BusCodec.id BusCodec.c_lat BusCodec.c_lon BusCodec.spd BusCodec.hdg
       BusCodec.sts BusCodec.upd].
  split; [reflexivity | split; [reflexivity | split; [|split; [|split]]]].
  - exists (BusCodec.truncate_status (BusCodec.status r)).
    split; [reflexivity | split; [apply status_length | split]].
    + intros s -> Hs. unfold BusCodec.truncate_status.
      destruct s as [|c s]; [contradiction | reflexivity].
    + intros [-> | ->]; reflexivity.
  - apply round_if_truthy_some.
  - apply round_if_truthy_some.
  - reflexivity.
Qed.



(** ** compressAdminData / decompressAdminData *)

Section AdminCodecFacts.
Import AdminCodec.




(** The expansion of any key is never one of the short aliases. *)
Lemma originalKey_not_short (key : string) :
  table_get (originalKey key) reverseMappings = None.
Proof.
  unfold originalKey, table_get at 2, reverseMappings. cbn [JsMap.get].
  repeat match goal with
         | |- context [String.eqb key ?c] =>
             destruct (String.eqb_spec key c) as [-> | ?]; [reflexivity|]
         end.
  unfold table_get, reverseMappings. cbn [JsMap.get].
  repeat match goal with
         | H : key <> ?c |- context [String.eqb key ?c] =>
             destruct (String.eqb_spec key c) as [-> | _]; [contradiction|]
         end.
  reflexivity.
Qed.

End AdminCodecFacts.

Section AdminRoundTrip.
Import AdminCodec.




End AdminRoundTrip.

Section AdminRoundTripMain.
Import AdminCodec.








End AdminRoundTripMain.


Section AdminKeys.
Import AdminCodec.

Lemma jsmap_keys_set_in {V : Type} (k k0 : string) (v : V) (m : JsMap.t V) :
  In k (JsMap.keys (JsMap.set k0 v m)) -> k = k0 \/ In k (JsMap.keys m).
Proof.
  induction m as [|[k' v'] rest IH]; cbn.
  - intros [<- | []]. now left.
  - destruct (String.eqb_spec k0 k') as [-> | Hne]; cbn.
    + intros [<- | H]; [now left | right; now right].
    + intros [<- | H]; [right; now left|].
      destruct (IH H) as [-> | Hin]; [now left | right; now right].
Qed.

Lemma decompress_fields_keys (fields acc : list (string * value)) (k : string) :
  In k (JsMap.keys (decompress_fields decompressAdminData fields acc)) ->
  In k (JsMap.keys acc) \/ In k (map originalKey (map fst fields)).
Proof.
  revert acc. induction fields as [|[k0 v0] rest IH]; intros acc; cbn.
  - now left.
  - intros H. destruct (IH _ H) as [Hacc | Hrest]; [|right; now right].
    apply jsmap_keys_set_in in Hacc.
    destruct Hacc as [-> | Hacc]; [right; now left | now left].
Qed.

Lemma compress_fields_get_other (fields acc : list (string * value))
    (k : string) :
  ~ In k (map compressedKey (map fst fields)) ->
  JsMap.get k (compress_fields compressAdminData fields acc) = JsMap.get k acc.
Proof.
  revert acc. induction fields as [|[k0 v0] rest IH]; intros acc Hk;
    [reflexivity|].
  cbn [compress_fields]. cbn [map fst] in Hk.
  rewrite IH by (intros H; apply Hk; now right).
  assert (Hne : compressedKey k0 <> k) by (intros E; apply Hk; now left).
  unfold compress_entry.
  destruct (not_nullish v0); [|reflexivity].
  destruct v0; try (now apply jsmap_get_set_other).
  destruct (50 <? String.length s)%nat; now apply jsmap_get_set_other.
Qed.

Lemma truncate_text_length (s : string) :
  (50 < String.length s)%nat -> String.length (truncate_text s) = 53%nat.
Proof.
  intros H. unfold truncate_text.
  assert (Happ : forall a b, String.length (String.append a b)
                             = (String.length a + String.length b)%nat).
  { induction a as [|c a IHa]; intros b; cbn; [reflexivity|].
    now rewrite IHa. }
  assert (Hsub : forall n t, (n <= String.length t)%nat ->
                             String.length (String.substring 0 n t) = n).
  { induction n as [|n IHn]; intros [|c t] Hn; cbn in *; try lia.
    rewrite IHn; lia. }
  rewrite Happ, Hsub by lia. reflexivity.
Qed.

End AdminKeys.

(** X26. No property of an object returned by [decompressAdminData] is
    named like a short alias: a field whose name is one of bn, cap, mdl,
    yr, sts, rn, sp, ep, dst, et, fr, oh, stp, lat, lon, ca, ua, lm, nm
    comes back under the long name, also when it was never compressed. *)
Theorem admin_decompress_expands_aliases :
  forall (fields fields' : list (string * AdminCodec.value)) (key : string),
    Forall (fun k => AdminCodec.ordinary_key k = true) (map fst fields) ->
    AdminCodec.decompressAdminData (AdminCodec.VObj fields)
    = AdminCodec.VObj fields' ->
    In key (map fst fields') ->
    AdminCodec.table_get key AdminCodec.reverseMappings = None
    /\ exists key0, In key0 (map fst fields)
                    /\ key = AdminCodec.originalKey key0.
Proof.
  intros fields fields' key _ Hd Hin.
  cbn [AdminCodec.decompressAdminData AdminCodec.truthy negb] in Hd.
  injection Hd as <-.
  apply decompress_fields_keys in Hin. destruct Hin as [[] | Hin].
  apply in_map_iff in Hin. destruct Hin as (key0 & <- & Hkey0).
  split; [apply originalKey_not_short | eauto].
Qed.

Lemma admin_decompress_expands_aliases_witness :
  AdminCodec.decompressAdminData
    (AdminCodec.VObj [("lat", AdminCodec.VNum (2317 # 100));
                      ("busId", AdminCodec.VStr "BUS001")])
  = AdminCodec.VObj [("latitude", AdminCodec.VNum (2317 # 100));
                     ("busId", AdminCodec.VStr "BUS001")]
  /\ AdminCodec.table_get "latitude" AdminCodec.reverseMappings = None.
Proof.
  split; [reflexivity|].
  apply (admin_decompress_expands_aliases
           [("lat", AdminCodec.VNum (2317 # 100));
            ("busId", AdminCodec.VStr "BUS001")]
           [("latitude", AdminCodec.VNum (2317 # 100));
            ("busId", AdminCodec.VStr "BUS001")] "latitude").
  - repeat constructor.
  - reflexivity.
  - cbn. now left.
Defined.

(** X27. What [compressAdminData] keeps of a field of an object whose
    fields have distinct aliases: a [null] or [undefined] field is dropped;
    a numeric field is stored as a number; a field holding ASCII text of
    more than 50 characters is stored as its first 50 characters followed
    by "...", 53 characters in all; any other field, ASCII text of at
    most 50 characters included, is stored compressed in turn. *)
Theorem admin_compress_field :
  forall (fields out : list (string * AdminCodec.value)) (key : string)
         (v : AdminCodec.value),
    Forall (fun k => AdminCodec.ordinary_key k = true) (map fst fields) ->
    NoDup (map AdminCodec.compressedKey (map fst fields)) ->
    In (key, v) fields ->
    AdminCodec.compressAdminData (AdminCodec.VObj fields)
    = AdminCodec.VObj out ->
    match v with
    | AdminCodec.VUndefined | AdminCodec.VNull =>
        JsMap.get (AdminCodec.compressedKey key) out = None
    | AdminCodec.VNum q =>
        exists q', JsMap.get (AdminCodec.compressedKey key) out
                   = Some (AdminCodec.VNum q')
    | AdminCodec.VStr s =>
        AdminCodec.is_ascii s = true ->
        if (50 <? String.length s)%nat
        then JsMap.get (AdminCodec.compressedKey key) out
             = Some (AdminCodec.VStr (AdminCodec.truncate_text s))
             /\ String.length (AdminCodec.truncate_text s) = 53%nat
        else JsMap.get (AdminCodec.compressedKey key) out
             = Some (AdminCodec.compressAdminData v)
    | _ =>
        JsMap.get (AdminCodec.compressedKey key) out
        = Some (AdminCodec.compressAdminData v)
    end.
Proof.
  intros fields out key v _ Hnd Hin Hc.
  cbn [AdminCodec.compressAdminData AdminCodec.truthy negb] in Hc.
  injection Hc as <-.
  assert (Hgen : forall (l acc : list (string * AdminCodec.value)),
             NoDup (map AdminCodec.compressedKey (map fst l)) ->
             In (key, v) l ->
             ~ In (AdminCodec.compressedKey key) (JsMap.keys acc) ->
             JsMap.get (AdminCodec.compressedKey key)
               (AdminCodec.compress_fields AdminCodec.compressAdminData l acc)
             = JsMap.get (AdminCodec.compressedKey key)
                 (AdminCodec.compress_entry AdminCodec.compressAdminData
                    key v [])).
  { induction l as [|[k0 v0] rest IH]; intros acc Hnd' Hin' Hacc;
      [contradiction|].
    cbn [map fst] in Hnd'. inversion Hnd' as [|? ? Hnotin Hrest]; subst.
    cbn [AdminCodec.compress_fields]. destruct Hin' as [[= -> ->] | Hin'].
    - rewrite compress_fields_get_other by assumption.
      apply jsmap_get_none_notin in Hacc.
      unfold AdminCodec.compress_entry.
      destruct v as [| | b | q | s | items | fs];
        cbn [AdminCodec.not_nullish]; try exact Hacc;
        try (now rewrite !jsmap_get_set_same).
      destruct (50 <? String.length s)%nat; now rewrite !jsmap_get_set_same.
    - apply IH; try assumption.
      assert (Hne : AdminCodec.compressedKey k0 <> AdminCodec.compressedKey key).
      { intros E. apply Hnotin. rewrite E.
        apply in_map. change key with (fst (key, v)). now apply in_map. }
      unfold AdminCodec.compress_entry.
      destruct (AdminCodec.not_nullish v0); [|exact Hacc].
      intros H.
      assert (Hin2 : In (AdminCodec.compressedKey key) (JsMap.keys acc)).
      { destruct v0;
          try (apply jsmap_keys_set_in in H; destruct H as [E | H];
               [congruence | exact H]).
        destruct (50 <? String.length s)%nat;
          apply jsmap_keys_set_in in H; destruct H as [E | H];
          congruence || exact H. }
      contradiction. }
  rewrite (Hgen fields [] Hnd Hin ltac:(intros [])).
  unfold AdminCodec.compress_entry.
  destruct v as [| | b | q | s | items | fs]; cbn [AdminCodec.not_nullish];
    try reflexivity; cbn [JsMap.set JsMap.get]; rewrite ?String.eqb_refl;
    try reflexivity.
  - eexists. reflexivity.
  - intros _.
    destruct (Nat.ltb_spec 50 (String.length s)); cbn [JsMap.set JsMap.get];
      rewrite String.eqb_refl; [|reflexivity].
    split; [reflexivity | now apply truncate_text_length].
Qed.

Lemma admin_compress_field_witness :
  let remark := "Depot road closed between Civil Lines and the railway station" in
  JsMap.get "remark"
    [("bn", AdminCodec.VStr "MP20-1234");
     ("remark", AdminCodec.VStr "Depot road closed between Civil Lines and the rail...")]
  = Some (AdminCodec.VStr (AdminCodec.truncate_text remark))
  /\ String.length (AdminCodec.truncate_text remark) = 53%nat.
Proof.
  intros remark.
  apply (admin_compress_field
           [("busNumber", AdminCodec.VStr "MP20-1234");
            ("remark", AdminCodec.VStr remark);
            ("lastMaintenance", AdminCodec.VNull)]
           _ "remark" (AdminCodec.VStr remark)).
  - repeat constructor.
  - repeat constructor; cbn; intuition discriminate.
  - cbn. right. now left.
  - reflexivity.
  - reflexivity.
Defined.

(** ** createNetworkMonitor *)

Section MonitorFacts.

Lemma received_app (id : nat) (rt : Monitor.Runtime)
    (extra : list (nat * Network.NetworkInfo)) :
  map snd (filter (fun e => Nat.eqb (fst e) id) (Monitor.calls rt ++ extra))
  = Monitor.received id rt
    ++ map snd (filter (fun e => Nat.eqb (fst e) id) extra).
Proof. unfold Monitor.received. now rewrite filter_app, map_app. Qed.

Lemma dispatch_to (id : nat) (info : Network.NetworkInfo) (ls : list nat) :
  NoDup ls ->
  map snd (filter (fun e => Nat.eqb (fst e) id)
                  (map (fun i => (i, info)) ls))
  = if in_dec Nat.eq_dec id ls then [info] else [].
Proof.
  induction ls as [|x ls IH]; intros Hnd; [reflexivity|].
  inversion Hnd as [|? ? Hn Hnd']; subst.
  cbn [map filter fst].
  destruct (Nat.eqb_spec x id) as [-> | Hne]; cbn [map snd];
    rewrite (IH Hnd');
    destruct (in_dec Nat.eq_dec id ls) as [Hin | Hnin];
    destruct (in_dec Nat.eq_dec id (_ :: ls)) as [Hin' | Hnin'];
    try reflexivity; try contradiction.
  - exfalso. apply Hnin'. now left.
  - exfalso. apply Hnin'. now right.
  - exfalso. destruct Hin' as [E | Hin']; [congruence | contradiction].
Qed.

Lemma received_change (id : nat) (c : Network.Connection)
    (rt : Monitor.Runtime) :
  NoDup (Monitor.listeners rt) ->
  Monitor.received id (Monitor.change c rt)
  = Monitor.received id rt
    ++ match Monitor.connection rt with
       | Some _ =>
           if in_dec Nat.eq_dec id (Monitor.listeners rt)
           then [Network.getNetworkInfo (Some c)] else []
       | None => []
       end.
Proof.
  intros Hnd. unfold Monitor.change.
  destruct (Monitor.connection rt) as [c0|]; [|now rewrite app_nil_r].
  unfold Monitor.received. cbn [Monitor.calls].
  rewrite filter_app, map_app. f_equal.
  now apply dispatch_to.
Qed.

Lemma change_listeners (c : Network.Connection) (rt : Monitor.Runtime) :
  Monitor.listeners (Monitor.change c rt) = Monitor.listeners rt
  /\ Monitor.next_id (Monitor.change c rt) = Monitor.next_id rt
  /\ (Monitor.connection rt <> None ->
      Monitor.connection (Monitor.change c rt) <> None).
Proof.
  unfold Monitor.change. destruct (Monitor.connection rt); cbn; repeat split;
    auto; discriminate.
Qed.

(** While [id] is registered, every change is delivered to it once. *)
Lemma changes_registered (cs : list Network.Connection) :
  forall (rt : Monitor.Runtime) (id : nat),
    Monitor.connection rt <> None ->
    NoDup (Monitor.listeners rt) ->
    In id (Monitor.listeners rt) ->
    let rt' := Monitor.changes cs rt in
    Monitor.received id rt'
    = Monitor.received id rt
      ++ map (fun c => Network.getNetworkInfo (Some c)) cs
    /\ Monitor.listeners rt' = Monitor.listeners rt
    /\ Monitor.next_id rt' = Monitor.next_id rt
    /\ Monitor.connection rt' <> None.
Proof.
  induction cs as [|c cs IH]; intros rt id Hconn Hnd Hin; cbn zeta.
  - cbn. rewrite app_nil_r. tauto.
  - cbn [Monitor.changes fold_left].
    assert (Hstep : Monitor.received id (Monitor.change c rt)
                    = Monitor.received id rt
                      ++ [Network.getNetworkInfo (Some c)]
                    /\ Monitor.listeners (Monitor.change c rt)
                       = Monitor.listeners rt
                    /\ Monitor.next_id (Monitor.change c rt)
                       = Monitor.next_id rt
                    /\ Monitor.connection (Monitor.change c rt) <> None).
    { destruct (change_listeners c rt) as (Hl & Hn & Hc).
      rewrite received_change by assumption.
      destruct (Monitor.connection rt) as [c0|] eqn:E; [|contradiction].
      destruct (in_dec Nat.eq_dec id (Monitor.listeners rt));
        [|contradiction].
      repeat split; auto; try (apply Hc; discriminate). }
    destruct Hstep as (Hr & Hl & Hn & Hc).
    destruct (IH (Monitor.change c rt) id) as (Hr' & Hl' & Hn' & Hc');
      rewrite ?Hl; try assumption.
    unfold Monitor.changes in *. rewrite Hr', Hr, Hl', Hn', Hl, Hn.
    rewrite <- app_assoc. tauto.
Qed.

(** While [id] is not registered, changes deliver nothing to it. *)
Lemma changes_unregistered (cs : list Network.Connection) :
  forall (rt : Monitor.Runtime) (id : nat),
    NoDup (Monitor.listeners rt) ->
    ~ In id (Monitor.listeners rt) ->
    Monitor.received id (Monitor.changes cs rt) = Monitor.received id rt.
Proof.
  induction cs as [|c cs IH]; intros rt id Hnd Hnin; [reflexivity|].
  cbn [Monitor.changes fold_left].
  assert (Hstep : Monitor.received id (Monitor.change c rt)
                  = Monitor.received id rt
                  /\ Monitor.listeners (Monitor.change c rt)
                     = Monitor.listeners rt).
  { destruct (change_listeners c rt) as (Hl & _).
    rewrite received_change by assumption.
    destruct (Monitor.connection rt); [|now rewrite app_nil_r].
    destruct (in_dec Nat.eq_dec id (Monitor.listeners rt)); [contradiction|].
    now rewrite app_nil_r. }
  destruct Hstep as [Hr Hl].
  unfold Monitor.changes in *. rewrite IH; rewrite ?Hl; assumption.
Qed.

End MonitorFacts.

Lemma nodup_remove (x : nat) (l : list nat) :
  NoDup l -> NoDup (List.remove Nat.eq_dec x l).
Proof.
  induction l as [|y l IH]; intros H; cbn; [constructor|].
  inversion H as [|? ? Hn Hl]; subst.
  destruct (Nat.eq_dec x y); [now apply IH|].
  constructor; [|now apply IH].
  intros Hin. apply in_remove in Hin. tauto.
Qed.

(** X28. A monitor created while the connection API is present calls its
    callback once at once with the current classification and then once
    for every change, in order, until its cleanup function is called;
    changes after the cleanup do not reach it. Without the API nothing is
    registered and the callback is never called. *)
Theorem monitor_delivers_until_cleanup :
  forall (rt : Monitor.Runtime) (before after : list Network.Connection),
    Monitor.wf rt ->
    let id := Monitor.next_id rt in
    let created := Monitor.createNetworkMonitor rt in
    let final :=
      Monitor.changes after
        (Monitor.cleanup (fst created)
           (Monitor.changes before (snd created))) in
    match Monitor.connection rt with
    | Some c0 =>
        fst created = Some id
        /\ Monitor.received id final
           = Network.getNetworkInfo (Some c0)
             :: map (fun c => Network.getNetworkInfo (Some c)) before
    | None =>
        fst created = None /\ Monitor.received id final = []
    end.
Proof.
  intros rt before after (Hnd & Hfresh & Hcalls) id created final.
  assert (Hnew : ~ In id (Monitor.listeners rt)).
  { intros H. specialize (Hfresh id H). unfold id in Hfresh. lia. }
  assert (Hnone : Monitor.received id rt = []).
  { unfold Monitor.received.
    assert (Hf : forall l : list (nat * Network.NetworkInfo),
               (forall e, In e l -> (fst e < id)%nat) ->
               filter (fun e => Nat.eqb (fst e) id) l = []).
    { induction l as [|e l IH]; intros Hl; cbn; [reflexivity|].
      destruct (Nat.eqb_spec (fst e) id) as [E | _].
      - specialize (Hl e (or_introl eq_refl)). lia.
      - apply IH. intros e' He'. apply Hl. now right. }
    now rewrite Hf. }
  unfold final, created, Monitor.createNetworkMonitor.
  destruct (Monitor.connection rt) as [c0|] eqn:Hconn; cbn [fst snd].
  - split; [reflexivity|]. fold id.
    set (rt1 := Monitor.mkRuntime (Some c0) (Monitor.listeners rt ++ [id])
                  (S id)
                  (Monitor.calls rt
                   ++ [(id, Network.getNetworkInfo (Some c0))])).
    assert (Hnd1 : NoDup (Monitor.listeners rt1)).
    { cbn. apply NoDup_app; auto.
      - constructor; [tauto | constructor].
      - intros x Hx [<- | []]. contradiction. }
    assert (Hr1 : Monitor.received id rt1
                  = [Network.getNetworkInfo (Some c0)]).
    { unfold Monitor.received at 1. cbn [Monitor.calls rt1].
      rewrite received_app, Hnone. cbn. now rewrite Nat.eqb_refl. }
    destruct (changes_registered before rt1 id) as (Hr2 & Hl2 & _ & _);
      [discriminate | exact Hnd1 | cbn; apply in_or_app; right; now left |].
    rewrite changes_unregistered.
    + unfold Monitor.received, Monitor.cleanup. cbn [Monitor.calls].
      fold (Monitor.received id (Monitor.changes before rt1)).
      now rewrite Hr2, Hr1.
    + cbn [Monitor.cleanup Monitor.listeners]. apply nodup_remove.
      now rewrite Hl2.
    + cbn [Monitor.cleanup Monitor.listeners]. apply remove_In.
  - split; [reflexivity|]. cbn [Monitor.cleanup].
    assert (Hstay : forall cs, Monitor.changes cs rt = rt).
    { induction cs as [|c cs IH]; [reflexivity|].
      cbn [Monitor.changes fold_left]. unfold Monitor.change at 2.
      rewrite Hconn. exact IH. }
    now rewrite !Hstay.
Qed.

Lemma monitor_delivers_until_cleanup_witness :
  let c0 := Network.mkConnection (Some "4g") (Some 10%Q) (Some 50%Q) in
  let c1 := Network.mkConnection (Some "2g") (Some 1%Q) (Some 900%Q) in
  let c2 := Network.mkConnection (Some "3g") (Some 2%Q) (Some 300%Q) in
  let created := Monitor.createNetworkMonitor (Monitor.fresh (Some c0)) in
  Monitor.received 0
    (Monitor.changes [c2]
       (Monitor.cleanup (fst created) (Monitor.changes [c1] (snd created))))
  = [Network.getNetworkInfo (Some c0); Network.getNetworkInfo (Some c1)].
Proof.
  intros c0 c1 c2 created.
  assert (Hwf : Monitor.wf (Monitor.fresh (Some c0))).
  { repeat split; [constructor | intros i [] | intros e []]. }
  exact (proj2 (monitor_delivers_until_cleanup (Monitor.fresh (Some c0))
                  [c1] [c2] Hwf)).
Defined.

(** ** AdminLazyLoader *)

(** X29. The delay before a network-aware lazy section loads is at most
    1000 ms, is 0 on an excellent network, never gets shorter when the
    network quality gets worse, and never gets shorter when the priority
    gets lower. *)
Theorem lazy_delay_monotone :
  forall (q q' : Network.ConnectionQuality) (p p' : LazyLoader.Priority),
    LazyLoader.quality_rank q <= LazyLoader.quality_rank q' ->
    LazyLoader.priority_rank p' <= LazyLoader.priority_rank p ->
    exists d d',
      LazyLoader.load_delay true q p = Some d
      /\ LazyLoader.load_delay true q' p' = Some d'
      /\ 0 <= d' <= d /\ d <= 1000
      /\ (q' = Network.excellent -> d' = 0).
Proof.
  intros q q' p p' Hq Hp.
  destruct q, q', p, p'; cbn in Hq, Hp; try lia;
    (eexists; eexists; repeat split; try reflexivity; try lia;
     try discriminate).
Qed.

Lemma lazy_delay_monotone_witness :
  exists d d',
    LazyLoader.load_delay true Network.poor LazyLoader.medium = Some d
    /\ LazyLoader.load_delay true Network.good LazyLoader.high = Some d'
    /\ 0 <= d' <= d /\ d <= 1000
    /\ (Network.good = Network.excellent -> d' = 0).
Proof.
  apply (lazy_delay_monotone Network.poor Network.good LazyLoader.medium
           LazyLoader.high); cbn; lia.
Defined.
